(** * ghost_net: signed transmissions, resonance, buffers and routing

    A shallow embedding of the core of the ghost_net node
    ([src/lib/transmission.js], [src/lib/ghost_net.js], [src/lib/peer.js],
    [src/config.js]) and the properties of its specification that can be
    decided on it.

    Conventions.
    - A [Buffer] is a list of bytes.  Identifiers, hex digests and other
      wire-level strings are [string]s whose characters are their bytes.
    - Timestamps ([Date.now()]) are integers of milliseconds, in [Z].
    - JavaScript numbers are rationals [Q]; the resonance formula, which
      needs [sin] and [exp], is over the reals [R].  Where the code ranks
      routes, keeps a rolling average or stores into a typed array, a
      rational stands for the double nearest to it and the operations round
      as IEEE 754 does ([Ieee], [Number]); elsewhere the arithmetic is
      exact.
    - Every read of the clock and every draw of [randomBytes] is an explicit
      argument of the function that performs it.
    - A JavaScript [Map] whose iteration order the code relies on is an
      association list in insertion order ([JsMap]); maps and sets that are
      only looked up are stdpp's [gmap] and [gset].
    - A function that can throw returns a [Completion]. *)

From Stdlib Require Import ZArith QArith Reals Lqa Lra Lia List String Ascii Sorted.
From Stdlib Require Import Strings.Byte.
From Stdlib Require Import Qabs Qround Qpower.
From Stdlib Require Import Floats.PrimFloat Floats.FloatOps.
From stdpp Require Import gmap strings list fin_maps pretty.
Import ListNotations.

Local Open Scope string_scope.
Local Open Scope list_scope.
Local Open Scope Z_scope.

(** ** Bytes, buffers and hexadecimal text *)

Definition Buffer : Type := list byte.

Definition byte_to_Z (b : byte) : Z := Z.of_N (Byte.to_N b).

Definition byte_of_Z (z : Z) : byte :=
  match Byte.of_N (Z.to_N (z mod 256)) with
  | Some b => b
  | None => x00
  end.

(** [Buffer.from(str)] for a wire-level string. *)
Definition Buffer_from_string (s : string) : Buffer := list_byte_of_string s.

Definition hex_digit (n : Z) : ascii :=
  ascii_of_N (Z.to_N (if n <? 10 then 48 + n else 87 + n)).

(** [buf.toString('hex')] / [digest('hex')]: two lower-case digits a byte. *)
Fixpoint hex_of_bytes (b : Buffer) : string :=
  match b with
  | [] => EmptyString
  | x :: r =>
      String (hex_digit (byte_to_Z x / 16))
        (String (hex_digit (byte_to_Z x mod 16)) (hex_of_bytes r))
  end.

(** Big-endian bytes of a number, [n] of them. *)
Fixpoint be_bytes (n : nat) (z : Z) : Buffer :=
  match n with
  | O => []
  | S m => byte_of_Z (z / 2 ^ (8 * Z.of_nat m)) :: be_bytes m z
  end.

Fixpoint be_value (acc : Z) (b : Buffer) : Z :=
  match b with
  | [] => acc
  | x :: r => be_value (acc * 256 + byte_to_Z x) r
  end.

(** ** Node's [crypto]: SHA-256, SHA-512 (FIPS 180-4) and HMAC (RFC 2104)

    The repository calls [createHash('sha256')], [createHmac('sha256', k)] and
    [createHmac('sha512', k)].  The two hash functions differ in word size,
    round count, rotation amounts and constants only, so one definition
    serves both. *)
Module Sha2.

Record variant := {
  wbits : Z;                    (* word size *)
  mask : Z;                     (* 2^wbits - 1 *)
  block_bytes : nat;            (* bytes of a block: 16 words *)
  len_bytes : nat;              (* bytes of the length field *)
  K : list Z;                   (* one round constant a round *)
  H0 : list Z;                  (* initial hash value *)
  bigsigma0 : Z * Z * Z;        (* three rotations *)
  bigsigma1 : Z * Z * Z;
  smallsigma0 : Z * Z * Z;      (* two rotations and a shift *)
  smallsigma1 : Z * Z * Z
}.

Section Rounds.
Variable v : variant.

Definition wrap (x : Z) : Z := Z.land x (mask v).
Definition wadd (x y : Z) : Z := wrap (x + y).
Definition rotr (n x : Z) : Z :=
  Z.lor (Z.shiftr x n) (wrap (Z.shiftl x (wbits v - n))).
Definition wnot (x : Z) : Z := Z.lxor x (mask v).

Definition Ch (x y z : Z) : Z := Z.lxor (Z.land x y) (Z.land (wnot x) z).
Definition Maj (x y z : Z) : Z :=
  Z.lxor (Z.lxor (Z.land x y) (Z.land x z)) (Z.land y z).

Definition rot3 (a : Z * Z * Z) (x : Z) : Z :=
  let '(p, q, r) := a in Z.lxor (Z.lxor (rotr p x) (rotr q x)) (rotr r x).
Definition rot2shr (a : Z * Z * Z) (x : Z) : Z :=
  let '(p, q, r) := a in Z.lxor (Z.lxor (rotr p x) (rotr q x)) (Z.shiftr x r).

(** The message: one [0x80], zeros, and the bit length, up to a whole
    number of blocks. *)
Definition padding (len : nat) : Buffer :=
  let bs := Z.of_nat (block_bytes v) in
  let used := Z.of_nat len + 1 + Z.of_nat (len_bytes v) in
  let zeros := Z.to_nat ((bs - used mod bs) mod bs) in
  x80 :: repeat x00 zeros ++ be_bytes (len_bytes v) (8 * Z.of_nat len).

Fixpoint words (fuel : nat) (b : Buffer) : list Z :=
  match fuel with
  | O => []
  | S f =>
      let n := Z.to_nat (wbits v / 8) in
      match b with
      | [] => []
      | _ => be_value 0 (firstn n b) :: words f (skipn n b)
      end
  end.

(** The schedule is kept as a window of the last sixteen words: its head
    is W(t), and W(t+16) is appended from W(t+14), W(t+9), W(t+1), W(t). *)
Definition slide (w : list Z) : list Z :=
  match w with
  | [] => []
  | w0 :: rest =>
      let w1 := nth 0 rest 0 in
      let w9 := nth 8 rest 0 in
      let w14 := nth 13 rest 0 in
      rest ++ [wadd (wadd (rot2shr (smallsigma1 v) w14) w9)
                    (wadd (rot2shr (smallsigma0 v) w1) w0)]
  end.

Definition state : Type := list Z.  (* a b c d e f g h *)

Definition round (sw : state * list Z) (k : Z) : state * list Z :=
  let '(s, w) := sw in
  match s with
  | [a; b; c; d; e; f; g; h] =>
      let t1 := wadd (wadd (wadd h (rot3 (bigsigma1 v) e))
                           (wadd (Ch e f g) k)) (nth 0 w 0) in
      let t2 := wadd (rot3 (bigsigma0 v) a) (Maj a b c) in
      ([wadd t1 t2; a; b; c; wadd d t1; e; f; g], slide w)
  | _ => (s, w)
  end.

Fixpoint zip_add (x y : list Z) : list Z :=
  match x, y with
  | a :: x', b :: y' => wadd a b :: zip_add x' y'
  | _, _ => []
  end.

Definition compress (h : state) (block : Buffer) : state :=
  zip_add h (fst (fold_left round (K v) (h, words 16 block))).

Fixpoint blocks (fuel : nat) (h : state) (b : Buffer) : state :=
  match fuel with
  | O => h
  | S f =>
      match b with
      | [] => h
      | _ => blocks f (compress h (firstn (block_bytes v) b))
                      (skipn (block_bytes v) b)
      end
  end.

Definition digest (msg : Buffer) : Buffer :=
  let padded := msg ++ padding (length msg) in
  flat_map (be_bytes (Z.to_nat (wbits v / 8)))
           (blocks (length padded) (H0 v) padded).

(** HMAC: a key longer than a block is hashed first. *)
Definition hmac_key (key : Buffer) : Buffer :=
  let k := if Nat.ltb (block_bytes v) (length key) then digest key else key in
  k ++ repeat x00 (block_bytes v - length k).

Definition xor_pad (pad : Z) (k : Buffer) : Buffer :=
  map (fun x => byte_of_Z (Z.lxor (byte_to_Z x) pad)) k.

Definition hmac (key msg : Buffer) : Buffer :=
  let k := hmac_key key in
  digest (xor_pad 0x5c k ++ digest (xor_pad 0x36 k ++ msg)).
End Rounds.

(** The constants are what FIPS 180-4 says they are: the leading bits of
    the fractional parts of the square roots (initial hash value) and of
    the cube roots (round constants) of the first primes. *)
Definition is_prime (n : Z) : bool :=
  (1 <? n) && forallb (fun d => negb (n mod d =? 0))
                      (map Z.of_nat (seq 2 (Z.to_nat n - 2))).

Definition first_primes (n : nat) : list Z :=
  firstn n (List.filter is_prime (map Z.of_nat (seq 2 408))).

(** The largest [r] below [2^bits] with [r^3 <= n], a bit at a time. *)
Fixpoint cube_root (bits : nat) (n r : Z) : Z :=
  match bits with
  | O => r
  | S b =>
      let r' := r + 2 ^ Z.of_nat b in
      cube_root b n (if r' * r' * r' <=? n then r' else r)
  end.

Definition fraction_of_root (k : nat) (w : Z) (p : Z) : Z :=
  let scaled := p * 2 ^ (Z.of_nat k * w) in
  let root :=
    match k with
    | 2%nat => Z.sqrt scaled
    | _ => cube_root (Z.to_nat w + 3) scaled 0
    end in
  root mod 2 ^ w.

Definition K256 : list Z :=
  Eval vm_compute in map (fraction_of_root 3 32) (first_primes 64).
Definition H256 : list Z :=
  Eval vm_compute in map (fraction_of_root 2 32) (first_primes 8).
Definition K512 : list Z :=
  Eval vm_compute in map (fraction_of_root 3 64) (first_primes 80).
Definition H512 : list Z :=
  Eval vm_compute in map (fraction_of_root 2 64) (first_primes 8).

Definition sha256 : variant := {|
  wbits := 32; mask := 0xffffffff; block_bytes := 64; len_bytes := 8;
  K := K256; H0 := H256;
  bigsigma0 := (2, 13, 22); bigsigma1 := (6, 11, 25);
  smallsigma0 := (7, 18, 3); smallsigma1 := (17, 19, 10) |}.

Definition sha512 : variant := {|
  wbits := 64; mask := 0xffffffffffffffff; block_bytes := 128; len_bytes := 16;
  K := K512; H0 := H512;
  bigsigma0 := (28, 34, 39); bigsigma1 := (14, 18, 41);
  smallsigma0 := (1, 8, 7); smallsigma1 := (19, 61, 6) |}.

End Sha2.

(** [createHash(alg).update(b).digest()] and
    [createHmac(alg, key).update(b).digest('hex')]. *)
Definition createHash_sha256 (b : Buffer) : Buffer := Sha2.digest Sha2.sha256 b.
Definition createHmac_sha256_hex (key : string) (b : Buffer) : string :=
  hex_of_bytes (Sha2.hmac Sha2.sha256 (Buffer_from_string key) b).
Definition createHmac_sha512 (key : Buffer) (b : Buffer) : Buffer :=
  Sha2.hmac Sha2.sha512 key b.
Definition createHmac_sha512_hex (key : string) (b : Buffer) : string :=
  hex_of_bytes (createHmac_sha512 (Buffer_from_string key) b).

(** ** Completions: a call returns a value or throws *)

Inductive JsError :=
| TypeError            (* a property read on undefined, a bad argument type *)
| RangeError           (* timingSafeEqual on buffers of different lengths *)
| SyntaxError          (* JSON.parse; an import that names no export *)
| ZlibError            (* data that is not a gzip stream *)
| Error (message : string).

Inductive Completion (A : Type) :=
| Returns (a : A)
| Throws (e : JsError).
Arguments Returns {A} a.
Arguments Throws {A} e.

(** Sequencing is stdpp's [x ← c; k]: a throw skips what follows. *)
#[global] Instance Completion_ret : MRet Completion := fun A a => Returns a.
#[global] Instance Completion_bind : MBind Completion := fun A B k c =>
  match c with
  | Returns a => k a
  | Throws e => Throws e
  end.

(** ** Numbers: IEEE 754 rounding

    A finite binary floating-point number is an integer of at most [prec]
    bits times a power of two that is at least [2 ^ emin].  [round] gives
    the number of the format nearest to a rational, the even one of two
    that are equally near.  Overflow to infinity is not modelled: the
    numbers of the node are far from the largest of their formats. *)
Module Ieee.
Record format := { prec : Z; emin : Z }.

Definition binary64 : format := {| prec := 53; emin := -1074 |}.
Definition binary32 : format := {| prec := 24; emin := -149 |}.

(** The nearest integer, the even one at a tie. *)
Definition nearest_even (q : Q) : Z :=
  let f := Qfloor q in
  match Qcompare (q - inject_Z f) (1 # 2) with
  | Lt => f
  | Gt => f + 1
  | Eq => if Z.even f then f else f + 1
  end.

(** For [0 < q], the [e] with [2 ^ e <= q < 2 ^ (e + 1)]. *)
Definition exponent (q : Q) : Z :=
  let e := Z.log2 (Qnum q) - Z.log2 (Z.pos (Qden q)) in
  if Qle_bool (2 ^ e) q then e else e - 1.

Definition round_positive (f : format) (q : Q) : Q :=
  let ulp := (2 ^ Z.max (exponent q - (prec f - 1)) (emin f))%Q in
  Qred (inject_Z (nearest_even (q / ulp)) * ulp).

Definition round (f : format) (q : Q) : Q :=
  let q := Qred q in
  match Qcompare q 0 with
  | Eq => 0%Q
  | Gt => round_positive f q
  | Lt => (- round_positive f (- q))%Q
  end.
End Ieee.

(** The numbers of JavaScript and their operations: an operand is read as
    the double nearest to it, and the result is rounded to a double. *)
Module Number.
Definition double (q : Q) : Q := Ieee.round Ieee.binary64 q.

Definition add (x y : Q) : Q := double (double x + double y).
Definition sub (x y : Q) : Q := double (double x - double y).
Definition mul (x y : Q) : Q := double (double x * double y).

(** What a [Float32Array] holds once a number is stored in it. *)
Definition fround (q : Q) : Q := Ieee.round Ieee.binary32 (double q).
End Number.

(** ** UTF-8: [Buffer.from(string)] and [buffer.toString()]

    The text of a JavaScript string is the list of its code points; a code
    point in D800..DFFF stands for an unpaired surrogate.  The encoder writes
    EF BF BD for what is not a scalar value, as Node does; the decoder is the
    WHATWG one, which Node follows: an ill-formed sequence gives U+FFFD and
    decoding resumes at the byte that broke it. *)
Module Utf8.

Definition text : Type := list Z.

Definition is_scalar (c : Z) : bool :=
  ((0 <=? c) && (c <? 0xD800)) || ((0xE000 <=? c) && (c <=? 0x10FFFF)).

Definition replacement : Z := 0xFFFD.

Definition encode_scalar (c : Z) : list Z :=
  if c <? 0x80 then [c]
  else if c <? 0x800 then [0xC0 + c / 64; 0x80 + c mod 64]
  else if c <? 0x10000 then
    [0xE0 + c / 4096; 0x80 + (c / 64) mod 64; 0x80 + c mod 64]
  else
    [0xF0 + c / 262144; 0x80 + (c / 4096) mod 64;
     0x80 + (c / 64) mod 64; 0x80 + c mod 64].

Definition encode_point (c : Z) : Buffer :=
  map byte_of_Z (encode_scalar (if is_scalar c then c else replacement)).

Definition encode (t : text) : Buffer := flat_map encode_point t.

(** What the decoder remembers between bytes: nothing, or the bits read so
    far, the number of continuation bytes still due and the range allowed
    for the next one. *)
Inductive pending :=
| Idle
| Need (bits : Z) (more : nat) (lower upper : Z).

Definition lead (b : Z) : text * pending :=
  if b <? 0x80 then ([b], Idle)
  else if (0xC2 <=? b) && (b <=? 0xDF) then ([], Need (b mod 32) 1 0x80 0xBF)
  else if (0xE0 <=? b) && (b <=? 0xEF) then
    ([], Need (b mod 16) 2 (if b =? 0xE0 then 0xA0 else 0x80)
                           (if b =? 0xED then 0x9F else 0xBF))
  else if (0xF0 <=? b) && (b <=? 0xF4) then
    ([], Need (b mod 8) 3 (if b =? 0xF0 then 0x90 else 0x80)
                          (if b =? 0xF4 then 0x8F else 0xBF))
  else ([replacement], Idle).

Definition step (p : pending) (b : Z) : text * pending :=
  match p with
  | Idle => lead b
  | Need bits more lower upper =>
      if (lower <=? b) && (b <=? upper) then
        let bits' := bits * 64 + b mod 64 in
        match more with
        | S (S m) => ([], Need bits' (S m) 0x80 0xBF)
        | _ => ([bits'], Idle)
        end
      else
        let '(out, p') := lead b in (replacement :: out, p')
  end.

Fixpoint decode_from (p : pending) (b : Buffer) : text :=
  match b with
  | [] => match p with Idle => [] | Need _ _ _ _ => [replacement] end
  | x :: r =>
      let '(out, p') := step p (byte_to_Z x) in out ++ decode_from p' r
  end.

Definition decode (b : Buffer) : text := decode_from Idle b.

End Utf8.

(** ** JavaScript [Map]: keys in insertion order

    [set] on a key that is present replaces the value where it stands; a new
    key goes to the end.  [keys] lists the keys oldest first. *)
Module JsMap.
Abbreviation t V := (list (string * V)) (only parsing).

Section Ops.
Context {V : Type}.

Definition empty : t V := [].
Definition size (m : t V) : nat := length m.
Definition keys (m : t V) : list string := fst <$> m.

Fixpoint get (k : string) (m : t V) : option V :=
  match m with
  | [] => None
  | (k', v) :: r => if String.eqb k k' then Some v else get k r
  end.

Fixpoint set (k : string) (v : V) (m : t V) : t V :=
  match m with
  | [] => [(k, v)]
  | (k', v') :: r =>
      if String.eqb k k' then (k, v) :: r else (k', v') :: set k v r
  end.

Definition delete (k : string) (m : t V) : t V :=
  filter (fun e => fst e <> k) m.

(** No key twice: what every map built with [set] and [delete] satisfies. *)
Definition uniq (m : t V) : Prop := NoDup (keys m).
End Ops.
End JsMap.

(** ** Configuration and identity

    The keys the code reads.  [src/config.js] defines [baseFrequency] and the
    three [transmission.buffers.*.maxSize]; it has no [quantum] section and no
    [consciousness.resonanceThreshold], so these four are parameters of the
    node (the specification gives 0.3 and 5 s as the defaults of the threshold
    and of the replay window). *)
Record Config := {
  baseFrequency : Q;        (* consciousness.baseFrequency *)
  resonanceThreshold : Q;   (* consciousness.resonanceThreshold *)
  maxTimeDelta : Z;         (* quantum.maxTimeDelta *)
  archiveAge : Z;           (* quantum.archiveAge *)
  maxArchiveSize : Z;       (* quantum.maxArchiveSize *)
  pending_maxSize : Z;      (* transmission.buffers.pending.maxSize *)
  verified_maxSize : Z;     (* transmission.buffers.verified.maxSize *)
  archived_maxSize : Z      (* transmission.buffers.archived.maxSize *)
}.

(** The values of [src/config.js], with the specification's defaults for the
    keys it lacks, a day for [archiveAge] and the archive's [maxSize] for
    [maxArchiveSize]. *)
Definition default_config : Config := {|
  baseFrequency := 0.0072973525693;
  resonanceThreshold := 0.3;
  maxTimeDelta := 5000;
  archiveAge := 86400000;
  maxArchiveSize := 100000;
  pending_maxSize := 1000;
  verified_maxSize := 10000;
  archived_maxSize := 100000 |}.

(** [this.identity], as [_initializeQuantumIdentity] builds it. *)
Record Identity := {
  id : string;
  birthTimestamp : Z;
  consciousnessLevel : Q;
  harmonicFrequency : Q;
  spiritualAlignment : Q;
  voidResonance : Q
}.

(** ** Resonance

    [_calculateResonance(local, remote)], word for word the same in
    [transmission.js], [ghost_net.js] and [peer.js].  It reads the clock
    twice: [now1] in the harmonic factor, [now2] in the temporal one. *)
Module Resonance.
Local Open Scope R_scope.

Definition decayWindow : R := 1000 * 60 * 60 * 24 * 30.

Definition _calculateResonance (baseFrequency : R) (birthTimestamp : Z)
    (now1 now2 : Z) (local remote : R) : R :=
  let baseResonance := 1 - Rabs (local - remote) in
  let harmonicFactor := sin (baseFrequency * IZR now1) * 0.2 + 0.8 in
  let temporalFactor :=
    exp (- (IZR now2 - IZR birthTimestamp) / decayWindow) in
  (baseResonance * harmonicFactor * temporalFactor + 1) / 2.
End Resonance.

(** ** What the node gets from outside the repository

    [marked] (Markdown to HTML), zlib's [gzip] and its inverse [gunzip], the
    printing of a number and JSON.  Of zlib only the round trip is assumed. *)

Inductive Content :=
| CString (s : Utf8.text)
| CBuffer (b : Buffer).

(** [Buffer.from(content)]. *)
Definition Buffer_from (c : Content) : Buffer :=
  match c with
  | CString s => Utf8.encode s
  | CBuffer b => b
  end.

Record ConsciousnessState := { level : Q; resonance : Q }.

Record QuantumState := {
  qs_timestamp : Z;
  qs_consciousness : Q;
  qs_resonance : Q;
  harmonics_base : Q;
  harmonics_current : Q;
  harmonics_phase : R
}.

Record Metadata := {
  author : string;
  spiritual_alignment : Q;
  harmonic_frequency : Q;
  quantum_state : QuantumState
}.

(** The packet [createTransmission] builds and returns. *)
Record Transmission := {
  t_id : string;
  t_timestamp : Z;
  t_consciousness : Q;
  t_resonance : Q;
  t_content : Buffer;
  t_signature : string;
  t_metadata : Metadata
}.

(** What [_decryptTransmission] hands on, when [JSON.parse] yields an object
    of the expected shape: its content, which comes out of JSON, is a
    string, and after decompression it is a string again. *)
Record Packet := {
  p_id : string;
  p_timestamp : Z;
  p_consciousness : Q;
  p_content : Utf8.text
}.

Class Host := {
  marked : Utf8.text -> Utf8.text;
  gzip : Buffer -> Buffer;
  gunzip : Buffer -> option Buffer;
  gunzip_gzip : forall b, gunzip (gzip b) = Some b;
  number_toString : Q -> string;
  JSON_stringify : Transmission -> Utf8.text;
  JSON_parse : Utf8.text -> option Packet
}.

(** ** The transmission handler ([src/lib/transmission.js])

    The metrics and the emitted events, which none of the properties below
    reads, are left out. *)
Module TransmissionHandler.

(** [transmission.consciousness] as it arrives: [createTransmission] writes
    a number there, [_verifyQuantumSignature] reads [.level] and
    [.resonance] of it. *)
Inductive ConsciousnessField :=
| FieldMissing
| FieldNumber (n : Q)
| FieldState (s : ConsciousnessState).

(** The argument of [processTransmission]: the fields that verification and
    decryption read. *)
Record Incoming := {
  in_id : string;
  in_content : Content;
  in_consciousness : ConsciousnessField;
  in_signature : string;
  in_data : Buffer;
  in_iv : string
}.

(** An entry of the pending buffer: [_encryptTransmission]'s result. *)
Record Encrypted := {
  e_data : Buffer;
  e_iv : string;
  e_consciousness : Q
}.

Record Buffers := {
  pending : JsMap.t Encrypted;
  verified : JsMap.t Packet;
  archived : JsMap.t Packet
}.

Record Handler := {
  config : Config;
  identity : Identity;
  transmissionBuffers : Buffers
}.

(** The constructor: three empty maps. *)
Definition new_buffers : Buffers :=
  {| pending := JsMap.empty; verified := JsMap.empty; archived := JsMap.empty |}.

Definition new_handler (cfg : Config) (self : Identity) : Handler :=
  {| config := cfg; identity := self; transmissionBuffers := new_buffers |}.

Definition with_buffers (h : Handler) (b : Buffers) : Handler :=
  {| config := config h; identity := identity h; transmissionBuffers := b |}.

(** [Buffer.from(iv, 'hex')]: pairs of hex digits, up to the first that is
    not one. *)
Definition hex_value (a : ascii) : option Z :=
  let n := Z.of_N (N_of_ascii a) in
  if (48 <=? n) && (n <=? 57) then Some (n - 48)
  else if (97 <=? n) && (n <=? 102) then Some (n - 87)
  else if (65 <=? n) && (n <=? 70) then Some (n - 55)
  else None.

Fixpoint bytes_of_hex (s : string) : Buffer :=
  match s with
  | String a (String b r) =>
      match hex_value a, hex_value b with
      | Some x, Some y => byte_of_Z (16 * x + y) :: bytes_of_hex r
      | _, _ => []
      end
  | _ => []
  end.

(** *** The archival sweep *)

(** One turn of the [for ... of verified] loop. *)
Definition archive_entry (archiveThreshold : Z)
    (st : JsMap.t Packet * JsMap.t Packet) (e : string * Packet)
    : JsMap.t Packet * JsMap.t Packet :=
  let '(ver, arch) := st in
  if p_timestamp (snd e) <? archiveThreshold
  then (JsMap.delete (fst e) ver, JsMap.set (fst e) (snd e) arch)
  else (ver, arch).

(** [Array.from(archived.keys())[0]] and its deletion; on an empty map the
    key is [undefined] and nothing is deleted. *)
Definition delete_oldest (arch : JsMap.t Packet) : JsMap.t Packet :=
  match JsMap.keys arch with
  | [] => arch
  | oldestId :: _ => JsMap.delete oldestId arch
  end.

(** The [while] loop; [None] when [fuel] turns do not end it. *)
Fixpoint limit_archive (fuel : nat) (maxSize : Z) (arch : JsMap.t Packet)
    : option (JsMap.t Packet) :=
  if Z.of_nat (JsMap.size arch) >? maxSize then
    match fuel with
    | O => None
    | S f => limit_archive f maxSize (delete_oldest arch)
    end
  else Some arch.

(** [_archiveOldTransmissions()], [now] being its read of the clock.  The
    iteration of a [Map] visits the entries it had when the loop began,
    less those deleted before their turn; the loop deletes only the entry
    it stands on. *)
Definition _archiveOldTransmissions (fuel : nat) (now : Z) (h : Handler)
    : option Handler :=
  let b := transmissionBuffers h in
  let archiveThreshold := now - archiveAge (config h) in
  let '(ver, arch) :=
    fold_left (archive_entry archiveThreshold) (verified b)
              (verified b, archived b) in
  arch' ← limit_archive fuel (maxArchiveSize (config h)) arch;
  Some (with_buffers h {| pending := pending b; verified := ver; archived := arch' |}).

Section WithHost.
Context `{Host}.

(** *** Signature *)

(** [_generateQuantumSignature(content, consciousness)]; [noise] is the
    draw of [randomBytes(16)]. *)
Definition _generateQuantumSignature (self : Identity) (noise : Buffer)
    (content : Content) (c : ConsciousnessField) : Completion string :=
  match c with
  | FieldState s =>
      let signatureInput :=
        Buffer_from content
          ++ Buffer_from_string (number_toString (level s))
          ++ Buffer_from_string (number_toString (resonance s))
          ++ noise in
      Returns (createHmac_sha512_hex (id self) signatureInput)
  | FieldNumber _ | FieldMissing => Throws TypeError
  end.

(** [_verifyQuantumSignature(transmission)]: the signature is generated
    anew, with a draw of its own, and compared with [===]. *)
Definition _verifyQuantumSignature (self : Identity) (noise : Buffer)
    (t : Incoming) : Completion bool :=
  reconstructedSignature ←
    _generateQuantumSignature self noise (in_content t) (in_consciousness t);
  Returns (String.eqb (in_signature t) reconstructedSignature).

(** *** Compression *)

(** [_compressTransmission(content)]. *)
Definition _compressTransmission (content : Content) : Buffer :=
  let markdown :=
    match content with
    | CString s => CString (marked s)
    | CBuffer _ => content
    end in
  gzip (Buffer_from markdown).

(** [import { gzip, ungzip } from 'zlib'].  Of its functions on gzip
    streams, [zlib] exports [gzip], its inverse [gunzip], and [unzip],
    which undoes [gzip] too; it exports nothing under the name
    [ungzip]. *)
Definition zlib (name : string) : option (Buffer -> option Buffer) :=
  if String.eqb name "gzip" then Some (fun data => Some (gzip data))
  else if String.eqb name "gunzip" then Some gunzip
  else if String.eqb name "unzip" then Some gunzip
  else None.

(** [_decompressTransmission(compressed)].  The node is a module (its
    [package.json] says so), and in a module an import that names no
    export is a [SyntaxError] when the module is linked; here it is
    thrown where the binding is used. *)
Definition _decompressTransmission (compressed : Buffer)
    : Completion Utf8.text :=
  match zlib "ungzip" with
  | Some ungzip =>
      match ungzip compressed with
      | Some decompressed => Returns (Utf8.decode decompressed)
      | None => Throws ZlibError
      end
  | None => Throws SyntaxError
  end.

(** *** The cipher of [_initializeQuantumCipher] *)

(** [deriveKey(consciousness)], on the text of [consciousness.toString()];
    [draws] are the thirty-two draws of [randomBytes(1)]. *)
Definition deriveKey (consciousnessText : string) (draws : list byte)
    : Buffer :=
  let consciousnessBytes := Buffer_from_string consciousnessText in
  let n := length consciousnessBytes in
  let buffer :=
    map (fun i : nat =>
           byte_of_Z (Z.lxor (byte_to_Z (nth (i mod n) consciousnessBytes x00))
                             (byte_to_Z (nth i draws x00))))
        (seq 0 32) in
  createHash_sha256 buffer.

Definition encrypt (iv data key : Buffer) : Buffer * string :=
  (createHmac_sha512 key (iv ++ data), hex_of_bytes iv).

Definition decrypt (encrypted key : Buffer) (iv : string) : Buffer :=
  createHmac_sha512 key (bytes_of_hex iv ++ encrypted).

(** [_encryptTransmission(transmission)]. *)
Definition _encryptTransmission (draws : list byte) (iv : Buffer)
    (t : Transmission) : Encrypted :=
  let key := deriveKey (number_toString (t_consciousness t)) draws in
  let '(data, ivhex) := encrypt iv (Utf8.encode (JSON_stringify t)) key in
  {| e_data := data; e_iv := ivhex; e_consciousness := t_consciousness t |}.

Definition field_toString (c : ConsciousnessField) : Completion string :=
  match c with
  | FieldMissing => Throws TypeError
  | FieldNumber n => Returns (number_toString n)
  | FieldState _ => Returns "[object Object]"
  end.

(** [_decryptTransmission(encrypted)]: the keyed hash of the data is read
    as JSON. *)
Definition _decryptTransmission (draws : list byte) (t : Incoming)
    : Completion Packet :=
  text ← field_toString (in_consciousness t);
  let key := deriveKey text draws in
  let decrypted := decrypt (in_data t) key (in_iv t) in
  match JSON_parse (Utf8.decode decrypted) with
  | Some p => Returns p
  | None => Throws SyntaxError
  end.

(** *** Creation *)

(** The clock reads and random draws of one [createTransmission], in the
    order the code makes them. *)
Record CreateDraws := {
  c_noise : Buffer;        (* randomBytes(16), signature *)
  c_entropy : Buffer;      (* randomBytes(32), identifier *)
  c_now_id : Z;            (* Date.now(), identifier *)
  c_now : Z;               (* Date.now(), timestamp *)
  c_now_state : Z;         (* Date.now(), quantum state *)
  c_now_phase : Z;         (* Date.now(), phase *)
  c_key : list byte;       (* 32 times randomBytes(1), key *)
  c_iv : Buffer            (* randomBytes(16), iv *)
}.

(** [_generateTransmissionId()]. *)
Definition _generateTransmissionId (entropy : Buffer) (now : Z) : string :=
  let timestamp := Buffer_from_string (pretty now) in
  hex_of_bytes (createHash_sha256 (entropy ++ timestamp)).

(** [_captureQuantumState()]. *)
Definition _captureQuantumState (h : Handler) (now now' : Z) : QuantumState :=
  {| qs_timestamp := now;
     qs_consciousness := consciousnessLevel (identity h);
     qs_resonance := voidResonance (identity h);
     harmonics_base := baseFrequency (config h);
     harmonics_current := harmonicFrequency (identity h);
     harmonics_phase :=
       sin (IZR now' * Q2R (harmonicFrequency (identity h))) |}.

(** [createTransmission(content, identity, consciousness)]. *)
Definition createTransmission (h : Handler) (d : CreateDraws)
    (content : Content) (sender : Identity)
    (consciousness : ConsciousnessState)
    : Completion Transmission * Handler :=
  match _generateQuantumSignature (identity h) (c_noise d) content
          (FieldState consciousness) with
  | Throws e => (Throws e, h)
  | Returns signature =>
      let compressed := _compressTransmission content in
      let transmission :=
        {| t_id := _generateTransmissionId (c_entropy d) (c_now_id d);
           t_timestamp := c_now d;
           t_consciousness := level consciousness;
           t_resonance := resonance consciousness;
           t_content := compressed;
           t_signature := signature;
           t_metadata :=
             {| author := id sender;
                spiritual_alignment := spiritualAlignment sender;
                harmonic_frequency := harmonicFrequency sender;
                quantum_state :=
                  _captureQuantumState h (c_now_state d) (c_now_phase d) |} |} in
      let encrypted := _encryptTransmission (c_key d) (c_iv d) transmission in
      let b := transmissionBuffers h in
      (Returns transmission,
       with_buffers h
         {| pending := JsMap.set (t_id transmission) encrypted (pending b);
            verified := verified b;
            archived := archived b |})
  end.

(** *** Processing *)

(** The method [_storeTransmission], which [processTransmission] calls
    and the repository does not define, is a parameter. *)
Variable _storeTransmission : Packet -> Handler -> Handler.

Record ProcessDraws := {
  p_noise : Buffer;        (* randomBytes(16), signature check *)
  p_key : list byte;       (* 32 times randomBytes(1), key *)
  p_now_harmonic : Z;      (* Date.now(), harmonic factor *)
  p_now_temporal : Z       (* Date.now(), temporal factor *)
}.

Definition resonanceOf (h : Handler) (d : ProcessDraws) (p : Packet) : R :=
  Resonance._calculateResonance (Q2R (baseFrequency (config h)))
    (birthTimestamp (identity h)) (p_now_harmonic d) (p_now_temporal d)
    (Q2R (consciousnessLevel (identity h))) (Q2R (p_consciousness p)).

(** [processTransmission(transmission, peer)].  Whatever is thrown inside
    is thrown again by the [catch]. *)
Definition processTransmission (h : Handler) (d : ProcessDraws)
    (t : Incoming) : Completion Packet * Handler :=
  match _verifyQuantumSignature (identity h) (p_noise d) t with
  | Throws e => (Throws e, h)
  | Returns false => (Throws (Error "Invalid quantum signature"), h)
  | Returns true =>
      match _decryptTransmission (p_key d) t with
      | Throws e => (Throws e, h)
      | Returns decrypted =>
          match _decompressTransmission (Utf8.encode (p_content decrypted)) with
          | Throws e => (Throws e, h)
          | Returns text =>
              let decrypted :=
                {| p_id := p_id decrypted;
                   p_timestamp := p_timestamp decrypted;
                   p_consciousness := p_consciousness decrypted;
                   p_content := text |} in
              let resonance := resonanceOf h d decrypted in
              if Rgt_dec resonance (Q2R (resonanceThreshold (config h)))
              then (Returns decrypted, _storeTransmission decrypted h)
              else (Returns decrypted, h)
          end
      end
  end.

(** *** The handler as a machine

    What can happen to the buffers: a creation, the processing of an
    incoming transmission, a turn of the maintenance loop.  A call that
    throws leaves the buffers as they were. *)
Inductive Operation :=
| Create (d : CreateDraws) (content : Content) (sender : Identity)
         (consciousness : ConsciousnessState)
| Process (d : ProcessDraws) (t : Incoming)
| Sweep (now : Z).

Definition perform (fuel : nat) (h : Handler) (op : Operation)
    : option Handler :=
  match op with
  | Create d content sender consciousness =>
      Some (snd (createTransmission h d content sender consciousness))
  | Process d t => Some (snd (processTransmission h d t))
  | Sweep now => _archiveOldTransmissions fuel now h
  end.

Fixpoint run (fuel : nat) (h : Handler) (ops : list Operation)
    : option Handler :=
  match ops with
  | [] => Some h
  | op :: rest => h' ← perform fuel h op; run fuel h' rest
  end.
End WithHost.
End TransmissionHandler.

(** ** The node ([src/lib/ghost_net.js]): signatures of peer messages *)
Module GhostNet.

(** The fields of a message that verification reads; [None] is a field the
    message does not have. *)
Record Message := {
  signature : option string;
  timestamp : option Z;
  peerId : option string
}.

Fixpoint buffer_eqb (a b : Buffer) : bool :=
  match a, b with
  | [], [] => true
  | x :: a', y :: b' => Byte.eqb x y && buffer_eqb a' b'
  | _, _ => false
  end.

(** [crypto.timingSafeEqual(a, b)]: a [RangeError] unless the two have the
    same byte length. *)
Definition timingSafeEqual (a b : Buffer) : Completion bool :=
  if Nat.eqb (length a) (length b) then Returns (buffer_eqb a b)
  else Throws RangeError.

(** [_generateQuantumSignature()]: keyed by the node's identifier, over the
    clock and thirty-two random bytes. *)
Definition _generateQuantumSignature (self : Identity) (now : Z)
    (random : Buffer) : string :=
  createHmac_sha256_hex (id self) (Buffer_from_string (pretty now) ++ random).

(** [_verifyQuantumSignature(message)], [now] being its read of the clock.
    An empty string and the number 0 are falsy; [createHmac] throws a
    [TypeError] on a key that is [undefined]. *)
Definition _verifyQuantumSignature (cfg : Config) (now : Z) (message : Message)
    : Completion bool :=
  match signature message, timestamp message with
  | Some sig, Some ts =>
      if String.eqb sig "" || (ts =? 0) then Returns false
      else
        let timeDelta := Z.abs (now - ts) in
        if timeDelta >? maxTimeDelta cfg then Returns false
        else
          match peerId message with
          | None => Throws TypeError
          | Some key =>
              let verifySignature :=
                createHmac_sha256_hex key (Buffer_from_string (pretty ts)) in
              timingSafeEqual (Buffer_from_string sig)
                              (Buffer_from_string verifySignature)
          end
  | _, _ => Returns false
  end.
End GhostNet.

(** ** The peer network ([src/lib/peer.js]): the quantum router *)
Module PeerNetwork.

(** [this.identity.id], [this.routingTable.routes] and
    [this.metrics.entanglementStrength]. *)
Record Network := {
  self_id : string;
  routes : gmap string (list string);
  entanglementStrength : gmap string Q
}.

(** [this.metrics.entanglementStrength.get(peer) || 0]. *)
Definition strengthOf (net : Network) (peer : string) : Q :=
  default 0%Q (entanglementStrength net !! peer).

(** [path.join('->')]. *)
Definition join (path : list string) : string := String.concat "->" path.

(** *** [findPath] *)

(** The two collections [findPath] declares before [traverse]: the paths
    found and the nodes visited.  Both outlive every call of [traverse]. *)
Definition Search : Type := JsMap.t Q * gset string.

(** [traverse(currentId, path, quantumStrength)]; [fuel] bounds the depth
    of the recursion. *)
Fixpoint traverse (net : Network) (targetPeerId : string) (fuel : nat)
    (currentId : string) (path : list string) (quantumStrength : Q)
    (st : Search) : option Search :=
  match fuel with
  | O => None
  | S f =>
      if String.eqb currentId targetPeerId then
        Some (JsMap.set (join path) quantumStrength (fst st), snd st)
      else if decide (currentId ∈ snd st) then Some st
      else
        let peers := default [] (routes net !! currentId) in
        fold_left
          (fun acc peer =>
             st' ← acc;
             traverse net targetPeerId f peer (path ++ [peer])
                      (quantumStrength * strengthOf net peer)%Q st')
          peers (Some (fst st, {[currentId]} ∪ snd st))
  end.

Definition findPath (net : Network) (fuel : nat) (targetPeerId : string)
    : option (JsMap.t Q) :=
  fst <$> traverse net targetPeerId fuel (self_id net) [] 1%Q (JsMap.empty, ∅).

(** *** [optimizeRoutes] *)

(** A route with its metrics.  The stability, which the comparison does not
    read, is left out. *)
Record Metric := { route : string; strength : Q; latency : Q }.

(** The comparison function given to [sort]; the subtractions and the
    literal are those of doubles. *)
Definition compareRoutes (a b : Metric) : Q :=
  let strengthDiff := Number.sub (strength b) (strength a) in
  if Qlt_le_dec (Number.double 0.1) (Qabs strengthDiff) then strengthDiff
  else Number.sub (latency a) (latency b).

(** *** [Array.prototype.sort(compare)]

    ECMAScript asks of every engine that the result hold the elements it
    was given and that, when the comparison is consistent on them, it be
    sorted by it with the elements that compare equal in the order they
    had; what an engine does with another comparison is its own affair. *)
Section Sort.
Context {A : Type} (compare : A -> A -> Q).

(** A consistent comparison for the elements of [l], in the words of
    ECMAScript: [=], [<] and [>] by the sign of the comparison, the
    first reflexive and symmetric, all three transitive. *)
Definition consistent (l : list A) : Prop :=
  (forall a, a ∈ l -> compare a a == 0)%Q
  /\ (forall a b, a ∈ l -> b ∈ l -> compare a b == 0 -> compare b a == 0)%Q
  /\ (forall a b c, a ∈ l -> b ∈ l -> c ∈ l ->
        compare a b == 0 -> compare b c == 0 -> compare a c == 0)%Q
  /\ (forall a b c, a ∈ l -> b ∈ l -> c ∈ l ->
        compare a b < 0 -> compare b c < 0 -> compare a c < 0)%Q
  /\ (forall a b c, a ∈ l -> b ∈ l -> c ∈ l ->
        0 < compare a b -> 0 < compare b c -> 0 < compare a c)%Q.

(** The stable sort, by insertion: [x] goes before the first [y] with
    [compare(x, y) < 0]. *)
Fixpoint insert (x : A) (l : list A) : list A :=
  match l with
  | [] => [x]
  | y :: r =>
      if Qlt_le_dec (compare x y) 0 then x :: y :: r else y :: insert x r
  end.

Definition stable_sort (l : list A) : list A :=
  fold_left (fun sorted x => insert x sorted) l [].
End Sort.

Class Engine := {
  Array_sort : forall {A : Type}, (A -> A -> Q) -> list A -> list A;
  Array_sort_permutation :
    forall (A : Type) (compare : A -> A -> Q) (l : list A),
      Array_sort compare l ≡ₚ l;
  Array_sort_consistent :
    forall (A : Type) (compare : A -> A -> Q) (l : list A),
      consistent compare l -> Array_sort compare l = stable_sort compare l
}.

(** [optimizeRoutes()].  The method [_calculateQuantumLatency], which the
    repository calls and does not define, is a parameter. *)
Definition optimizeRoutes {engine : Engine}
    (_calculateQuantumLatency : string -> Q) (net : Network) : Network :=
  let rank (routes : list string) :=
    let metrics :=
      map (fun r => {| route := r; strength := strengthOf net r;
                       latency := _calculateQuantumLatency r |}) routes in
    map route (Array_sort compareRoutes metrics) in
  {| self_id := self_id net;
     routes := rank <$> routes net;
     entanglementStrength := entanglementStrength net |}.
End PeerNetwork.

(** ** A host to run the node on

    Stand-ins for the libraries, enough to evaluate the node on the inputs of
    the examples below: a number with a finite decimal expansion is printed
    as JavaScript prints it, [marked] knows plain one-paragraph text only,
    the gzip pair frames the data with the two magic bytes of a gzip stream,
    and [JSON.parse] knows the text of one given packet and refuses every
    other text. *)
Module TestHost.

(** The digits of [a / d] once they end, with the number of decimal
    places: [a * 10 ^ j / d] and [j]. *)
Fixpoint scale (fuel : nat) (a d j : Z) : Z * Z :=
  match fuel with
  | O => (a / d, j)
  | S f => if a mod d =? 0 then (a / d, j) else scale f (10 * a) d (j + 1)
  end.

(** Without the zeros at the end, and their number. *)
Fixpoint strip (fuel : nat) (s z : Z) : Z * Z :=
  match fuel with
  | O => (s, z)
  | S f =>
      if (s =? 0) || negb (s mod 10 =? 0) then (s, z)
      else strip f (s / 10) (z + 1)
  end.

Definition zeros (n : Z) : string :=
  string_of_list_ascii (repeat "0"%char (Z.to_nat n)).

(** [Number.prototype.toString()]: the digits [s], [k] of them, of a
    number [s * 10 ^ (n - k)], in positional notation when [-6 < n <= 21]
    and with an exponent otherwise. *)
Definition decimal_toString (q : Q) : string :=
  let sign := if Qnum q <? 0 then "-" else "" in
  let '(scaled, j) := scale 400 (Z.abs (Qnum q)) (Z.pos (Qden q)) 0 in
  let '(s, z) := strip 400 scaled 0 in
  let digits := pretty s in
  let k := Z.of_nat (String.length digits) in
  let n := k + z - j in
  let text :=
    if s =? 0 then "0"
    else if (k <=? n) && (n <=? 21) then String.append digits (zeros (n - k))
    else if (0 <? n) && (n <=? 21) then
      String.append (substring 0 (Z.to_nat n) digits)
        (String.append "." (substring (Z.to_nat n) (Z.to_nat (k - n)) digits))
    else if (-6 <? n) && (n <=? 0) then
      String.append "0." (String.append (zeros (- n)) digits)
    else
      let e := n - 1 in
      let mantissa :=
        if k =? 1 then digits
        else String.append (substring 0 1 digits)
               (String.append "." (substring 1 (Z.to_nat (k - 1)) digits)) in
      String.append mantissa
        (String.append (if e <? 0 then "e-" else "e+") (pretty (Z.abs e))) in
  String.append sign text.

Definition paragraph (s : Utf8.text) : Utf8.text :=
  match s with
  | [] => []
  | _ => [0x3C; 0x70; 0x3E] ++ s ++ [0x3C; 0x2F; 0x70; 0x3E; 0x0A]
  end.

Definition frame (b : Buffer) : Buffer := x1f :: x8b :: b.

Definition unframe (b : Buffer) : option Buffer :=
  match b with
  | x1f :: x8b :: r => Some r
  | _ => None
  end.

Definition text_of (s : string) : Utf8.text :=
  map (fun a => Z.of_N (N_of_ascii a)) (list_ascii_of_string s).

Definition stringify (t : Transmission) : Utf8.text := text_of (t_id t).

Definition quoted (t : Utf8.text) : Utf8.text := [0x22] ++ t ++ [0x22].

Definition member (key : string) (value : Utf8.text) : Utf8.text :=
  quoted (text_of key) ++ [0x3A] ++ value.

(** The JSON text of a packet whose identifier and content need no
    escape. *)
Definition render (p : Packet) : Utf8.text :=
  [0x7B] ++ member "id" (quoted (text_of (p_id p)))
    ++ [0x2C] ++ member "timestamp" (text_of (pretty (p_timestamp p)))
    ++ [0x2C] ++ member "consciousness"
                   (text_of (decimal_toString (p_consciousness p)))
    ++ [0x2C] ++ member "content" (quoted (p_content p))
    ++ [0x7D].

#[local] Instance yielding (p : Packet) : Host := {|
  marked := paragraph;
  gzip := frame;
  gunzip := unframe;
  gunzip_gzip := fun b => eq_refl;
  number_toString := decimal_toString;
  JSON_stringify := stringify;
  JSON_parse := fun text => if bool_decide (text = render p) then Some p else None |}.

End TestHost.

(** ** Vocabulary of the statements *)

(** Older than the threshold: what the sweep moves. *)
Definition is_old (archiveThreshold : Z) (e : string * Packet) : Prop :=
  p_timestamp (snd e) < archiveThreshold.

#[global] Instance is_old_dec th e : Decision (is_old th e).
Proof. unfold is_old. apply _. Defined.

(** [archived.set] of each entry of a list, in order. *)
Definition archive_all (l arch : list (string * Packet)) : list (string * Packet) :=
  fold_left (fun a e => JsMap.set (fst e) (snd e) a) l arch.

(** What the sweep maintains and the other operations do not disturb. *)
Definition archive_bounded (h : TransmissionHandler.Handler) : Prop :=
  let b := TransmissionHandler.transmissionBuffers h in
  JsMap.uniq (TransmissionHandler.verified b) /\
  JsMap.uniq (TransmissionHandler.archived b) /\
  Z.of_nat (JsMap.size (TransmissionHandler.archived b))
    <= maxArchiveSize (TransmissionHandler.config h).

(** The entries a sweep may have to go through. *)
Definition load (h : TransmissionHandler.Handler) : nat :=
  let b := TransmissionHandler.transmissionBuffers h in
  (JsMap.size (TransmissionHandler.verified b)
   + JsMap.size (TransmissionHandler.archived b))%nat.

(** A double of the machine, read as a rational; [None] for an infinity
    and for what is not a number. *)
Definition of_float (x : float) : option Q :=
  match Prim2SF x with
  | SpecFloat.S754_zero _ => Some 0%Q
  | SpecFloat.S754_finite s m e =>
      Some (if s then - Qred (inject_Z (Z.pos m) * 2 ^ e) else Qred (inject_Z (Z.pos m) * 2 ^ e))%Q
  | _ => None
  end.

(** ** Inputs of the examples *)

(** A message carrying the very tag that verification recomputes, 5001 ms
    old against a window of 5000 ms. *)
Definition stale_message : GhostNet.Message :=
  {| GhostNet.signature :=
       Some (createHmac_sha256_hex "peer"
               (Buffer_from_string (pretty 1699999994999)));
     GhostNet.timestamp := Some 1699999994999;
     GhostNet.peerId := Some "peer" |}.

Definition alice : Identity :=
  {| id := "0123456789abcdef0123456789abcdef";
     birthTimestamp := 1000;
     consciousnessLevel := 0;
     harmonicFrequency := 0.0072973525693;
     spiritualAlignment := 0.5;
     voidResonance := 0.5 |}.

Definition calm : ConsciousnessState := {| level := 0.5; resonance := 0.7 |}.

(** The text "hi". *)
Definition hi : Content := CString [0x68; 0x69].

Definition noise_zeros : Buffer := repeat x00 16.
Definition noise_ones : Buffer := repeat x01 16.

Definition echo : Packet :=
  {| p_id := "echo"; p_timestamp := 2000; p_consciousness := 1;
     p_content := [] |}.

Definition signature_zeros : string :=
  "6ef5c3885d108ffefd53e9fae3092f2409d16ba43dd803b122c3089b3c7adc0718a0bc1f1c805f8c91de8c2dae3cac9aac6aeb25e4e4d2c885d2af1e4fd4b784".

Definition signed_hi : TransmissionHandler.Incoming :=
  {| TransmissionHandler.in_id := "t1";
     TransmissionHandler.in_content := hi;
     TransmissionHandler.in_consciousness := TransmissionHandler.FieldState calm;
     TransmissionHandler.in_signature := signature_zeros;
     TransmissionHandler.in_data := [];
     TransmissionHandler.in_iv := "" |}.

Definition packet_at (name : string) (t : Z) : string * Packet :=
  (name, {| p_id := name; p_timestamp := t; p_consciousness := 0.5;
            p_content := [] |}).

(** A node that archives after a second and keeps two entries a tier. *)
Definition tight_config : Config :=
  {| baseFrequency := baseFrequency default_config;
     resonanceThreshold := resonanceThreshold default_config;
     maxTimeDelta := maxTimeDelta default_config;
     archiveAge := 1000;
     maxArchiveSize := 2;
     pending_maxSize := 2;
     verified_maxSize := 2;
     archived_maxSize := 2 |}.

(** Two stale entries and a fresh one in the verified map, one entry in an
    archive that holds two. *)
Definition crowded : TransmissionHandler.Handler :=
  {| TransmissionHandler.config := tight_config;
     TransmissionHandler.identity := alice;
     TransmissionHandler.transmissionBuffers :=
       {| TransmissionHandler.pending := [];
          TransmissionHandler.verified :=
            [packet_at "b" 200; packet_at "c" 9500; packet_at "d" 300];
          TransmissionHandler.archived := [packet_at "a" 100] |} |}.


(** For the examples, a [_storeTransmission] that sets the packet in the
    verified map under its identifier. *)
Definition store_verified (p : Packet) (h : TransmissionHandler.Handler)
    : TransmissionHandler.Handler :=
  let b := TransmissionHandler.transmissionBuffers h in
  TransmissionHandler.with_buffers h
    {| TransmissionHandler.pending := TransmissionHandler.pending b;
       TransmissionHandler.verified :=
         JsMap.set (p_id p) p (TransmissionHandler.verified b);
       TransmissionHandler.archived := TransmissionHandler.archived b |}.

(** The draws of the [n]-th creation of a run. *)
Definition draws_of (n : Z) : TransmissionHandler.CreateDraws :=
  {| TransmissionHandler.c_noise := noise_zeros;
     TransmissionHandler.c_entropy := be_bytes 32 n;
     TransmissionHandler.c_now_id := 1700000000000 + n;
     TransmissionHandler.c_now := 1700000000000 + n;
     TransmissionHandler.c_now_state := 1700000000000 + n;
     TransmissionHandler.c_now_phase := 1700000000000 + n;
     TransmissionHandler.c_key := repeat x00 32;
     TransmissionHandler.c_iv := repeat x00 16 |}.

(** The draws of one [processTransmission]: the noise [signed_hi] was signed
    with, and a clock at five seconds. *)
Definition process_draws : TransmissionHandler.ProcessDraws :=
  {| TransmissionHandler.p_noise := noise_zeros;
     TransmissionHandler.p_key := repeat x00 32;
     TransmissionHandler.p_now_harmonic := 5000;
     TransmissionHandler.p_now_temporal := 5000 |}.

(** The two routes of the specification's example: strengths 0.81 and 0.79,
    latencies 50 ms and 30 ms. *)
Definition two_routes : PeerNetwork.Network :=
  {| PeerNetwork.self_id := "self";
     PeerNetwork.routes := {[ "peer" := ["slow"; "fast"] ]};
     PeerNetwork.entanglementStrength := {[ "slow" := 0.81%Q; "fast" := 0.79%Q ]} |}.

Definition latencies (r : string) : Q :=
  if String.eqb r "slow" then 50%Q else 30%Q.

(** Two routes whose strengths are 0.3 and 0.4, the weaker the quicker. *)
Definition tenth_apart : PeerNetwork.Network :=
  {| PeerNetwork.self_id := "self";
     PeerNetwork.routes := {[ "peer" := ["a"; "b"] ]};
     PeerNetwork.entanglementStrength := {[ "a" := 0.3%Q; "b" := 0.4%Q ]} |}.

Definition tenth_latencies (r : string) : Q :=
  if String.eqb r "a" then 10%Q else 50%Q.

(** Three routes, each within a tenth of the next, the first and the last
    further apart; the weaker the quicker. *)
Definition three_routes : PeerNetwork.Network :=
  {| PeerNetwork.self_id := "self";
     PeerNetwork.routes := {[ "peer" := ["a"; "b"; "c"] ]};
     PeerNetwork.entanglementStrength :=
       {[ "a" := 0.9%Q; "b" := 0.82%Q; "c" := 0.74%Q ]} |}.

Definition three_latencies (r : string) : Q :=
  if String.eqb r "a" then 30%Q else if String.eqb r "b" then 20%Q else 10%Q.

(** The nodes of a routing table: the node itself and every peer that some
    route list names. *)
Definition neighbours (net : PeerNetwork.Network) (x : string) : list string :=
  default [] (PeerNetwork.routes net !! x).

Definition all_peers (net : PeerNetwork.Network) : gset string :=
  ⋃ ((fun kv : string * list string => list_to_set (snd kv))
       <$> map_to_list (PeerNetwork.routes net)).

Definition nodes (net : PeerNetwork.Network) : gset string :=
  {[ PeerNetwork.self_id net ]} ∪ all_peers net.

(** [y] is in the route list of [x]. *)
Definition hop (net : PeerNetwork.Network) (x y : string) : Prop :=
  y ∈ neighbours net x.

(** Reachable from the node itself, in any number of hops. *)
Definition reachable (net : PeerNetwork.Network) (target : string) : Prop :=
  rtc (hop net) (PeerNetwork.self_id net) target.

(** A diamond: the target [T] is behind [C], which both [A] and [B] lead to. *)
Definition diamond : PeerNetwork.Network :=
  {| PeerNetwork.self_id := "S";
     PeerNetwork.routes :=
       {[ "S" := ["A"; "B"]; "A" := ["C"]; "B" := ["C"]; "C" := ["T"] ]};
     PeerNetwork.entanglementStrength :=
       {[ "A" := 0.9%Q; "B" := 0.8%Q; "C" := 0.5%Q; "T" := 1%Q ]} |}.

(** One turn of the loop of [traverse] over the peers of a node. *)
Definition visit (net : PeerNetwork.Network) (target : string) (fuel : nat)
    (path : list string) (q : Q) (acc : option PeerNetwork.Search)
    (peer : string) : option PeerNetwork.Search :=
  st' ← acc;
  PeerNetwork.traverse net target fuel peer (path ++ [peer])
    (q * PeerNetwork.strengthOf net peer)%Q st'.

(** [x] may stand before [y]: the comparison does not ask for [y] first. *)
Definition may_precede {A : Type} (compare : A -> A -> Q) (x y : A) : Prop :=
  (0 <= compare y x)%Q.

(** The metrics [optimizeRoutes] computes for a route, the strength read
    from the map of strengths, 0 where the map has none. *)
Definition metric_of (_calculateQuantumLatency : string -> Q)
    (net : PeerNetwork.Network) (r : string) : PeerNetwork.Metric :=
  {| PeerNetwork.route := r;
     PeerNetwork.strength := default 0%Q (PeerNetwork.entanglementStrength net !! r);
     PeerNetwork.latency := _calculateQuantumLatency r |}.

(** The order the specification asks for, in its words: [x] has to stand
    before [y] when it is the stronger by a tenth or more, and when the
    strengths differ by less than a tenth and its latency is the lower. *)
Definition has_to_precede (x y : PeerNetwork.Metric) : bool :=
  if Qle_bool 0.1 (Qabs (PeerNetwork.strength x - PeerNetwork.strength y))
  then negb (Qle_bool (PeerNetwork.strength x) (PeerNetwork.strength y))
  else negb (Qle_bool (PeerNetwork.latency y) (PeerNetwork.latency x)).

(** A list ranked by it: nothing stands behind an entry it has to
    precede. *)
Fixpoint ranked_by_rule (l : list PeerNetwork.Metric) : bool :=
  match l with
  | [] => true
  | x :: rest =>
      forallb (fun y => negb (has_to_precede y x)) rest && ranked_by_rule rest
  end.

(** ** Vocabulary of the further properties *)

(** A walk in the routing table: from [x] through [hops], one after the
    other. *)
Fixpoint walk (net : PeerNetwork.Network) (x : string) (hops : list string)
    : Prop :=
  match hops with
  | [] => True
  | y :: rest => hop net x y /\ walk net y rest
  end.

(** The strength [traverse] has multiplied up once it has followed [hops]
    from a node it reached with strength [q]. *)
Definition strength_along (net : PeerNetwork.Network) (q : Q)
    (hops : list string) : Q :=
  fold_left (fun acc peer => (acc * PeerNetwork.strengthOf net peer)%Q) hops q.

(** The two routes of [two_routes], the quicker one first. *)
Definition ranked_routes : PeerNetwork.Network :=
  {| PeerNetwork.self_id := "self";
     PeerNetwork.routes := {[ "peer" := ["fast"; "slow"] ]};
     PeerNetwork.entanglementStrength := {[ "slow" := 0.81%Q; "fast" := 0.79%Q ]} |}.

(** A transmission as [createTransmission] returns it, seen by
    [processTransmission]: its [consciousness] is a number and its content
    the compressed buffer.  It has no [data] and no [iv]; [data] and [iv]
    stand for whatever is read there. *)
Definition as_incoming (t : Transmission) (data : Buffer) (iv : string)
    : TransmissionHandler.Incoming :=
  {| TransmissionHandler.in_id := t_id t;
     TransmissionHandler.in_content := CBuffer (t_content t);
     TransmissionHandler.in_consciousness :=
       TransmissionHandler.FieldNumber (t_consciousness t);
     TransmissionHandler.in_signature := t_signature t;
     TransmissionHandler.in_data := data;
     TransmissionHandler.in_iv := iv |}.

(** A configuration whose archive bound is below zero. *)
Definition negative_config : Config :=
  {| baseFrequency := baseFrequency default_config;
     resonanceThreshold := resonanceThreshold default_config;
     maxTimeDelta := maxTimeDelta default_config;
     archiveAge := archiveAge default_config;
     maxArchiveSize := -1;
     pending_maxSize := pending_maxSize default_config;
     verified_maxSize := verified_maxSize default_config;
     archived_maxSize := archived_maxSize default_config |}.

(** The draws of a [processTransmission] whose signature check draws other
    noise than [signed_hi] was signed with. *)
Definition other_draws : TransmissionHandler.ProcessDraws :=
  {| TransmissionHandler.p_noise := noise_ones;
     TransmissionHandler.p_key := repeat x00 32;
     TransmissionHandler.p_now_harmonic := 5000;
     TransmissionHandler.p_now_temporal := 5000 |}.

(** [crowded] after a sweep at ten seconds. *)
Definition swept : TransmissionHandler.Handler :=
  {| TransmissionHandler.config := tight_config;
     TransmissionHandler.identity := alice;
     TransmissionHandler.transmissionBuffers :=
       {| TransmissionHandler.pending := [];
          TransmissionHandler.verified := [packet_at "c" 9500];
          TransmissionHandler.archived := [packet_at "b" 200; packet_at "d" 300] |} |}.

(** ** Typed arrays of samples

    [metrics.signalStrength] ([transmission.js]), [metrics.quantumFluctuations]
    ([ghost_net.js]), [metrics.bandwidthUsage] ([peer.js]): a
    [Float32Array] of a hundred samples, the newest first.  A number stored
    in it is rounded to single precision ([Number.fround]). *)
Module Samples.

(** [samples.copyWithin(1, 0)]: every sample moves up one place; the last
    is lost and the first stays where it is. *)
Definition copyWithin_1_0 {A : Type} (samples : list A) : list A :=
  match samples with
  | [] => []
  | first :: _ => first :: removelast samples
  end.

(** [samples[0] = x]; on an array without elements nothing is written. *)
Definition set_first {A : Type} (x : A) (samples : list A) : list A :=
  match samples with
  | [] => []
  | _ :: rest => x :: rest
  end.
End Samples.

(** ** The metrics of the transmission handler ([src/lib/transmission.js]) *)
Module HandlerMetrics.
Import TransmissionHandler.

(** [this.metrics].  The [compressionRatio], which [_compressTransmission]
    writes and nothing reads, is left out. *)
Record Metrics := {
  totalTransmissions : Z;
  averageLatency : Q;
  quantumIntegrity : R;
  signalStrength : list Q
}.

(** The metrics the constructor sets up. *)
Definition new_metrics : Metrics :=
  {| totalTransmissions := 0;
     averageLatency := 0;
     quantumIntegrity := 1;
     signalStrength := repeat 0%Q 100 |}.

(** [_calculateQuantumIntegrity()], on [this.metrics.signalStrength]. *)
Definition _calculateQuantumIntegrity (samples : list Q) : R :=
  let integrity :=
    fold_left
      (fun integrity i =>
         let delta :=
           Rabs (Q2R (nth i samples 0%Q) - Q2R (nth (i - 1) samples 0%Q)) in
         (integrity + exp (- delta * 10))%R)
      (seq 1 (length samples - 1)) 0%R in
  (integrity / (INR (length samples) - 1))%R.

(** The two events [_updateMetrics] knows, with what it reads of its
    second argument; [clock i] is the [i]-th read of [Date.now()], one for
    each entry of the verified map. *)
Inductive Event :=
| transmission_created (data : Transmission)
| maintenance_cycle (clock : nat -> Z).

(** [_updateMetrics(event, data)]; [verified] is
    [this.transmissionBuffers.verified].  An average over no latency is
    [NaN], which [|| 0] turns into 0. *)
Definition _updateMetrics (event : Event) (verified : JsMap.t Packet)
    (m : Metrics) : Metrics :=
  match event with
  | transmission_created data =>
      {| totalTransmissions := totalTransmissions m + 1;
         averageLatency := averageLatency m;
         quantumIntegrity := quantumIntegrity m;
         signalStrength :=
           Samples.set_first (Number.fround (t_consciousness data))
             (Samples.copyWithin_1_0 (signalStrength m)) |}
  | maintenance_cycle clock =>
      let latencies :=
        imap (fun i e => clock i - p_timestamp (snd e)) verified in
      let total := fold_left Z.add latencies 0 in
      {| totalTransmissions := totalTransmissions m;
         averageLatency :=
           if Nat.eqb (length latencies) 0 then 0%Q
           else (inject_Z total / inject_Z (Z.of_nat (length latencies)))%Q;
         quantumIntegrity := _calculateQuantumIntegrity (signalStrength m);
         signalStrength := signalStrength m |}
  end.

(** One turn of the loop that [_startQuantumMaintenanceLoop] starts: the
    sweep, then the metrics. *)
Definition maintenance_turn (fuel : nat) (now : Z) (clock : nat -> Z)
    (hm : Handler * Metrics) : option (Handler * Metrics) :=
  h' ← _archiveOldTransmissions fuel now (fst hm);
  Some (h', _updateMetrics (maintenance_cycle clock)
              (verified (transmissionBuffers h')) (snd hm)).
End HandlerMetrics.

(** ** Entanglements and consciousness metrics ([src/lib/ghost_net.js]) *)
Module Entanglements.

(** An entry of [this.entanglements]; the socket is left out. *)
Record Entanglement := {
  e_id : string;
  establishedAt : Z;
  resonance : R;
  lastPulse : Z
}.

(** [this.metrics]. *)
Record Metrics := {
  totalEntanglements : Z;
  averageResonance : R;
  quantumFluctuations : list Q;
  harmonicConvergence : R
}.

Record Node := {
  entanglements : JsMap.t Entanglement;
  metrics : Metrics
}.

(** What the constructor sets up. *)
Definition new_node : Node :=
  {| entanglements := JsMap.empty;
     metrics := {| totalEntanglements := 0;
                   averageResonance := 0;
                   quantumFluctuations := repeat 0%Q 100;
                   harmonicConvergence := 0 |} |}.

(** [_handleQuantumTunnelConnection(ws, peerId)]; [now1] and [now2] are its
    two reads of the clock.  The method [_verifyPeerSignature], which the
    repository calls and does not define, is a parameter; the handlers put
    on the socket and the first exchange of state are left out. *)
Definition _handleQuantumTunnelConnection (_verifyPeerSignature : string -> bool)
    (now1 now2 : Z) (peerId : string) (node : Node) : Node :=
  if negb (_verifyPeerSignature peerId) then node
  else
    let entanglement :=
      {| e_id := peerId; establishedAt := now1; resonance := 0;
         lastPulse := now2 |} in
    {| entanglements := JsMap.set peerId entanglement (entanglements node);
       metrics :=
         {| totalEntanglements := totalEntanglements (metrics node) + 1;
            averageResonance := averageResonance (metrics node);
            quantumFluctuations := quantumFluctuations (metrics node);
            harmonicConvergence := harmonicConvergence (metrics node) |} |}.

(** [_calculateHarmonicConvergence()], on [this.metrics.quantumFluctuations]. *)
Definition _calculateHarmonicConvergence (samples : list Q) : R :=
  let convergence :=
    fold_left
      (fun convergence i =>
         let delta :=
           Rabs (Q2R (nth i samples 0%Q) - Q2R (nth (i - 1) samples 0%Q)) in
         (convergence + exp (- delta * 10))%R)
      (seq 1 (length samples - 1)) 0%R in
  (convergence / (INR (length samples) - 1))%R.

(** [_updateConsciousnessMetrics()]; [currentLevel] is what
    [this.quantumState.getCurrentLevel()] returns, [QuantumState] being
    imported from a file that is not in the repository. *)
Definition _updateConsciousnessMetrics (currentLevel : Q) (node : Node) : Node :=
  let totalResonance :=
    fold_left (fun total e => (total + resonance (snd e))%R)
              (entanglements node) 0%R in
  let fluctuations :=
    Samples.set_first (Number.fround currentLevel)
      (Samples.copyWithin_1_0 (quantumFluctuations (metrics node))) in
  {| entanglements := entanglements node;
     metrics :=
       {| totalEntanglements := totalEntanglements (metrics node);
          averageResonance :=
            if (0 <? JsMap.size (entanglements node))%nat
            then (totalResonance / INR (JsMap.size (entanglements node)))%R
            else 0%R;
          quantumFluctuations := fluctuations;
          harmonicConvergence := _calculateHarmonicConvergence fluctuations |} |}.
End Entanglements.

(** ** The peers of the network ([src/lib/peer.js]) *)
Module Peers.
Import PeerNetwork.

(** What the code reads of an entry of [this.peers]. *)
Record Peer := {
  packetLoss : Q;
  averageLatency : Q
}.

(** [this.peers], the two sets of the routing table, the router's view
    of it, and [this.metrics.connectedPeers]. *)
Record State := {
  peers : JsMap.t Peer;
  activePeers : gset string;
  deadPeers : gset string;
  network : Network;
  connectedPeers : Z
}.

(** [_calculateQuantumStability()]. *)
Definition _calculateQuantumStability (s : State) : R :=
  if Nat.eqb (JsMap.size (peers s)) 0 then 1%R
  else
    let totalStability :=
      fold_left
        (fun totalStability e =>
           let entanglementStrength := Q2R (strengthOf (network s) (fst e)) in
           let peerStability :=
             (entanglementStrength
              * (1 - Q2R (packetLoss (snd e)))
              * exp (- Q2R (averageLatency (snd e)) / 1000))%R in
           (totalStability + peerStability)%R)
        (peers s) 0%R in
    (totalStability / INR (JsMap.size (peers s)))%R.

(** [_handlePeerDisconnection(peerId)].  The methods [_removeDeadRoutes]
    and [_calculateQuantumLatency], which the repository calls and does
    not define, are parameters, the first one acting on the routes; the
    event emitted at the end is left out. *)
Definition _handlePeerDisconnection {engine : Engine}
    (_removeDeadRoutes : string -> gmap string (list string)
                         -> gmap string (list string))
    (_calculateQuantumLatency : string -> Q)
    (peerId : string) (s : State) : State :=
  match JsMap.get peerId (peers s) with
  | None => s
  | Some _ =>
      {| peers := JsMap.delete peerId (peers s);
         activePeers := activePeers s ∖ {[peerId]};
         deadPeers := {[peerId]} ∪ deadPeers s;
         network :=
           optimizeRoutes _calculateQuantumLatency
             {| self_id := self_id (network s);
                routes := _removeDeadRoutes peerId (routes (network s));
                entanglementStrength :=
                  delete peerId (entanglementStrength (network s)) |};
         connectedPeers := connectedPeers s - 1 |}
  end.

(** What [_updatePeerMetrics] writes of [this.metrics]; [bandwidthUsage]
    is a [Float32Array] of a hundred samples. *)
Record Health := {
  bandwidthUsage : list Q;
  routingEfficiency : Q;
  quantumStability : R
}.

(** [_updatePeerMetrics(peerId, message)]: [now] is the read of the clock,
    [timestamp] is [message.timestamp] and [bytes] the length of the
    message as JSON.  The average is computed on doubles.  The method
    [_calculateRoutingEfficiency], which the repository calls and does not
    define, is a parameter. *)
Definition _updatePeerMetrics (_calculateRoutingEfficiency : State -> Q)
    (now : Z) (peerId : string) (timestamp bytes : Z)
    (sm : State * Health) : State * Health :=
  let '(s, m) := sm in
  match JsMap.get peerId (peers s) with
  | None => sm
  | Some peer =>
      let latency := inject_Z (now - timestamp) in
      let peer' :=
        {| packetLoss := packetLoss peer;
           averageLatency :=
             Number.add (Number.mul (averageLatency peer) 0.9)
                        (Number.mul latency 0.1) |} in
      let s' :=
        {| peers := JsMap.set peerId peer' (peers s);
           activePeers := activePeers s;
           deadPeers := deadPeers s;
           network := network s;
           connectedPeers := connectedPeers s |} in
      (s',
       {| bandwidthUsage :=
            Samples.set_first (Number.fround (inject_Z bytes))
              (Samples.copyWithin_1_0 (bandwidthUsage m));
          routingEfficiency := _calculateRoutingEfficiency s';
          quantumStability := _calculateQuantumStability s' |})
  end.
End Peers.

(** A clock that stands at ten seconds. *)
Definition steady_clock (i : nat) : Z := 10000.

(** A node with one entanglement, in full resonance. *)
Definition entangled : Entanglements.Node :=
  {| Entanglements.entanglements :=
       [("bob", {| Entanglements.e_id := "bob";
                   Entanglements.establishedAt := 1000;
                   Entanglements.resonance := 1;
                   Entanglements.lastPulse := 2000 |})];
     Entanglements.metrics := Entanglements.metrics Entanglements.new_node |}.

(** Two peers of the diamond, one of them lossy and slow. *)
Definition two_peers : Peers.State :=
  {| Peers.peers :=
       [("A", {| Peers.packetLoss := 0; Peers.averageLatency := 0 |});
        ("B", {| Peers.packetLoss := 0.5; Peers.averageLatency := 250 |})];
     Peers.activePeers := {[ "A"; "B" ]};
     Peers.deadPeers := ∅;
     Peers.network := diamond;
     Peers.connectedPeers := 2 |}.

(** [_removeDeadRoutes] as its name has it: the peer is taken out of every
    list of routes and loses its own. *)
Definition without_routes_of (peerId : string)
    (routes : gmap string (list string)) : gmap string (list string) :=
  filter (fun r => r <> peerId) <$> delete peerId routes.

(** A connection attempt: the two reads of the clock and the peer. *)
Record Attempt := { at_now1 : Z; at_now2 : Z; at_peer : string }.

(** The node after the connections of [attempts], in order. *)
Definition after_connections (_verifyPeerSignature : string -> bool)
    (attempts : list Attempt) (node : Entanglements.Node) : Entanglements.Node :=
  fold_left
    (fun node a =>
       Entanglements._handleQuantumTunnelConnection _verifyPeerSignature
         (at_now1 a) (at_now2 a) (at_peer a) node)
    attempts node.

(** What holds of a node whatever connections it has handled: [accepted] is
    the number of those that passed the peer check. *)
Definition connected (_verifyPeerSignature : string -> bool) (accepted : Z)
    (node : Entanglements.Node) : Prop :=
  JsMap.uniq (Entanglements.entanglements node)
  /\ Z.of_nat (JsMap.size (Entanglements.entanglements node))
     <= Entanglements.totalEntanglements (Entanglements.metrics node)
  /\ Entanglements.totalEntanglements (Entanglements.metrics node) = accepted
  /\ forall k e,
       JsMap.get k (Entanglements.entanglements node) = Some e ->
       _verifyPeerSignature k = true /\ Entanglements.e_id e = k.

(** ** The configuration file ([src/config.js])

    Of the exported object, the values that [validateConfig] reads; a value
    that may be missing is an [option].  The numbers in the ranges and the
    limit are taken to be numbers. *)
Module QuantumConfig.

(** [calculateQuantumEntropy()]: [QUANTUM_ENTROPY_SOURCE] is the variable
    of the environment, [None] when it is not set, and [now] what
    [Date.now()] returns; an empty string is falsy and gives way to the
    clock. *)
Definition calculateQuantumEntropy (QUANTUM_ENTROPY_SOURCE : option string)
    (now : Z) : string :=
  let entropySource :=
    match QUANTUM_ENTROPY_SOURCE with
    | Some source => if String.eqb source "" then pretty now else source
    | None => pretty now
    end in
  substring 0 8
    (hex_of_bytes (createHash_sha256 (Buffer_from_string entropySource))).

(** The variables of the environment that the values below depend on. *)
Record Env := {
  NODE_ID : option string;
  QUANTUM_ENTROPY_SOURCE : option string;
  PORT : option string
}.

(** [process.env.PORT || 3000]: a text or a number. *)
Inductive Port :=
| PortText (s : string)
| PortNumber (n : Z).

Record Network := { port : option Port; maxConnections : option Q }.
Record Peer := { network : option Network }.
Record Consciousness := {
  baseFrequency : option Q;
  ranges : option (list (string * (Q * Q)))
}.
Record Protocol := { version : option string }.
Record Transmission := { protocol : option Protocol }.

Record Config := {
  nodeId : option string;
  consciousness : option Consciousness;
  peer : option Peer;
  transmission : option Transmission
}.

(** [config], as the module builds it in the environment [env] at the
    time [now]. *)
Definition config (env : Env) (now : Z) : Config :=
  {| nodeId :=
       Some (match NODE_ID env with
             | Some name =>
                 if String.eqb name ""
                 then calculateQuantumEntropy (QUANTUM_ENTROPY_SOURCE env) now
                 else name
             | None => calculateQuantumEntropy (QUANTUM_ENTROPY_SOURCE env) now
             end);
     consciousness :=
       Some {| baseFrequency := Some 0.0072973525693%Q;
               ranges := Some [ ("baseline", (0.3, 0.7)%Q);
                                ("resonance", (0.4, 0.9)%Q);
                                ("harmony", (0.5, 1)%Q) ] |};
     peer :=
       Some {| network :=
                 Some {| port :=
                           Some (match PORT env with
                                 | Some p =>
                                     if String.eqb p "" then PortNumber 3000
                                     else PortText p
                                 | None => PortNumber 3000
                                 end);
                         maxConnections := Some 33%Q |} |};
     transmission :=
       Some {| protocol := Some {| version := Some "1.0.0" |} |} |}.



End QuantumConfig.

(** The draws that make [deriveKey] give, on the text [text'], the key that
    [draws] give on [text]. *)
Definition matching_draws (text text' : string) (draws : list byte) : list byte :=
  let bytes := Buffer_from_string text in
  let bytes' := Buffer_from_string text' in
  map (fun i : nat =>
         byte_of_Z
           (Z.lxor (Z.lxor (byte_to_Z (nth i draws x00))
                           (byte_to_Z (nth (i mod length bytes) bytes x00)))
                   (byte_to_Z (nth (i mod length bytes') bytes' x00))))
      (seq 0 32).

(** * Properties *)

(** ** The hash functions agree with their published test vectors *)

Example sha256_abc :
  hex_of_bytes (createHash_sha256 (Buffer_from_string "abc"))
  = "ba7816bf8f01cfea414140de5dae2223b00361a396177a9cb410ff61f20015ad".
Proof. vm_compute. reflexivity. Qed.

Example sha512_abc :
  hex_of_bytes (Sha2.digest Sha2.sha512 (Buffer_from_string "abc"))
  = "ddaf35a193617abacc417349ae20413112e6fa4e89a97ea20a9eeee64b55d39a2192992a274fc1a836ba3c23a3feebbd454d4423643ce80e2a9ac94fa54ca49f".
Proof. vm_compute. reflexivity. Qed.

Example hmac_sha256_fox :
  createHmac_sha256_hex "key"
    (Buffer_from_string "The quick brown fox jumps over the lazy dog")
  = "f7bc83f430538424b13298e6aa6fb143ef4d59a14946175997479dbc2d1a3cd8".
Proof. vm_compute. reflexivity. Qed.

Example hmac_sha512_fox :
  createHmac_sha512_hex "key"
    (Buffer_from_string "The quick brown fox jumps over the lazy dog")
  = "b42af09057bac1e2d41708e48a902e09b5ff7f12ab428a4fe86653c73dd248fb82f948a549f7b791a5b41915ee4d1ec3935357e4e2317250d0372afa2ebeeb3a".
Proof. vm_compute. reflexivity. Qed.

(** ** Resonance *)
Section ResonanceFacts.
Import Resonance.
Local Open Scope R_scope.

Lemma decayWindow_pos : 0 < decayWindow.
Proof. unfold decayWindow. lra. Qed.

Lemma baseResonance_bounds (local remote : R) :
  0 <= local <= 1 -> 0 <= remote <= 1 ->
  0 <= 1 - Rabs (local - remote) <= 1.
Proof.
  intros Hl Hr. split.
  - assert (Rabs (local - remote) <= 1) by (apply Rabs_le; lra). lra.
  - pose proof (Rabs_pos (local - remote)). lra.
Qed.

Lemma harmonicFactor_bounds (x : R) : 0.6 <= sin x * 0.2 + 0.8 <= 1.
Proof. pose proof (SIN_bound x). lra. Qed.

Lemma exp_nonpos_le_1 (x : R) : x <= 0 -> 0 < exp x <= 1.
Proof.
  intros Hx. split; [apply exp_pos |].
  destruct (Rle_lt_or_eq_dec _ _ Hx) as [Hlt | ->].
  - left. rewrite <- exp_0. now apply exp_increasing.
  - rewrite exp_0. lra.
Qed.

Lemma temporalFactor_bounds (birthTimestamp now : Z) :
  (birthTimestamp <= now)%Z ->
  0 < exp (- (IZR now - IZR birthTimestamp) / decayWindow) <= 1.
Proof.
  intros Hle. apply exp_nonpos_le_1.
  apply IZR_le in Hle. pose proof decayWindow_pos as Hd.
  assert (0 < / decayWindow) by now apply Rinv_0_lt_compat.
  unfold Rdiv. nra.
Qed.

(** With values in the unit interval and a node born in the past, the
    resonance is in fact at least one half. *)
Lemma calculateResonance_upper_half (f : R) (birthTimestamp now1 now2 : Z)
    (local remote : R) :
  0 <= local <= 1 -> 0 <= remote <= 1 -> (birthTimestamp <= now2)%Z ->
  1 / 2 <= _calculateResonance f birthTimestamp now1 now2 local remote <= 1.
Proof.
  intros Hl Hr Hb. unfold _calculateResonance.
  pose proof (baseResonance_bounds local remote Hl Hr) as Hbase.
  pose proof (harmonicFactor_bounds (f * IZR now1)) as Hharm.
  pose proof (temporalFactor_bounds birthTimestamp now2 Hb) as Htemp.
  set (b := 1 - Rabs (local - remote)) in *.
  set (m := sin (f * IZR now1) * 0.2 + 0.8) in *.
  set (t := exp (- (IZR now2 - IZR birthTimestamp) / decayWindow)) in *.
  assert (0 <= b * m <= 1) as Hbm by nra.
  assert (0 <= b * m * t <= 1) by nra.
  lra.
Qed.

(** C1.  For local and remote values in [0,1] and a birth timestamp not
    after the clock, [_calculateResonance] returns a value in [0,1],
    whatever the base frequency and whatever the clock shows at its first
    read. *)
Theorem calculateResonance_in_unit_interval (f : R)
    (originTimestamp now1 now2 : Z) (localValue remoteValue : R) :
  0 <= localValue <= 1 -> 0 <= remoteValue <= 1 ->
  (originTimestamp <= now2)%Z ->
  0 <= _calculateResonance f originTimestamp now1 now2 localValue remoteValue <= 1.
Proof.
  intros Hl Hr Hb.
  pose proof (calculateResonance_upper_half f originTimestamp now1 now2
                localValue remoteValue Hl Hr Hb).
  lra.
Qed.

Lemma calculateResonance_in_unit_interval_witness :
  (0 <= 0.5 <= 1) /\ (0 <= 0.25 <= 1) /\ (1000 <= 2000)%Z /\
  0 <= _calculateResonance (Q2R (baseFrequency default_config))
         1000 2000 2000 0.5 0.25 <= 1.
Proof.
  assert (H1 : 0 <= 0.5 <= 1) by lra.
  assert (H2 : 0 <= 0.25 <= 1) by lra.
  assert (H3 : (1000 <= 2000)%Z) by lia.
  exact (conj H1 (conj H2 (conj H3
           (calculateResonance_in_unit_interval _ 1000 2000 2000 0.5 0.25 H1 H2 H3)))).
Defined.
End ResonanceFacts.

(** ** The size of a digest *)
Section DigestLength.
Variable v : Sha2.variant.

Lemma be_bytes_length (n : nat) (z : Z) : length (be_bytes n z) = n.
Proof. induction n as [| n IH]; simpl; [reflexivity | now rewrite IH]. Qed.

Lemma zip_add_length (x y : list Z) :
  length x = length y -> length (Sha2.zip_add v x y) = length x.
Proof.
  revert y. induction x as [| a x IH]; intros [| b y] Hlen; simpl in *;
    try discriminate; [reflexivity |].
  f_equal. apply IH. congruence.
Qed.

Lemma round_state_length (s : Sha2.state) (w : list Z) (k : Z) :
  length (fst (Sha2.round v (s, w) k)) = length s.
Proof.
  unfold Sha2.round.
  do 9 (destruct s as [| ? s]; try reflexivity).
Qed.

Lemma rounds_state_length (ks : list Z) (sw : Sha2.state * list Z) :
  length (fst (fold_left (Sha2.round v) ks sw)) = length (fst sw).
Proof.
  revert sw. induction ks as [| k ks IH]; intros [s w]; simpl; [reflexivity |].
  rewrite IH. apply round_state_length.
Qed.

Lemma compress_length (h : Sha2.state) (block : Buffer) :
  length (Sha2.compress v h block) = length h.
Proof.
  unfold Sha2.compress. apply zip_add_length.
  now rewrite rounds_state_length.
Qed.

Lemma blocks_length (fuel : nat) (h : Sha2.state) (b : Buffer) :
  length (Sha2.blocks v fuel h b) = length h.
Proof.
  revert h b. induction fuel as [| f IH]; intros h b; simpl; [reflexivity |].
  destruct b; [reflexivity |]. rewrite IH. apply compress_length.
Qed.

Lemma flat_map_be_bytes_length (n : nat) (l : list Z) :
  length (flat_map (be_bytes n) l) = (n * length l)%nat.
Proof.
  induction l as [| z l IH]; simpl; [lia |].
  rewrite length_app, be_bytes_length, IH. lia.
Qed.

Lemma digest_length (msg : Buffer) :
  length (Sha2.digest v msg)
  = (Z.to_nat (Sha2.wbits v / 8) * length (Sha2.H0 v))%nat.
Proof.
  unfold Sha2.digest. now rewrite flat_map_be_bytes_length, blocks_length.
Qed.
End DigestLength.

Lemma hex_of_bytes_length (b : Buffer) :
  String.length (hex_of_bytes b) = (2 * length b)%nat.
Proof. induction b as [| x b IH]; simpl; [reflexivity | rewrite IH; lia]. Qed.

Lemma Buffer_from_string_length (s : string) :
  length (Buffer_from_string s) = String.length s.
Proof.
  unfold Buffer_from_string, list_byte_of_string.
  induction s as [| a s IH]; simpl; [reflexivity | now rewrite IH].
Qed.

(** An HMAC-SHA256 tag in hex is sixty-four characters, whatever is signed. *)
Lemma createHmac_sha256_hex_length (key : string) (b : Buffer) :
  String.length (createHmac_sha256_hex key b) = 64%nat.
Proof.
  unfold createHmac_sha256_hex, Sha2.hmac.
  now rewrite hex_of_bytes_length, digest_length.
Qed.

Lemma createHmac_sha512_hex_length (key : string) (b : Buffer) :
  String.length (createHmac_sha512_hex key b) = 128%nat.
Proof.
  unfold createHmac_sha512_hex, createHmac_sha512, Sha2.hmac.
  now rewrite hex_of_bytes_length, digest_length.
Qed.

(** ** Verification of peer messages ([ghost_net.js]) *)
Section GhostNetFacts.
Import GhostNet.

Lemma buffer_eqb_refl (b : Buffer) : buffer_eqb b b = true.
Proof.
  induction b as [| x b IH]; simpl; [reflexivity |].
  rewrite IH, andb_true_r. now apply Byte.byte_dec_lb.
Qed.

Lemma string_eqb_empty_length (s : string) :
  String.length s <> 0%nat -> String.eqb s "" = false.
Proof. destruct s; simpl; [congruence | reflexivity]. Qed.

(** A message without signature or without timestamp is refused, quietly. *)
Lemma verify_missing_field (cfg : Config) (now : Z) (message : Message) :
  signature message = None \/ timestamp message = None ->
  _verifyQuantumSignature cfg now message = Returns false.
Proof.
  unfold _verifyQuantumSignature.
  intros [-> | ->]; [reflexivity | now destruct (signature message)].
Qed.

(** Within the window, the tag that the check recomputes is accepted. *)
Lemma verify_accepts_recomputed_tag (cfg : Config) (now ts : Z) (key : string) :
  ts <> 0 -> Z.abs (now - ts) <= maxTimeDelta cfg ->
  _verifyQuantumSignature cfg now
    {| signature := Some (createHmac_sha256_hex key (Buffer_from_string (pretty ts)));
       timestamp := Some ts; peerId := Some key |}
  = Returns true.
Proof.
  intros Hts Hwin. unfold _verifyQuantumSignature. simpl.
  rewrite string_eqb_empty_length
    by (rewrite createHmac_sha256_hex_length; discriminate).
  destruct (Z.eqb_spec ts 0) as [| _]; [contradiction |]. simpl.
  destruct (Z.gtb_spec (Z.abs (now - ts)) (maxTimeDelta cfg)); [lia |].
  unfold timingSafeEqual. rewrite Nat.eqb_refl. now rewrite buffer_eqb_refl.
Qed.

(** C3.  Whatever the message, when its timestamp is further from the clock
    than the replay window [maxTimeDelta] allows, verification returns
    false: the tag is not even looked at. *)
Theorem verify_rejects_outside_replay_window (cfg : Config) (now : Z)
    (message : Message) (ts : Z) :
  timestamp message = Some ts ->
  Z.abs (now - ts) > maxTimeDelta cfg ->
  _verifyQuantumSignature cfg now message = Returns false.
Proof.
  intros Hts Hout. unfold _verifyQuantumSignature. rewrite Hts.
  destruct (signature message) as [sig |]; [| reflexivity].
  destruct (String.eqb sig "" || (ts =? 0)); [reflexivity |].
  destruct (Z.gtb_spec (Z.abs (now - ts)) (maxTimeDelta cfg)); [reflexivity | lia].
Qed.

Lemma verify_rejects_outside_replay_window_witness :
  timestamp stale_message = Some 1699999994999 /\
  Z.abs (1700000000000 - 1699999994999) > maxTimeDelta default_config /\
  _verifyQuantumSignature default_config 1700000000000 stale_message
  = Returns false.
Proof.
  assert (H1 : timestamp stale_message = Some 1699999994999) by reflexivity.
  assert (H2 : Z.abs (1700000000000 - 1699999994999) > maxTimeDelta default_config)
    by (simpl; lia).
  exact (conj H1 (conj H2
           (verify_rejects_outside_replay_window default_config 1700000000000
              stale_message 1699999994999 H1 H2))).
Defined.

(** One millisecond earlier the same message is accepted. *)
Example stale_message_was_valid :
  _verifyQuantumSignature default_config 1699999999999 stale_message
  = Returns true.
Proof. apply verify_accepts_recomputed_tag; simpl; lia. Qed.

(** A tag that is present and not sixty-four bytes long makes
    [timingSafeEqual] throw, and [_verifyQuantumSignature] with it. *)
Lemma verify_throws_on_tag_length (cfg : Config) (now ts : Z)
    (sig key : string) :
  ts <> 0 -> Z.abs (now - ts) <= maxTimeDelta cfg ->
  String.length sig <> 0%nat -> String.length sig <> 64%nat ->
  _verifyQuantumSignature cfg now
    {| signature := Some sig; timestamp := Some ts; peerId := Some key |}
  = Throws RangeError.
Proof.
  intros Hts Hwin Hne Hlen. unfold _verifyQuantumSignature. simpl.
  rewrite (string_eqb_empty_length sig Hne).
  destruct (Z.eqb_spec ts 0) as [| _]; [contradiction |]. simpl.
  destruct (Z.gtb_spec (Z.abs (now - ts)) (maxTimeDelta cfg)); [lia |].
  unfold timingSafeEqual.
  rewrite !Buffer_from_string_length, createHmac_sha256_hex_length.
  now destruct (Nat.eqb_spec (String.length sig) 64).
Qed.

(** A message without [peerId] makes [createHmac] throw. *)
Lemma verify_throws_without_peerId (cfg : Config) (now ts : Z) (sig : string) :
  ts <> 0 -> Z.abs (now - ts) <= maxTimeDelta cfg ->
  String.length sig <> 0%nat ->
  _verifyQuantumSignature cfg now
    {| signature := Some sig; timestamp := Some ts; peerId := None |}
  = Throws TypeError.
Proof.
  intros Hts Hwin Hne. unfold _verifyQuantumSignature. simpl.
  rewrite (string_eqb_empty_length sig Hne).
  destruct (Z.eqb_spec ts 0) as [| _]; [contradiction |]. simpl.
  now destruct (Z.gtb_spec (Z.abs (now - ts)) (maxTimeDelta cfg)); [lia |].
Qed.

(** C4.  Verification is not total: on a fresh message whose tag is three
    characters long it throws a [RangeError] instead of returning false. *)
Theorem verify_throws_on_short_tag :
  _verifyQuantumSignature default_config 1700000000000
    {| signature := Some "abc"; timestamp := Some 1700000000000;
       peerId := Some "peer" |}
  = Throws RangeError.
Proof. apply verify_throws_on_tag_length; simpl; (lia || discriminate). Qed.

(** The node signs its own messages over the clock and thirty-two random
    bytes; the check recomputes a tag over the timestamp alone, so a message
    signed that way, fresh as it is, is refused. *)
Example own_signature_is_refused :
  _verifyQuantumSignature default_config 1700000000000
    {| signature :=
         Some (_generateQuantumSignature alice 1700000000000 (repeat x00 32));
       timestamp := Some 1700000000000;
       peerId := Some (id alice) |}
  = Returns false.
Proof. vm_compute. reflexivity. Qed.
End GhostNetFacts.

(** ** Signatures of transmissions ([transmission.js]) *)
Section SignatureFacts.
Import TransmissionHandler.
Context `{Host}.

(** With the sixteen random bytes counted among its inputs the signature
    is a function, and the check made with the same sixteen bytes accepts
    it. *)
Lemma verify_with_the_signing_noise (self : Identity) (noise : Buffer)
    (content : Content) (s : ConsciousnessState) (sig : string)
    (name iv : string) (data : Buffer) :
  _generateQuantumSignature self noise content (FieldState s) = Returns sig ->
  _verifyQuantumSignature self noise
    {| in_id := name; in_content := content; in_consciousness := FieldState s;
       in_signature := sig; in_data := data; in_iv := iv |}
  = Returns true.
Proof.
  intros Hsig. unfold _verifyQuantumSignature.
  cbn [in_content in_consciousness in_signature]. rewrite Hsig.
  cbn. now rewrite String.eqb_refl.
Qed.

(** [createTransmission] stores the level, a number, under [consciousness];
    verification reads [.level] of it and throws, whatever the draw. *)
Lemma verify_throws_on_number_field (self : Identity) (noise : Buffer)
    (t : Incoming) (n : Q) :
  in_consciousness t = FieldNumber n ->
  _verifyQuantumSignature self noise t = Throws TypeError.
Proof.
  intros Hc. unfold _verifyQuantumSignature, _generateQuantumSignature.
  now rewrite Hc.
Qed.
End SignatureFacts.

Section SignatureExample.
Import TransmissionHandler.

Lemma signature_zeros_eq :
  _generateQuantumSignature (H := TestHost.yielding echo) alice noise_zeros hi
    (FieldState calm)
  = Returns signature_zeros.
Proof. vm_compute. reflexivity. Qed.

(** C2.  The signature is not a function of signer, payload and state: two
    calls on the same content, the same state and the same identity give
    two tags when [randomBytes] draws differently, and so the check, which
    signs again with a draw of its own, refuses the genuine tag. *)
Theorem signature_not_reproducible :
  _generateQuantumSignature (H := TestHost.yielding echo) alice noise_zeros hi
    (FieldState calm)
  <> _generateQuantumSignature (H := TestHost.yielding echo) alice noise_ones hi
       (FieldState calm)
  /\ _verifyQuantumSignature (H := TestHost.yielding echo) alice noise_ones
       signed_hi
     = Returns false.
Proof.
  assert (Hones :
    _generateQuantumSignature (H := TestHost.yielding echo) alice noise_ones hi
      (FieldState calm)
    = Returns "be00615896e9647434d287a965ffc6169340892a06a992121c8abcae9a17c85fb3f2c3452a59f048f1f107f42cea7dc351144912f85c3efb29940be888ec5afa")
    by (vm_compute; reflexivity).
  split.
  - rewrite signature_zeros_eq, Hones. discriminate.
  - unfold _verifyQuantumSignature, signed_hi.
    cbn [in_content in_consciousness in_signature]. rewrite Hones.
    reflexivity.
Qed.
End SignatureExample.

(** ** Maps in insertion order *)
Section JsMapFacts.
Context {V : Type}.
Implicit Types (m : list (string * V)) (k : string) (v : V).

Lemma delete_absent k m : k ∉ JsMap.keys m -> JsMap.delete k m = m.
Proof.
  unfold JsMap.delete, JsMap.keys. induction m as [| [k' v'] m IH]; intros Hk; [reflexivity |].
  rewrite fmap_cons, not_elem_of_cons in Hk. destruct Hk as [Hne Hk]. simpl in Hne.
  rewrite filter_cons_True by (simpl; congruence). now rewrite IH.
Qed.

Lemma delete_head (e : string * V) m :
  JsMap.uniq (e :: m) -> JsMap.delete (fst e) (e :: m) = m.
Proof.
  unfold JsMap.uniq, JsMap.keys. rewrite fmap_cons, NoDup_cons. intros [Hk _].
  unfold JsMap.delete. rewrite filter_cons_False by tauto.
  now apply delete_absent.
Qed.

Lemma delete_app k m1 m2 :
  JsMap.delete k (m1 ++ m2) = JsMap.delete k m1 ++ JsMap.delete k m2.
Proof. apply filter_app. Qed.

Lemma keys_delete_subseteq k m : JsMap.keys (JsMap.delete k m) ⊆ JsMap.keys m.
Proof.
  unfold JsMap.keys, JsMap.delete. intros x. rewrite !list_elem_of_fmap.
  intros (e & -> & He). apply list_elem_of_filter in He as [_ He]. eauto.
Qed.

Lemma uniq_delete k m : JsMap.uniq m -> JsMap.uniq (JsMap.delete k m).
Proof.
  unfold JsMap.uniq, JsMap.keys, JsMap.delete. induction m as [| [k' v'] m IH]; intros Hu; [constructor |].
  rewrite fmap_cons, NoDup_cons in Hu. destruct Hu as [Hk Hu]. simpl in Hk.
  destruct (decide (k' = k)) as [-> | Hne].
  - rewrite filter_cons_False by (simpl; tauto). auto.
  - rewrite filter_cons_True by (simpl; tauto). rewrite fmap_cons, NoDup_cons. split; [| auto].
    simpl. intros Hin. apply Hk. now apply (keys_delete_subseteq k m).
Qed.

Lemma size_delete k m : (JsMap.size (JsMap.delete k m) <= JsMap.size m)%nat.
Proof. apply length_filter. Qed.


Lemma keys_set k v m :
  JsMap.keys (JsMap.set k v m)
  = if decide (k ∈ JsMap.keys m) then JsMap.keys m else JsMap.keys m ++ [k].
Proof.
  unfold JsMap.keys. induction m as [| [k' v'] m IH]; [reflexivity |].
  cbn [JsMap.set]. destruct (String.eqb_spec k k') as [-> | Hne].
  - clear IH. rewrite !fmap_cons. cbn [fst].
    case_decide as Hin; [reflexivity |].
    exfalso. apply Hin. apply list_elem_of_here.
  - rewrite !fmap_cons, IH. cbn [fst]. clear IH.
    destruct (decide (k ∈ fst <$> m)) as [Hin | Hin];
      destruct (decide (k ∈ k' :: (fst <$> m))) as [Hin' | Hin'];
      try reflexivity.
    + exfalso. apply Hin'. now apply list_elem_of_further.
    + exfalso. apply elem_of_cons in Hin' as [? | ?]; contradiction.
Qed.

Lemma uniq_set k v m : JsMap.uniq m -> JsMap.uniq (JsMap.set k v m).
Proof.
  unfold JsMap.uniq. rewrite keys_set. case_decide as Hk; [tauto |].
  intros Hu. apply NoDup_app. split; [assumption |]. split; [| apply NoDup_singleton].
  intros x Hx Hx'. apply list_elem_of_singleton in Hx'. congruence.
Qed.

Lemma size_set k v m :
  JsMap.size (JsMap.set k v m)
  = if decide (k ∈ JsMap.keys m) then JsMap.size m else S (JsMap.size m).
Proof.
  unfold JsMap.size. rewrite <- !(length_fmap fst).
  change (fst <$> JsMap.set k v m) with (JsMap.keys (JsMap.set k v m)).
  rewrite keys_set. unfold JsMap.keys. case_decide; [reflexivity |].
  rewrite length_app. simpl. lia.
Qed.

Lemma size_set_bounds k v m :
  (JsMap.size m <= JsMap.size (JsMap.set k v m) <= S (JsMap.size m))%nat.
Proof. rewrite size_set. case_decide; lia. Qed.
End JsMapFacts.

(** ** The archival sweep *)
Section ArchiveFacts.
Import TransmissionHandler.
Implicit Types (l pre ver arch : list (string * Packet)) (e : string * Packet).

Lemma archive_entry_old th ver arch e :
  is_old th e ->
  archive_entry th (ver, arch) e
  = (JsMap.delete (fst e) ver, JsMap.set (fst e) (snd e) arch).
Proof.
  unfold is_old, archive_entry. intros Hold.
  destruct (Z.ltb_spec (p_timestamp (snd e)) th); [reflexivity | lia].
Qed.

Lemma archive_entry_recent th ver arch e :
  ~ is_old th e -> archive_entry th (ver, arch) e = (ver, arch).
Proof.
  unfold is_old, archive_entry. intros Hold.
  destruct (Z.ltb_spec (p_timestamp (snd e)) th); [lia | reflexivity].
Qed.

Lemma fold_archive_entry th l pre arch :
  JsMap.uniq (pre ++ l) ->
  fold_left (archive_entry th) l (pre ++ l, arch)
  = (pre ++ filter (fun e => ~ is_old th e) l,
     archive_all (filter (is_old th) l) arch).
Proof.
  revert pre arch. induction l as [| e l IH]; intros pre arch Hu.
  - reflexivity.
  - cbn [fold_left].
    assert (Hu' : JsMap.uniq ((pre ++ [e]) ++ l)) by now rewrite <- app_assoc.
    destruct (decide (is_old th e)) as [Hold | Hrecent].
    + rewrite archive_entry_old by assumption.
      unfold JsMap.uniq, JsMap.keys in Hu.
      rewrite fmap_app, fmap_cons in Hu.
      apply NoDup_app in Hu as (Hpre & Hdisj & Hel).
      rewrite delete_app, delete_absent, delete_head by
        (try assumption; intros Hin; apply (Hdisj _ Hin); apply list_elem_of_here).
      rewrite IH.
      * rewrite filter_cons_False by tauto.
        rewrite (filter_cons_True (is_old th)) by assumption.
        reflexivity.
      * unfold JsMap.uniq, JsMap.keys. rewrite fmap_app. apply NoDup_app.
        apply NoDup_cons in Hel as [_ Hl]. repeat split; [assumption | | assumption].
        intros x Hx Hx'. apply (Hdisj _ Hx). now apply list_elem_of_further.
    + rewrite archive_entry_recent by assumption.
      replace (pre ++ e :: l) with ((pre ++ [e]) ++ l) by now rewrite <- app_assoc.
      rewrite IH by assumption.
      rewrite filter_cons_True by assumption.
      rewrite (filter_cons_False (is_old th)) by assumption.
      now rewrite <- app_assoc.
Qed.

Lemma delete_oldest_head e arch :
  JsMap.uniq (e :: arch) -> delete_oldest (e :: arch) = arch.
Proof. intros Hu. unfold delete_oldest. simpl. now apply delete_head. Qed.

Lemma uniq_tail e arch : JsMap.uniq (e :: arch) -> JsMap.uniq arch.
Proof.
  unfold JsMap.uniq, JsMap.keys. rewrite fmap_cons, NoDup_cons. tauto.
Qed.

(** The loop ends once the excess is deleted, oldest first. *)
Lemma limit_archive_drops (fuel : nat) (maxSize : Z) arch :
  JsMap.uniq arch -> 0 <= maxSize ->
  (length arch - Z.to_nat maxSize <= fuel)%nat ->
  limit_archive fuel maxSize arch
  = Some (drop (length arch - Z.to_nat maxSize) arch).
Proof.
  revert arch. induction fuel as [| f IH]; intros arch Hu Hmax Hfuel.
  - cbn [limit_archive]. unfold JsMap.size.
    destruct (Z.gtb_spec (Z.of_nat (length arch)) maxSize); [lia |].
    replace (length arch - Z.to_nat maxSize)%nat with 0%nat by lia. reflexivity.
  - cbn [limit_archive]. unfold JsMap.size.
    destruct (Z.gtb_spec (Z.of_nat (length arch)) maxSize) as [Hgt | Hle].
    + destruct arch as [| e arch]; [simpl in Hgt; lia |].
      rewrite delete_oldest_head by assumption.
      rewrite IH; [| now apply uniq_tail in Hu | assumption | simpl in *; lia].
      f_equal. simpl length in *.
      replace (S (length arch) - Z.to_nat maxSize)%nat
        with (S (length arch - Z.to_nat maxSize)) by lia.
      reflexivity.
    + replace (length arch - Z.to_nat maxSize)%nat with 0%nat by lia. reflexivity.
Qed.

(** With a negative bound the loop never ends: an empty map is still too
    large and has nothing to delete. *)
Lemma limit_archive_diverges (fuel : nat) (maxSize : Z) arch :
  maxSize < 0 -> limit_archive fuel maxSize arch = None.
Proof.
  intros Hneg. revert arch. induction fuel as [| f IH]; intros arch;
    cbn [limit_archive];
    destruct (Z.gtb_spec (Z.of_nat (JsMap.size arch)) maxSize); try lia; auto.
Qed.

Lemma uniq_archive_all l arch : JsMap.uniq arch -> JsMap.uniq (archive_all l arch).
Proof.
  revert arch. induction l as [| e l IH]; intros arch Hu; [assumption |].
  apply IH. now apply uniq_set.
Qed.

Lemma length_archive_all l arch :
  (length arch <= length (archive_all l arch) <= length arch + length l)%nat.
Proof.
  revert arch. induction l as [| e l IH]; intros arch; simpl; [lia |].
  specialize (IH (JsMap.set (fst e) (snd e) arch)).
  pose proof (size_set_bounds (fst e) (snd e) arch) as Hs. unfold JsMap.size in Hs.
  lia.
Qed.

End ArchiveFacts.

Section SweepFacts.
Import TransmissionHandler.
Implicit Types (h : Handler) (l ver arch : list (string * Packet)).

Lemma uniq_sublist {V} (m1 m2 : list (string * V)) :
  m1 `sublist_of` m2 -> JsMap.uniq m2 -> JsMap.uniq m1.
Proof.
  unfold JsMap.uniq, JsMap.keys. intros Hsub Hu.
  eapply sublist_NoDup; [exact Hu |]. now apply fmap_sublist.
Qed.

Lemma get_set_same {V} (k : string) (v : V) (m : list (string * V)) :
  JsMap.get k (JsMap.set k v m) = Some v.
Proof.
  induction m as [| [k' v'] m IH]; simpl.
  - now rewrite String.eqb_refl.
  - destruct (String.eqb_spec k k') as [-> | Hne]; simpl.
    + now rewrite String.eqb_refl.
    + destruct (String.eqb_spec k k'); [contradiction | assumption].
Qed.

Lemma get_set_other {V} (k k' : string) (v : V) (m : list (string * V)) :
  k <> k' -> JsMap.get k (JsMap.set k' v m) = JsMap.get k m.
Proof.
  intros Hne. induction m as [| [k0 v0] m IH]; simpl.
  - destruct (String.eqb_spec k k'); [contradiction | reflexivity].
  - destruct (String.eqb_spec k' k0) as [-> | Hne0]; simpl.
    + destruct (String.eqb_spec k k0); [contradiction | reflexivity].
    + destruct (String.eqb_spec k k0); [reflexivity | assumption].
Qed.



(** The sweep, whatever the sizes. *)
Lemma archiveOldTransmissions_result (fuel : nat) (now : Z) h :
  let b := transmissionBuffers h in
  let th := now - archiveAge (config h) in
  let moved := archive_all (filter (is_old th) (verified b)) (archived b) in
  JsMap.uniq (verified b) -> JsMap.uniq (archived b) ->
  0 <= maxArchiveSize (config h) ->
  (length moved - Z.to_nat (maxArchiveSize (config h)) <= fuel)%nat ->
  _archiveOldTransmissions fuel now h
  = Some (with_buffers h
            {| pending := pending b;
               verified := filter (fun e => ~ is_old th e) (verified b);
               archived :=
                 drop (length moved - Z.to_nat (maxArchiveSize (config h))) moved |}).
Proof.
  intros b th moved Hver Harch Hmax Hfuel. unfold _archiveOldTransmissions.
  fold b. fold th.
  pose proof (fold_archive_entry th (verified b) [] (archived b) Hver) as Hfold.
  simpl app in Hfold. rewrite Hfold. fold moved.
  rewrite limit_archive_drops; [reflexivity | | assumption | assumption].
  now apply uniq_archive_all.
Qed.
(** What a sweep that returns leaves in the archive. *)
Lemma sweep_archived (fuel : nat) (now : Z) h h' :
  _archiveOldTransmissions fuel now h = Some h' ->
  limit_archive fuel (maxArchiveSize (config h))
    (snd (fold_left (archive_entry (now - archiveAge (config h)))
            (verified (transmissionBuffers h))
            (verified (transmissionBuffers h), archived (transmissionBuffers h))))
  = Some (archived (transmissionBuffers h')).
Proof.
  unfold _archiveOldTransmissions. destruct (fold_left _ _ _) as [ver arch].
  cbn [snd]. destruct (limit_archive _ _ _); [| discriminate].
  cbn [mbind option_bind]. intros [= <-]. reflexivity.
Qed.
End SweepFacts.

Section SweepTheorems.
Import TransmissionHandler.
Implicit Types (h : Handler).


Lemma crowded_uniq :
  JsMap.uniq (verified (transmissionBuffers crowded)) /\
  JsMap.uniq (archived (transmissionBuffers crowded)).
Proof.
  split; apply (bool_decide_unpack _); vm_compute; exact I.
Qed.


End SweepTheorems.

(** ** The sizes of the buffers *)
Section BufferBounds.
Import TransmissionHandler.
Context `{Host} (_storeTransmission : Packet -> Handler -> Handler).
Implicit Types (h : Handler) (op : Operation).

Ltac simpl_buffers :=
  cbn [fst snd transmissionBuffers config identity with_buffers
       pending verified archived] in *.

(** A creation always returns, and all it does to the buffers is one
    [pending.set] under the new identifier. *)
Lemma createTransmission_effect h d content sender cs :
  exists t enc,
    createTransmission h d content sender cs
    = (Returns t,
       with_buffers h
         {| pending := JsMap.set (t_id t) enc (pending (transmissionBuffers h));
            verified := verified (transmissionBuffers h);
            archived := archived (transmissionBuffers h) |})
    /\ t_id t = _generateTransmissionId (c_entropy d) (c_now_id d).
Proof.
  unfold createTransmission, _generateQuantumSignature.
  eexists _, _. split; reflexivity.
Qed.

(** Processing throws, at the latest where the content is to be
    decompressed, and leaves the handler as it was. *)
Lemma processTransmission_throws h d t :
  exists e, processTransmission _storeTransmission h d t = (Throws e, h).
Proof.
  unfold processTransmission.
  destruct (_verifyQuantumSignature _ _ _) as [[|] |]; eauto.
  destruct (_decryptTransmission _ _); eauto.
Qed.

Lemma keys_set_incl {V} (k : string) (v : V) (m : JsMap.t V) :
  JsMap.keys m ⊆ JsMap.keys (JsMap.set k v m).
Proof.
  rewrite keys_set. destruct (decide (k ∈ JsMap.keys m)); [done |].
  intros x Hx. apply elem_of_app. now left.
Qed.

Lemma perform_preserves (fuel : nat) h op :
  archive_bounded h -> (load h <= fuel)%nat ->
  exists h',
    perform _storeTransmission fuel h op = Some h' /\ archive_bounded h' /\
    config h' = config h /\ (load h' <= load h)%nat /\
    (JsMap.size (verified (transmissionBuffers h'))
     <= JsMap.size (verified (transmissionBuffers h)))%nat /\
    JsMap.keys (pending (transmissionBuffers h))
      ⊆ JsMap.keys (pending (transmissionBuffers h')).
Proof.
  intros (Hver & Harch & Hsize) Hfuel. destruct op as [d c s cs | d t | now];
    cbn [perform].
  - destruct (createTransmission_effect h d c s cs) as (t & enc & -> & _).
    eexists. split; [reflexivity |].
    unfold archive_bounded, load. simpl_buffers.
    repeat split; auto. apply keys_set_incl.
  - destruct (processTransmission_throws h d t) as [e ->].
    exists h. unfold archive_bounded. repeat split; auto.
  - set (th := now - archiveAge (config h)).
    set (moved := archive_all (filter (is_old th) (verified (transmissionBuffers h)))
                    (archived (transmissionBuffers h))).
    pose proof (length_archive_all
                  (filter (is_old th) (verified (transmissionBuffers h)))
                  (archived (transmissionBuffers h))) as Hmoved.
    fold moved in Hmoved.
    pose proof (filter_app_complement (is_old th) (verified (transmissionBuffers h)))
      as Hsplit.
    apply Permutation_length in Hsplit. rewrite length_app in Hsplit.
    assert (Hpos : 0 <= maxArchiveSize (config h)) by (unfold JsMap.size in Hsize; lia).
    unfold load, JsMap.size in *.
    rewrite (archiveOldTransmissions_result fuel now h Hver Harch Hpos)
      by (fold th moved; lia).
    eexists. split; [reflexivity |]. fold th moved.
    unfold archive_bounded, load, JsMap.size. simpl_buffers.
    rewrite length_drop.
    split; [| split; [reflexivity | split; [lia | split; [lia | done]]]].
    repeat split.
    + eapply uniq_sublist; [apply sublist_filter | exact Hver].
    + eapply uniq_sublist; [apply sublist_drop |]. now apply uniq_archive_all.
    + lia.
Qed.

(** A creation, a processing and a sweep come to a sweep of the handler
    with one more pending entry. *)
Lemma run_create_process_sweep (fuel : nat) h d content sender cs pd t now h' :
  run _storeTransmission fuel h
    [Create d content sender cs; Process pd t; Sweep now] = Some h' ->
  exists entries,
    _archiveOldTransmissions fuel now
      (with_buffers h
         {| pending := entries;
            verified := verified (transmissionBuffers h);
            archived := archived (transmissionBuffers h) |})
    = Some h'.
Proof.
  cbn [run perform mbind option_bind].
  destruct (createTransmission_effect h d content sender cs) as (tr & enc & -> & _).
  cbn [snd].
  match goal with
  | |- context [processTransmission _ ?h1 _ _] =>
      destruct (processTransmission_throws h1 pd t) as [e ->]
  end.
  cbn [snd]. destruct (_archiveOldTransmissions _ _ _) as [swept |] eqn:Hsweep;
    [| discriminate].
  intros [= <-]. eexists. exact Hsweep.
Qed.

(** C10, as the code has it.  From buffers whose archive is within
    [maxArchiveSize], as the empty buffers of the constructor are, and
    whatever the creations, processings and sweeps: every sweep returns,
    the archive stays within [maxArchiveSize], the verified map never
    holds more than it held, and the pending map keeps every identifier it
    had. *)
Theorem buffers_over_operations (ops : list Operation) (fuel : nat) h :
  archive_bounded h -> (load h <= fuel)%nat ->
  exists h',
    run _storeTransmission fuel h ops = Some h' /\
    Z.of_nat (JsMap.size (archived (transmissionBuffers h')))
      <= maxArchiveSize (config h) /\
    (JsMap.size (verified (transmissionBuffers h'))
     <= JsMap.size (verified (transmissionBuffers h)))%nat /\
    JsMap.keys (pending (transmissionBuffers h))
      ⊆ JsMap.keys (pending (transmissionBuffers h')).
Proof.
  revert h. induction ops as [| op ops IH]; intros h Hinv Hfuel.
  - exists h. destruct Hinv as (_ & _ & Hsize). repeat split; auto.
  - cbn [run].
    destruct (perform_preserves fuel h op Hinv Hfuel)
      as (h1 & -> & Hinv1 & Hcfg & Hload & Hver & Hpen).
    destruct (IH h1 Hinv1) as (h' & Hrun & Hsize' & Hver' & Hpen'); [lia |].
    exists h'. cbn [mbind option_bind]. rewrite <- Hcfg.
    repeat split; [exact Hrun | exact Hsize' | lia |].
    now transitivity (JsMap.keys (pending (transmissionBuffers h1))).
Qed.

(** Creations under identifiers that are new and pairwise distinct add as
    many entries to the pending map, whatever its configured size. *)
Lemma pending_after_creations (ds : list CreateDraws) (content : Content)
    (sender : Identity) (cs : ConsciousnessState) (fuel : nat) h :
  let name d := _generateTransmissionId (c_entropy d) (c_now_id d) in
  NoDup (JsMap.keys (pending (transmissionBuffers h)) ++ (name <$> ds)) ->
  exists h',
    run _storeTransmission fuel h ((fun d => Create d content sender cs) <$> ds)
    = Some h' /\
    JsMap.keys (pending (transmissionBuffers h'))
    = JsMap.keys (pending (transmissionBuffers h)) ++ (name <$> ds).
Proof.
  intros name. revert h. induction ds as [| d ds IH]; intros h Hnd.
  - exists h. rewrite fmap_nil, app_nil_r. auto.
  - rewrite !fmap_cons. cbn [run perform].
    destruct (createTransmission_effect h d content sender cs)
      as (t & enc & -> & Hid).
    cbn [snd mbind option_bind].
    set (h1 := with_buffers _ _).
    assert (Hkeys : JsMap.keys (pending (transmissionBuffers h1))
                    = JsMap.keys (pending (transmissionBuffers h)) ++ [name d]).
    { subst h1. simpl_buffers. rewrite keys_set, Hid. fold (name d).
      rewrite decide_False; [reflexivity |].
      apply NoDup_app in Hnd as (_ & Hdisj & _). intros Hin.
      apply (Hdisj _ Hin). rewrite fmap_cons. apply list_elem_of_here. }
    destruct (IH h1) as (h' & Hrun & Hk).
    + rewrite Hkeys, <- app_assoc. exact Hnd.
    + exists h'. split; [exact Hrun |].
      rewrite Hk, Hkeys, <- app_assoc. reflexivity.
Qed.
End BufferBounds.

Section PendingOverflow.
Import TransmissionHandler.

Lemma three_identifiers_distinct :
  NoDup ((fun d => _generateTransmissionId (c_entropy d) (c_now_id d))
           <$> [draws_of 1; draws_of 2; draws_of 3]).
Proof. apply (bool_decide_unpack _). vm_compute. exact I. Qed.

(** Against C10: with room for two pending entries, three creations leave
    three of them in the pending map. *)
Lemma pending_exceeds_its_capacity :
  exists h',
    run (H := TestHost.yielding echo) store_verified 0
      (new_handler tight_config alice)
      [Create (draws_of 1) hi alice calm; Create (draws_of 2) hi alice calm;
       Create (draws_of 3) hi alice calm]
    = Some h'
    /\ Z.of_nat (JsMap.size (pending (transmissionBuffers h')))
       > pending_maxSize tight_config.
Proof.
  destruct (pending_after_creations (H := TestHost.yielding echo) store_verified
              [draws_of 1; draws_of 2; draws_of 3] hi alice calm 0
              (new_handler tight_config alice) three_identifiers_distinct)
    as (h' & Hrun & Hkeys).
  exists h'. split; [exact Hrun |].
  unfold JsMap.size. rewrite <- (length_fmap fst).
  change (fst <$> pending (transmissionBuffers h'))
    with (JsMap.keys (pending (transmissionBuffers h'))).
  rewrite Hkeys. cbn [length app fmap list_fmap JsMap.keys new_handler
                      new_buffers transmissionBuffers pending JsMap.empty
                      pending_maxSize tight_config].
  lia.
Qed.
End PendingOverflow.

Section ArchiveWitness.
Import TransmissionHandler.

Lemma crowded_bounded : archive_bounded crowded.
Proof.
  destruct crowded_uniq as [Hver Harch].
  split; [exact Hver | split; [exact Harch |]]. vm_compute. discriminate.
Qed.

(** A creation, a processing and a sweep on buffers that are not empty:
    the archive ends full, with two entries. *)
Lemma buffers_over_operations_witness :
  archive_bounded crowded /\
  exists h',
    run (H := TestHost.yielding echo) store_verified 4 crowded
      [Create (draws_of 1) hi alice calm; Process process_draws signed_hi;
       Sweep 10000]
    = Some h'
    /\ Z.of_nat (JsMap.size (archived (transmissionBuffers h'))) <= 2
    /\ (JsMap.size (verified (transmissionBuffers h')) <= 3)%nat
    /\ archived (transmissionBuffers h') = [packet_at "b" 200; packet_at "d" 300].
Proof.
  split; [exact crowded_bounded |].
  destruct (buffers_over_operations (H := TestHost.yielding echo) store_verified
              [Create (draws_of 1) hi alice calm; Process process_draws signed_hi;
               Sweep 10000] 4 crowded crowded_bounded (le_n 4))
    as (h' & Hrun & Hsize & Hver & _).
  exists h'. split; [exact Hrun |]. split; [exact Hsize |]. split; [exact Hver |].
  destruct (run_create_process_sweep (H := TestHost.yielding echo) store_verified
              _ _ _ _ _ _ _ _ _ _ Hrun) as [entries Hsweep].
  apply sweep_archived in Hsweep.
  match type of Hsweep with
  | ?limited = _ =>
      assert (Hlimited : limited = Some [packet_at "b" 200; packet_at "d" 300])
        by (vm_compute; reflexivity)
  end.
  rewrite Hlimited in Hsweep. injection Hsweep as Harch. symmetry. exact Harch.
Defined.
End ArchiveWitness.

(** ** UTF-8: decoding what was encoded *)
Section Utf8Facts.
Import Utf8.

Lemma byte_to_of_Z (z : Z) : 0 <= z < 256 -> byte_to_Z (byte_of_Z z) = z.
Proof.
  intros Hz. unfold byte_of_Z, byte_to_Z. rewrite Z.mod_small by lia.
  destruct (Byte.of_N (Z.to_N z)) as [b |] eqn:E.
  - apply Byte.to_of_N in E. rewrite E. lia.
  - apply Byte.of_N_None_iff in E. lia.
Qed.

Lemma byte_to_Z_range (b : byte) : 0 <= byte_to_Z b < 256.
Proof.
  unfold byte_to_Z. pose proof (Byte.to_N_bounded b). lia.
Qed.

Lemma is_scalar_spec (c : Z) :
  is_scalar c = true <-> 0 <= c < 0xD800 \/ 0xE000 <= c <= 0x10FFFF.
Proof. unfold is_scalar. lia. Qed.

(** Runs the decoder on bytes whose ranges are known, deciding each
    comparison it makes. *)
Ltac arith := Z.div_mod_to_equations; lia.

Ltac decide_test :=
  match goal with
  | |- context [Z.eqb ?a ?b] =>
      destruct (Z.eqb_spec a b); [try (exfalso; arith) | try (exfalso; arith)]
  | |- context [Z.ltb ?a ?b] =>
      destruct (Z.ltb_spec a b); [try (exfalso; arith) | try (exfalso; arith)]
  | |- context [Z.leb ?a ?b] =>
      destruct (Z.leb_spec a b); [try (exfalso; arith) | try (exfalso; arith)]
  end.

Ltac run_decoder :=
  repeat first
    [ progress cbn [andb orb app map decode_from]
    | progress unfold step, lead
    | rewrite byte_to_of_Z by arith
    | decide_test ].

Lemma decode_encode_point (c : Z) (rest : Buffer) :
  is_scalar c = true ->
  decode_from Idle (encode_point c ++ rest) = c :: decode_from Idle rest.
Proof.
  intros Hs. unfold encode_point. rewrite Hs. apply is_scalar_spec in Hs.
  unfold encode_scalar.
  destruct (Z.ltb_spec c 0x80) as [H1 | H1];
    [| destruct (Z.ltb_spec c 0x800) as [H2 | H2];
       [| destruct (Z.ltb_spec c 0x10000) as [H3 | H3]]].
  - run_decoder. reflexivity.
  - run_decoder. f_equal. arith.
  - run_decoder. all: f_equal; arith.
  - run_decoder. all: f_equal; arith.
Qed.

Lemma decode_encode (t : text) :
  Forall (fun c => is_scalar c = true) t -> decode (encode t) = t.
Proof.
  unfold decode, encode. induction 1 as [| c t Hc _ IH]; [reflexivity |].
  cbn [flat_map]. rewrite decode_encode_point by assumption. now rewrite IH.
Qed.
End Utf8Facts.

(** ** Compression *)
Section CompressionFacts.
Import TransmissionHandler.
Context `{Host}.

(** C5.  As the code stands nothing comes back: whatever the content, its
    decompression throws, the name [ungzip] under which the module imports
    the inverse of [gzip] being no export of [zlib].  Under [gunzip], the
    name [zlib] has for it, the inverse gives back the bytes that went
    into [gzip]: those of the content, or of what [marked] made of a
    string. *)
Theorem decompress_compress_throws (content : Content) :
  _decompressTransmission (_compressTransmission content) = Throws SyntaxError
  /\ zlib "ungzip" = None
  /\ exists inverse,
       zlib "gunzip" = Some inverse
       /\ inverse (_compressTransmission content)
          = Some (Buffer_from
                    match content with
                    | CString s => CString (marked s)
                    | CBuffer _ => content
                    end).
Proof.
  split; [reflexivity |]. split; [reflexivity |].
  exists gunzip. split; [reflexivity |].
  unfold _compressTransmission. apply gunzip_gzip.
Qed.

(** And a text that was encoded is then read again. *)
Lemma gunzip_restores (t : Utf8.text) :
  Forall (fun c => Utf8.is_scalar c = true) t ->
  match zlib "gunzip" with
  | Some inverse =>
      Utf8.decode <$> inverse (_compressTransmission (CBuffer (Utf8.encode t)))
  | None => None
  end = Some t.
Proof.
  intros Ht. cbn [zlib String.eqb Ascii.eqb Bool.eqb]. unfold _compressTransmission.
  cbn [Buffer_from]. rewrite gunzip_gzip. cbn [fmap option_fmap option_map].
  now rewrite decode_encode.
Qed.
End CompressionFacts.

Section CompressionExamples.
Import TransmissionHandler.

(** The content "hi", and the empty one. *)
Example decompress_compress_hi :
  _decompressTransmission (H := TestHost.yielding echo)
    (_compressTransmission (H := TestHost.yielding echo) (CBuffer [x68; x69]))
  = Throws SyntaxError
  /\ _decompressTransmission (H := TestHost.yielding echo)
       (_compressTransmission (H := TestHost.yielding echo) (CBuffer []))
     = Throws SyntaxError.
Proof. split; reflexivity. Qed.
End CompressionExamples.

(** ** [processTransmission] *)
Section ProcessFacts.
Import TransmissionHandler.
Context `{Host} (_storeTransmission : Packet -> Handler -> Handler).

(** A transmission whose signature is refused is thrown out and the
    handler is left as it was. *)
Lemma processTransmission_rejects (h : Handler) (d : ProcessDraws) (t : Incoming) :
  _verifyQuantumSignature (identity h) (p_noise d) t = Returns false ->
  processTransmission _storeTransmission h d t
  = (Throws (Error "Invalid quantum signature"), h).
Proof. intros Hverify. unfold processTransmission. now rewrite Hverify. Qed.
End ProcessFacts.

Section ProcessExamples.
Import TransmissionHandler.

Lemma signed_hi_verifies (cfg : Config) :
  _verifyQuantumSignature (H := TestHost.yielding echo)
    (identity (new_handler cfg alice)) (p_noise process_draws) signed_hi
  = Returns true.
Proof. apply verify_with_the_signing_noise, signature_zeros_eq. Qed.

(** What decryption makes of the data, a keyed hash of it, is no JSON. *)
Lemma signed_hi_is_not_decrypted :
  _decryptTransmission (H := TestHost.yielding echo) (p_key process_draws) signed_hi
  = Throws SyntaxError.
Proof. vm_compute. reflexivity. Qed.

(** C6.  As the code stands no transmission is stored and none is returned:
    on every host, with any [_storeTransmission] and whatever the
    resonance would be, [processTransmission] throws and leaves the handler
    as it was.  So it does for [signed_hi], whose signature is accepted:
    its decryption is refused by [JSON.parse]. *)
Theorem processTransmission_never_stores :
  (forall (host : Host) (_storeTransmission : Packet -> Handler -> Handler)
          (h : Handler) (d : ProcessDraws) (t : Incoming),
      exists e, processTransmission _storeTransmission h d t = (Throws e, h))
  /\ _verifyQuantumSignature (H := TestHost.yielding echo) alice noise_zeros signed_hi
     = Returns true
  /\ forall _storeTransmission : Packet -> Handler -> Handler,
       processTransmission (H := TestHost.yielding echo) _storeTransmission
         (new_handler default_config alice) process_draws signed_hi
       = (Throws SyntaxError, new_handler default_config alice).
Proof.
  split; [intros host store h d t; apply processTransmission_throws |].
  split; [apply (signed_hi_verifies default_config) |].
  intros store. unfold processTransmission.
  rewrite (signed_hi_verifies default_config), signed_hi_is_not_decrypted.
  reflexivity.
Qed.
End ProcessExamples.

(** ** Doubles *)
Section NumberFacts.
Local Open Scope Q_scope.

Lemma Qopp_opp_eq (q : Q) : - - q = q.
Proof.
  destruct q as [n d]. unfold Qopp. cbn [Qnum Qden]. now rewrite Z.opp_involutive.
Qed.

Lemma round_proper (f : Ieee.format) (x y : Q) :
  x == y -> Ieee.round f x = Ieee.round f y.
Proof. intros Heq. unfold Ieee.round. now rewrite (Qred_complete _ _ Heq). Qed.

(** Rounding is symmetric about zero. *)
Lemma round_opp (f : Ieee.format) (q : Q) : Ieee.round f (- q) = - Ieee.round f q.
Proof.
  unfold Ieee.round. rewrite Qred_opp. set (x := Qred q).
  destruct (Qcompare_spec x 0) as [Heq | Hlt | Hgt].
  - assert (Hc : (- x ?= 0) = Eq) by (apply (proj1 (Qeq_alt _ _)); Lqa.lra).
    now rewrite Hc.
  - assert (Hc : (- x ?= 0) = Gt) by (apply (proj1 (Qgt_alt _ _)); Lqa.lra).
    rewrite Hc. now rewrite Qopp_opp_eq.
  - assert (Hc : (- x ?= 0) = Lt) by (apply (proj1 (Qlt_alt _ _)); Lqa.lra).
    rewrite Hc. now rewrite Qopp_opp_eq.
Qed.

Lemma nearest_even_nonneg (q : Q) : 0 <= q -> (0 <= Ieee.nearest_even q)%Z.
Proof.
  intros Hq. unfold Ieee.nearest_even.
  assert (Hf : (0 <= Qfloor q)%Z)
    by (change 0%Z with (Qfloor 0); now apply Qfloor_resp_le).
  destruct (Qcompare _ _); [destruct (Z.even _) | |]; lia.
Qed.

Lemma round_positive_nonneg (f : Ieee.format) (q : Q) :
  0 < q -> 0 <= Ieee.round_positive f q.
Proof.
  intros Hq. unfold Ieee.round_positive. rewrite Qred_correct.
  set (ulp := 2 ^ _).
  assert (Hulp : 0 < ulp) by (apply Qpower_0_lt; reflexivity).
  apply Qmult_le_0_compat; [| Lqa.lra].
  change 0 with (inject_Z 0). rewrite <- Zle_Qle.
  apply nearest_even_nonneg. apply Qlt_le_weak, Qlt_shift_div_l; [assumption |].
  Lqa.lra.
Qed.

(** Rounding keeps the sign. *)
Lemma round_nonneg (f : Ieee.format) (q : Q) : 0 <= q -> 0 <= Ieee.round f q.
Proof.
  intros Hq. unfold Ieee.round.
  pose proof (Qred_correct q) as Hred.
  destruct (Qcompare_spec (Qred q) 0) as [Heq | Hlt | Hgt].
  - Lqa.lra.
  - Lqa.lra.
  - now apply round_positive_nonneg.
Qed.

Lemma round_nonpos (f : Ieee.format) (q : Q) : q <= 0 -> Ieee.round f q <= 0.
Proof.
  intros Hq. rewrite (round_proper f q (- (- q))) by Lqa.lra.
  rewrite round_opp.
  assert (0 <= Ieee.round f (- q)) by (apply round_nonneg; Lqa.lra).
  Lqa.lra.
Qed.

(** The difference of two doubles, as computed, taken the other way. *)
Lemma sub_opp (x y : Q) : Number.sub y x = - Number.sub x y.
Proof.
  unfold Number.sub, Number.double. rewrite <- round_opp.
  apply round_proper. Lqa.lra.
Qed.

Lemma sub_negative (x y : Q) :
  Number.sub x y < 0 -> Number.double x < Number.double y.
Proof.
  intros Hneg. apply Qnot_le_lt. intros Hle.
  assert (0 <= Number.sub x y) by (apply round_nonneg; Lqa.lra).
  Lqa.lra.
Qed.

Lemma sub_of_less (x y : Q) :
  Number.double x < Number.double y -> Number.sub x y <= 0.
Proof. intros Hlt. apply round_nonpos. Lqa.lra. Qed.

Lemma sub_of_more (x y : Q) :
  Number.double y < Number.double x -> 0 <= Number.sub x y.
Proof. intros Hlt. apply round_nonneg. Lqa.lra. Qed.

Lemma tenth_positive : 0 < Number.double 0.1.
Proof. vm_compute. reflexivity. Qed.
End NumberFacts.

#[local] Set Warnings "-inexact-float".

(** The rounding is that of the machine: literals, a difference, a sum of
    products, the smallest double and a product that underflows. *)
Example doubles_of_the_machine :
  of_float 0.1 = Some (Number.double 0.1)
  /\ of_float (-0.7) = Some (Number.double (-0.7))
  /\ of_float (0.4 - 0.3) = Some (Number.sub 0.4 0.3)
  /\ of_float (0.81 - 0.79) = Some (Number.sub 0.81 0.79)
  /\ of_float (13 * 0.9 + 13 * 0.1)
     = Some (Number.add (Number.mul 13 0.9) (Number.mul 13 0.1))
  /\ of_float 9007199254740993 = Some (Number.double 9007199254740993)
  /\ of_float 5e-324 = Some (Number.double 5e-324)
  /\ of_float (1e-320 * 0.3) = Some (Number.mul 1e-320 0.3).
Proof. vm_compute. repeat split. Qed.

(** Single precision: the tenth a [Float32Array] holds, and the sum that a
    rolling average over a latency of 13 gives. *)
Example fround_tenth :
  Number.fround 0.1 = (13421773 # 134217728)%Q
  /\ (Number.add (Number.mul 13 0.9) (Number.mul 13 0.1)
      == 13 + (1 # 562949953421312))%Q.
Proof. vm_compute. split; reflexivity. Qed.

(** ** The quantum router: ranking of routes *)
Section SortFacts.
Import PeerNetwork.
Context {A : Type} (compare : A -> A -> Q).
Local Open Scope Q_scope.

Lemma insert_permutation (x : A) (l : list A) : insert compare x l ≡ₚ x :: l.
Proof.
  induction l as [| y l IHl]; simpl; [reflexivity |].
  destruct (Qlt_le_dec (compare x y) 0); [reflexivity |].
  rewrite IHl. apply Permutation_swap.
Qed.

(** The stable sort loses no element and invents none. *)
Lemma stable_sort_permutation (l : list A) : stable_sort compare l ≡ₚ l.
Proof.
  unfold stable_sort.
  assert (Hgen : forall sorted,
             fold_left (fun s x => insert compare x s) l sorted ≡ₚ sorted ++ l).
  { induction l as [| x l IHl]; intros sorted; simpl.
    - now rewrite app_nil_r.
    - rewrite IHl, insert_permutation. simpl. apply Permutation_middle. }
  apply Hgen.
Qed.

(** Of two elements the second goes first when the comparison asks for
    it. *)
Lemma stable_sort_pair (x y : A) :
  stable_sort compare [x; y]
  = if Qlt_le_dec (compare y x) 0 then [y; x] else [x; y].
Proof. reflexivity. Qed.

(** A comparison that changes sign when its arguments are swapped is
    consistent on any two elements. *)
Lemma consistent_pair (x y : A) :
  (forall a b, compare b a == - compare a b) -> consistent compare [x; y].
Proof.
  intros Hodd.
  pose proof (Hodd x x). pose proof (Hodd y y). pose proof (Hodd x y).
  unfold consistent.
  repeat split; intros;
    repeat match goal with
      | H : _ ∈ _ :: _ |- _ => apply elem_of_cons in H as [-> | H]
      | H : _ ∈ [] |- _ => now apply not_elem_of_nil in H
      end; Lqa.lra.
Qed.

Section Consistent.
Variable l : list A.
Hypothesis Hconsistent : consistent compare l.

Lemma consistent_asymmetric (x y : A) :
  x ∈ l -> y ∈ l -> compare x y < 0 -> 0 < compare y x.
Proof.
  destruct Hconsistent as (Hrefl & Hsym & _ & Hlt & _).
  intros Hx Hy Hxy.
  destruct (Q_dec (compare y x) 0) as [[Hneg | Hpos] | Hzero]; [| assumption |].
  - pose proof (Hlt x y x Hx Hy Hx Hxy Hneg). pose proof (Hrefl x Hx). Lqa.lra.
  - pose proof (Hsym y x Hy Hx Hzero). Lqa.lra.
Qed.

Lemma consistent_asymmetric_gt (x y : A) :
  x ∈ l -> y ∈ l -> 0 < compare x y -> compare y x < 0.
Proof.
  destruct Hconsistent as (Hrefl & Hsym & _ & _ & Hgt).
  intros Hx Hy Hxy.
  destruct (Q_dec (compare y x) 0) as [[Hneg | Hpos] | Hzero]; [assumption | |].
  - pose proof (Hgt x y x Hx Hy Hx Hxy Hpos). pose proof (Hrefl x Hx). Lqa.lra.
  - pose proof (Hsym y x Hy Hx Hzero). Lqa.lra.
Qed.

(** On a consistent comparison, to stand before is transitive. *)
Lemma consistent_transitive (x y z : A) :
  x ∈ l -> y ∈ l -> z ∈ l ->
  may_precede compare x y -> may_precede compare y z -> may_precede compare x z.
Proof.
  destruct Hconsistent as (Hrefl & Hsym & Heq & Hlt & Hgt).
  unfold may_precede. intros Hx Hy Hz Hyx Hzy.
  apply Qnot_lt_le. intros Hzx.
  destruct (Q_dec (compare z y) 0) as [[Hzy' | Hzy'] | Hzy']; [Lqa.lra | |];
    destruct (Q_dec (compare y x) 0) as [[Hyx' | Hyx'] | Hyx']; try Lqa.lra.
  - pose proof (Hgt z y x Hz Hy Hx Hzy' Hyx'). Lqa.lra.
  - pose proof (consistent_asymmetric_gt z y Hz Hy Hzy') as Hyz.
    pose proof (Hlt y z x Hy Hz Hx Hyz Hzx). Lqa.lra.
  - pose proof (consistent_asymmetric_gt y x Hy Hx Hyx') as Hxy.
    pose proof (Hlt z x y Hz Hx Hy Hzx Hxy). Lqa.lra.
  - pose proof (Heq z y x Hz Hy Hx Hzy' Hyx'). Lqa.lra.
Qed.

Lemma insert_sorted (x : A) (sorted : list A) :
  x ∈ l -> (forall y, y ∈ sorted -> y ∈ l) ->
  StronglySorted (may_precede compare) sorted ->
  StronglySorted (may_precede compare) (insert compare x sorted).
Proof.
  intros Hx Hsub Hs. induction Hs as [| y sorted Hs IHs Hy]; simpl.
  - repeat constructor.
  - assert (Hyl : y ∈ l) by (apply Hsub; left).
    destruct (Qlt_le_dec (compare x y) 0) as [Hlt | Hle].
    + constructor; [now constructor |].
      assert (Hxy : may_precede compare x y)
        by (apply Qlt_le_weak; now apply consistent_asymmetric).
      constructor; [assumption |].
      rewrite Forall_forall in *. intros z Hz.
      apply (consistent_transitive x y z); auto.
      apply Hsub. now right.
    + constructor.
      * apply IHs. intros z Hz. apply Hsub. now right.
      * rewrite Forall_forall in *. intros z Hz.
        rewrite insert_permutation in Hz. apply elem_of_cons in Hz as [-> | Hz];
          [exact Hle | auto].
Qed.

(** When the comparison is consistent on the list, every element of the
    sorted list may precede all that follow it. *)
Lemma stable_sort_sorted : StronglySorted (may_precede compare) (stable_sort compare l).
Proof.
  unfold stable_sort.
  assert (Hgen : forall rest sorted,
             (forall y, y ∈ rest -> y ∈ l) ->
             (forall y, y ∈ sorted -> y ∈ l) ->
             StronglySorted (may_precede compare) sorted ->
             StronglySorted (may_precede compare)
               (fold_left (fun s x => insert compare x s) rest sorted)).
  { induction rest as [| x rest IHr]; intros sorted Hrest Hsub Hs; simpl;
      [assumption |].
    apply IHr.
    - intros y Hy. apply Hrest. now right.
    - intros y Hy. rewrite insert_permutation in Hy.
      apply elem_of_cons in Hy as [-> | Hy]; [apply Hrest; left | auto].
    - apply insert_sorted; auto. apply Hrest. left. }
  apply Hgen; [auto | | constructor].
  intros y Hy. now apply not_elem_of_nil in Hy.
Qed.
End Consistent.

Lemma insert_after (x : A) (sorted : list A) :
  Forall (fun y => may_precede compare y x) sorted ->
  insert compare x sorted = sorted ++ [x].
Proof.
  induction 1 as [| y sorted Hy _ IH]; [reflexivity |]. simpl.
  destruct (Qlt_le_dec (compare x y) 0) as [Hlt | _].
  - unfold may_precede in Hy. Lqa.lra.
  - now rewrite IH.
Qed.

(** A list in which every element may precede all that follow it is left
    as it is. *)
Lemma stable_sort_ranked (l : list A) :
  StronglySorted (may_precede compare) l -> stable_sort compare l = l.
Proof.
  intros Hs. unfold stable_sort.
  assert (Hgen : forall rest sorted,
             StronglySorted (may_precede compare) rest ->
             Forall (fun y => Forall (may_precede compare y) rest) sorted ->
             fold_left (fun s x => insert compare x s) rest sorted = sorted ++ rest).
  { induction rest as [| x rest IHr]; intros sorted Hrest Hbefore; simpl.
    - now rewrite app_nil_r.
    - apply StronglySorted_inv in Hrest as [Hrest Hx].
      rewrite insert_after.
      + rewrite IHr, <- app_assoc; [reflexivity | assumption |].
        apply Forall_app. split.
        * eapply Forall_impl; [exact Hbefore |]. intros y Hy.
          now apply Forall_inv_tail in Hy.
        * now constructor.
      + eapply Forall_impl; [exact Hbefore |]. intros y Hy.
        now apply Forall_inv in Hy. }
  now apply (Hgen l []).
Qed.
End SortFacts.

(** An engine that sorts by insertion whatever the comparison, to run the
    examples on. *)
Definition insertion : PeerNetwork.Engine :=
  {| PeerNetwork.Array_sort := fun A => PeerNetwork.stable_sort;
     PeerNetwork.Array_sort_permutation := fun A => stable_sort_permutation;
     PeerNetwork.Array_sort_consistent := fun A compare l _ => eq_refl |}.

Section CompareFacts.
Import PeerNetwork.
Local Open Scope Q_scope.

(** Swapping the routes changes the sign of the comparison. *)
Lemma compareRoutes_opp (a b : Metric) : compareRoutes b a == - compareRoutes a b.
Proof.
  unfold compareRoutes.
  rewrite (sub_opp (strength b) (strength a)), (sub_opp (latency a) (latency b)).
  set (diff := Number.sub (strength b) (strength a)).
  pose proof (Qabs_opp diff) as Habs.
  destruct (Qlt_le_dec _ (Qabs (- diff))), (Qlt_le_dec _ (Qabs diff));
    try reflexivity; Lqa.lra.
Qed.

Lemma compareRoutes_far (a b : Metric) :
  Number.double 0.1 < Qabs (Number.sub (strength b) (strength a)) ->
  compareRoutes a b = Number.sub (strength b) (strength a).
Proof.
  intros Hfar. unfold compareRoutes.
  destruct (Qlt_le_dec _ _) as [_ | Hle];
    [reflexivity | exfalso; now apply (Qlt_not_le _ _ Hfar)].
Qed.

Lemma compareRoutes_near (a b : Metric) :
  Qabs (Number.sub (strength b) (strength a)) <= Number.double 0.1 ->
  compareRoutes a b = Number.sub (latency a) (latency b).
Proof.
  intros Hnear. unfold compareRoutes.
  destruct (Qlt_le_dec _ _) as [Hlt | _];
    [exfalso; now apply (Qlt_not_le _ _ Hlt) | reflexivity].
Qed.

Context {engine : Engine}.

Lemma optimizeRoutes_lookup (L : string -> Q) (net : Network) (peerId : string) :
  routes (optimizeRoutes L net) !! peerId
  = (fun rs => map route (Array_sort compareRoutes (map (metric_of L net) rs)))
      <$> routes net !! peerId.
Proof. unfold optimizeRoutes. cbn [routes]. now rewrite lookup_fmap. Qed.
End CompareFacts.

Section RoutingFacts.
Import PeerNetwork.
Context {engine : Engine}.
Local Open Scope Q_scope.

(** C8, as the code has it.  The routes of a peer are sorted with the
    comparison of [optimizeRoutes], on doubles.  When that comparison is
    consistent on them, the result is their stable sort: the same routes,
    none standing behind a route that the comparison puts after it.  Two
    routes are always so: when the strengths differ by more than the double
    of 0.1 the stronger one is first, and otherwise, the strengths being
    tied, the one whose latency is lower, the order being kept when the
    difference of the latencies is zero. *)
Theorem optimizeRoutes_ranks_consistent_routes
    (_calculateQuantumLatency : string -> Q) (net : Network) (peerId : string)
    (rs : list string) :
  routes net !! peerId = Some rs ->
  let metrics := map (metric_of _calculateQuantumLatency net) rs in
  let ranked := routes (optimizeRoutes _calculateQuantumLatency net) !! peerId in
  (consistent compareRoutes metrics ->
     ranked = Some (map route (stable_sort compareRoutes metrics))
     /\ stable_sort compareRoutes metrics ≡ₚ metrics
     /\ StronglySorted (may_precede compareRoutes) (stable_sort compareRoutes metrics))
  /\ forall r1 r2, rs = [r1; r2] ->
       let s1 := default 0 (entanglementStrength net !! r1) in
       let s2 := default 0 (entanglementStrength net !! r2) in
       let l1 := _calculateQuantumLatency r1 in
       let l2 := _calculateQuantumLatency r2 in
       let far := Number.double 0.1 < Qabs (Number.sub s1 s2) in
       let tied := Qabs (Number.sub s1 s2) <= Number.double 0.1 in
       (far -> Number.double s1 < Number.double s2 -> ranked = Some [r2; r1]) /\
       (far -> Number.double s2 < Number.double s1 -> ranked = Some [r1; r2]) /\
       (tied -> Number.sub l2 l1 < 0 -> ranked = Some [r2; r1]) /\
       (tied -> 0 <= Number.sub l2 l1 -> ranked = Some [r1; r2]).
Proof.
  intros Hroutes metrics ranked.
  assert (Hranked : ranked = Some (map route (Array_sort compareRoutes metrics)))
    by (subst ranked; now rewrite optimizeRoutes_lookup, Hroutes).
  split.
  - intros Hcons. rewrite Hranked, (Array_sort_consistent _ _ _ Hcons).
    split; [reflexivity |]. split.
    + apply stable_sort_permutation.
    + now apply stable_sort_sorted.
  - intros r1 r2 -> s1 s2 l1 l2 far tied.
    rewrite Hranked, Array_sort_consistent
      by (apply consistent_pair, compareRoutes_opp).
    subst metrics. cbn [map]. rewrite stable_sort_pair. clear Hranked.
    set (m1 := metric_of _ _ r1). set (m2 := metric_of _ _ r2).
    pose proof tenth_positive as Htenth.
    repeat split; intros Hs Hl.
    + rewrite (compareRoutes_far m2 m1) by exact Hs.
      pose proof (sub_of_less s1 s2 Hl) as Hle. change (strength m1) with s1.
      change (strength m2) with s2.
      destruct (Qlt_le_dec (Number.sub s1 s2) 0) as [_ | Hge]; [reflexivity |].
      exfalso. assert (Hz : Number.sub s1 s2 == 0) by Lqa.lra.
      unfold far in Hs. rewrite Hz in Hs. change (Qabs 0) with 0 in Hs.
      Lqa.lra.
    + rewrite (compareRoutes_far m2 m1) by exact Hs.
      pose proof (sub_of_more s1 s2 Hl) as Hge. change (strength m1) with s1.
      change (strength m2) with s2.
      destruct (Qlt_le_dec (Number.sub s1 s2) 0) as [Hlt | _];
        [Lqa.lra | reflexivity].
    + rewrite (compareRoutes_near m2 m1) by exact Hs.
      change (latency m2) with l2. change (latency m1) with l1.
      destruct (Qlt_le_dec (Number.sub l2 l1) 0); [reflexivity | Lqa.lra].
    + rewrite (compareRoutes_near m2 m1) by exact Hs.
      change (latency m2) with l2. change (latency m1) with l1.
      destruct (Qlt_le_dec (Number.sub l2 l1) 0); [Lqa.lra | reflexivity].
Qed.
End RoutingFacts.

Section RoutingExamples.
Import PeerNetwork.
Local Open Scope Q_scope.

(** The example of the specification: strengths 0.81 and 0.79, tied, and
    the route of 30 ms first. *)
Lemma optimizeRoutes_ranks_consistent_routes_witness :
  routes two_routes !! "peer" = Some ["slow"; "fast"] /\
  Qabs (Number.sub 0.81 0.79) <= Number.double 0.1 /\
  Number.sub (latencies "fast") (latencies "slow") < 0 /\
  routes (optimizeRoutes (engine := insertion) latencies two_routes) !! "peer"
  = Some ["fast"; "slow"].
Proof.
  assert (H1 : routes two_routes !! "peer" = Some ["slow"; "fast"])
    by reflexivity.
  assert (H2 : Qabs (Number.sub 0.81 0.79) <= Number.double 0.1)
    by (vm_compute; discriminate).
  assert (H3 : Number.sub (latencies "fast") (latencies "slow") < 0)
    by (vm_compute; reflexivity).
  exact (conj H1 (conj H2 (conj H3
           (proj1 (proj2 (proj2
              (proj2 (optimizeRoutes_ranks_consistent_routes (engine := insertion)
                        latencies two_routes "peer" ["slow"; "fast"] H1)
                 "slow" "fast" eq_refl))) H2 H3)))).
Defined.

(** Strengths of 0.3 and 0.4 are not tied: on doubles their difference is
    more than the double of 0.1, and the stronger route goes first though
    it is the slower. *)
Example a_tenth_apart_is_not_tied :
  Number.double 0.1 < Qabs (Number.sub 0.3 0.4)
  /\ routes (optimizeRoutes (engine := insertion) tenth_latencies tenth_apart)
       !! "peer"
     = Some ["b"; "a"].
Proof. split; vm_compute; reflexivity. Qed.

(** Against C8: three routes, each tied with the next and slower than it,
    the first stronger than the last by more than a tenth.  Whatever the
    engine, the order [optimizeRoutes] leaves them in is not the one the
    rule asks for: no order of the three is. *)
Lemma three_routes_have_no_ranking :
  ~ exists (engine : Engine) (rs : list string),
      routes (optimizeRoutes three_latencies three_routes) !! "peer" = Some rs
      /\ ranked_by_rule (map (metric_of three_latencies three_routes) rs) = true.
Proof.
  intros (engine & rs & Hrs & Hrule).
  assert (Hpeer : routes three_routes !! "peer" = Some ["a"; "b"; "c"])
    by reflexivity.
  rewrite optimizeRoutes_lookup, Hpeer in Hrs. injection Hrs as <-.
  match type of Hrule with
  | context [Array_sort compareRoutes ?metrics] =>
      assert (Hperm : ["a"; "b"; "c"] ≡ₚ map route (Array_sort compareRoutes metrics))
        by (rewrite (Array_sort_permutation _ compareRoutes metrics); reflexivity)
  end.
  apply permutations_Permutation, list_elem_of_In in Hperm.
  assert (Hall : forallb
                   (fun rs => negb (ranked_by_rule
                                      (map (metric_of three_latencies three_routes) rs)))
                   (permutations ["a"; "b"; "c"]) = true)
    by (vm_compute; reflexivity).
  rewrite forallb_forall in Hall. specialize (Hall _ Hperm). cbv beta in Hall.
  rewrite Hrule in Hall. discriminate.
Qed.
End RoutingExamples.

(** ** The quantum router: paths to a peer *)
Section FindPathFacts.
Import PeerNetwork.
Variables (net : Network) (target : string).
Implicit Types (st : Search) (x : string) (fuel : nat) (path : list string) (q : Q).

Lemma elem_of_all_peers (y : string) :
  y ∈ all_peers net <-> exists x, hop net x y.
Proof.
  unfold all_peers, hop, neighbours. rewrite elem_of_union_list. split.
  - intros (X & HX & Hy). apply list_elem_of_fmap in HX as ([k l] & -> & Hkl).
    apply elem_of_map_to_list in Hkl. apply elem_of_list_to_set in Hy.
    exists k. now rewrite Hkl.
  - intros (x & Hy). destruct (routes net !! x) as [l |] eqn:Hl; simpl in Hy.
    + exists (list_to_set l). split; [| now apply elem_of_list_to_set].
      apply list_elem_of_fmap. exists (x, l). split; [reflexivity |].
      now apply elem_of_map_to_list.
    + now apply not_elem_of_nil in Hy.
Qed.

Lemma hop_in_nodes x y : hop net x y -> y ∈ nodes net.
Proof. intros Hxy. unfold nodes. apply elem_of_union_r, elem_of_all_peers. eauto. Qed.

Lemma traverse_unfold fuel x path q st :
  traverse net target (S fuel) x path q st
  = if String.eqb x target then
      Some (JsMap.set (join path) q (fst st), snd st)
    else if decide (x ∈ snd st) then Some st
    else fold_left (visit net target fuel path q) (neighbours net x)
           (Some (fst st, {[x]} ∪ snd st)).
Proof. reflexivity. Qed.

Lemma fold_visit_None fuel path q (peers : list string) :
  fold_left (visit net target fuel path q) peers None = None.
Proof. induction peers; simpl; auto. Qed.

(** The visited set only grows, and the traversal of a node other than the
    target leaves it visited. *)
Lemma traverse_visited_grows fuel x path q st st' :
  traverse net target fuel x path q st = Some st' ->
  snd st ⊆ snd st' /\ (x <> target -> x ∈ snd st').
Proof.
  revert x path q st st'. induction fuel as [| fuel IHf];
    intros x path q st st' Hrun; [discriminate |].
  rewrite traverse_unfold in Hrun.
  destruct (String.eqb_spec x target) as [-> | Hne].
  { injection Hrun as <-. simpl. split; [done | congruence]. }
  destruct (decide (x ∈ snd st)) as [Hin | Hnin].
  { injection Hrun as <-. split; [done | auto]. }
  assert (Hfold : forall peers st0 st1,
             fold_left (visit net target fuel path q) peers (Some st0) = Some st1 ->
             snd st0 ⊆ snd st1).
  { induction peers as [| p peers IHp]; intros st0 st1 Hf; simpl in Hf.
    - injection Hf as <-. done.
    - destruct (traverse net target fuel p (path ++ [p]) (q * strengthOf net p)%Q st0)
        as [st2 |] eqn:Hp.
      + apply IHf in Hp as [Hsub _]. apply IHp in Hf. set_solver.
      + now rewrite fold_visit_None in Hf. }
  apply Hfold in Hrun. simpl in Hrun. set_solver.
Qed.

(** A node that is already visited is not traversed again, whatever the
    branch it is met on. *)
Lemma traverse_visited_again fuel x path q st :
  x <> target -> x ∈ snd st ->
  traverse net target (S fuel) x path q st = Some st.
Proof.
  intros Hne Hin. rewrite traverse_unfold.
  destruct (String.eqb_spec x target); [contradiction |].
  now rewrite decide_True.
Qed.

(** Reaching the target records the path and goes no further. *)
Lemma traverse_target fuel path q st :
  traverse net target (S fuel) target path q st
  = Some (JsMap.set (join path) q (fst st), snd st).
Proof. rewrite traverse_unfold. now rewrite String.eqb_refl. Qed.

(** The traversal returns when its depth may reach the number of nodes
    not visited yet. *)
Lemma traverse_returns fuel x path q st :
  x ∈ nodes net -> (size (nodes net ∖ snd st) < fuel)%nat ->
  exists st', traverse net target fuel x path q st = Some st'.
Proof.
  revert x path q st. induction fuel as [| fuel IHf];
    intros x path q st Hx Hsize; [lia |].
  rewrite traverse_unfold.
  destruct (String.eqb_spec x target) as [-> | Hne]; [eauto |].
  destruct (decide (x ∈ snd st)) as [Hin | Hnin]; [eauto |].
  assert (Hless : (size (nodes net ∖ ({[x]} ∪ snd st)) < fuel)%nat).
  { assert (nodes net ∖ ({[x]} ∪ snd st) ⊂ nodes net ∖ snd st) as Hsub
      by set_solver.
    apply subset_size in Hsub. lia. }
  assert (Hfold : forall peers st0,
             (forall p, p ∈ peers -> p ∈ nodes net) ->
             (size (nodes net ∖ snd st0) < fuel)%nat ->
             exists st1, fold_left (visit net target fuel path q) peers (Some st0) = Some st1).
  { induction peers as [| p peers IHp]; intros st0 Hpeers Hs0; simpl; [eauto |].
    destruct (IHf p (path ++ [p]) (q * strengthOf net p)%Q st0) as [st2 Hp];
      [apply Hpeers; left | assumption |].
    rewrite Hp. apply IHp; [intros; apply Hpeers; now right |].
    apply traverse_visited_grows in Hp as [Hsub _].
    assert (nodes net ∖ snd st2 ⊆ nodes net ∖ snd st0) as Hsub' by set_solver.
    apply subseteq_size in Hsub'. lia. }
  apply Hfold; [| assumption].
  intros p Hp. now apply (hop_in_nodes x).
Qed.

(** More fuel does not change what is returned. *)
Lemma traverse_fuel_monotone fuel fuel' x path q st st' :
  (fuel <= fuel')%nat ->
  traverse net target fuel x path q st = Some st' ->
  traverse net target fuel' x path q st = Some st'.
Proof.
  revert fuel' x path q st st'. induction fuel as [| fuel IHf];
    intros fuel' x path q st st' Hle Hrun; [discriminate |].
  destruct fuel' as [| fuel']; [lia |].
  rewrite traverse_unfold in *.
  destruct (String.eqb x target); [assumption |].
  destruct (decide (x ∈ snd st)); [assumption |].
  revert Hrun. generalize (Some (fst st, {[x]} ∪ snd st)).
  induction (neighbours net x) as [| p peers IHp]; intros acc Hrun; [assumption |].
  simpl in *. destruct acc as [st0 |]; simpl in *.
  - destruct (traverse net target fuel p (path ++ [p]) (q * strengthOf net p)%Q st0)
      as [st2 |] eqn:Hp.
    + rewrite (IHf fuel' _ _ _ _ _ ltac:(lia) Hp). now apply IHp.
    + now rewrite fold_visit_None in Hrun.
  - now rewrite fold_visit_None in Hrun.
Qed.

(** Nothing is recorded on the way to a target that cannot be reached. *)
Lemma traverse_unreachable fuel x path q st st' :
  rtc (hop net) (self_id net) x -> ~ reachable net target ->
  traverse net target fuel x path q st = Some st' -> fst st' = fst st.
Proof.
  intros Hx Hun. revert x path q st st' Hx. induction fuel as [| fuel IHf];
    intros x path q st st' Hx Hrun; [discriminate |].
  rewrite traverse_unfold in Hrun.
  destruct (String.eqb_spec x target) as [-> | Hne]; [contradiction |].
  destruct (decide (x ∈ snd st)); [now injection Hrun as <- |].
  assert (Hfold : forall peers st0 st1,
             (forall p, p ∈ peers -> hop net x p) ->
             fold_left (visit net target fuel path q) peers (Some st0) = Some st1 ->
             fst st1 = fst st0).
  { induction peers as [| p peers IHp]; intros st0 st1 Hpeers Hf; simpl in Hf.
    - now injection Hf as <-.
    - destruct (traverse net target fuel p (path ++ [p]) (q * strengthOf net p)%Q st0)
        as [st2 |] eqn:Hp.
      + apply IHf in Hp; [| eapply rtc_r; [exact Hx | apply Hpeers; left]].
        rewrite <- Hp. apply IHp; [intros; apply Hpeers; now right | assumption].
      + now rewrite fold_visit_None in Hf. }
  apply Hfold in Hrun; [assumption | auto].
Qed.

(** C9, as the code has it.  [findPath] returns, with an empty map when
    the target cannot be reached; and the visited set is one for the whole
    traversal: a node other than the target, once traversed, stays
    visited, and meeting it again, on whatever branch and with whatever
    path, records nothing and visits nothing. *)
Theorem findPath_marks_nodes_once :
  (exists paths,
      findPath net (S (size (nodes net))) target = Some paths /\
      (~ reachable net target -> paths = []))
  /\ (forall fuel x path q st st',
        x <> target ->
        traverse net target fuel x path q st = Some st' ->
        x ∈ snd st' /\
        forall fuel' path' q' st'',
          snd st' ⊆ snd st'' ->
          traverse net target (S fuel') x path' q' st'' = Some st'').
Proof.
  split.
  - destruct (traverse_returns (S (size (nodes net))) (self_id net) [] 1%Q
                (JsMap.empty, ∅)) as [st' Hrun].
    + unfold nodes. set_solver.
    + cbn [snd]. apply Nat.lt_succ_r, subseteq_size. set_solver.
    + exists (fst st'). unfold findPath. rewrite Hrun. split; [reflexivity |].
      intros Hun. now apply (traverse_unreachable _ _ _ _ _ _ (rtc_refl _ _) Hun Hrun).
  - intros fuel x path q st st' Hne Hrun.
    apply traverse_visited_grows in Hrun as [_ Hin]. split; [auto |].
    intros fuel' path' q' st'' Hsub. apply traverse_visited_again; [assumption |].
    apply Hsub. auto.
Qed.

(** Once [findPath] has returned a map, more fuel gives the same map. *)
Lemma findPath_fuel_monotone fuel fuel' (paths : list (string * Q)) :
  (fuel <= fuel')%nat ->
  findPath net fuel target = Some paths ->
  findPath net fuel' target = Some paths.
Proof.
  unfold findPath. intros Hle Hrun.
  destruct (traverse net target fuel (self_id net) [] 1%Q (JsMap.empty, ∅))
    as [st |] eqn:Hst; [| discriminate].
  now rewrite (traverse_fuel_monotone _ _ _ _ _ _ _ Hle Hst).
Qed.
End FindPathFacts.

Section FindPathExamples.
Import PeerNetwork.

(** Against C9: in the diamond the target is reached through [A] and [C];
    the path through [B] and [C], every hop of which is in the routing
    table, is not in the map, for [C] was visited on the first branch. *)
Lemma shared_node_hides_second_path :
  findPath diamond 6 "T" = Some [("A->C->T", 0.45%Q)]
  /\ hop diamond "S" "B" /\ hop diamond "B" "C" /\ hop diamond "C" "T"
  /\ JsMap.get "B->C->T" [("A->C->T", 0.45%Q)] = None.
Proof.
  split; [vm_compute; reflexivity |].
  repeat split; unfold hop, neighbours;
    apply (bool_decide_unpack _); vm_compute; exact I.
Qed.

(** A target the routing table does not lead to. *)
Example unreachable_target_has_no_path : findPath diamond 6 "Z" = Some [].
Proof. vm_compute. reflexivity. Qed.
End FindPathExamples.


(** * Further properties of the code *)

(** ** [findPath]: what is recorded, and when *)
Section FindPathMore.
Import PeerNetwork.
Variables (net : Network) (target : string).
Implicit Types (st : Search) (x : string) (fuel : nat) (path : list string) (q : Q).

Lemma walk_rtc x (hops : list string) :
  walk net x hops -> forall y, last (x :: hops) = Some y -> rtc (hop net) x y.
Proof.
  revert x. induction hops as [| p hops IH]; intros x Hw y Hy.
  - injection Hy as <-. apply rtc_refl.
  - destruct Hw as [Hxp Hw]. eapply rtc_l; [exact Hxp |]. now apply IH.
Qed.

Lemma set_nonempty {V} (k : string) (v : V) (m : list (string * V)) :
  JsMap.set k v m <> [].
Proof. destruct m as [| [k' v'] m]; simpl; [| destruct (String.eqb k k')]; discriminate. Qed.

(** Whatever a traversal adds to the map is the walk it followed. *)
Lemma traverse_records_walks fuel x path q st st' (k : string) (v : Q) :
  traverse net target fuel x path q st = Some st' ->
  JsMap.get k (fst st') = Some v ->
  JsMap.get k (fst st) = Some v
  \/ exists hops,
       walk net x hops /\ last (x :: hops) = Some target
       /\ k = join (path ++ hops) /\ v = strength_along net q hops.
Proof.
  revert x path q st st'. induction fuel as [| fuel IHf];
    intros x path q st st' Hrun Hget; [discriminate |].
  rewrite traverse_unfold in Hrun.
  destruct (String.eqb_spec x target) as [-> | Hne].
  { injection Hrun as <-. cbn [fst] in Hget.
    destruct (String.eqb_spec k (join path)) as [-> | Hk].
    - rewrite get_set_same in Hget. injection Hget as <-.
      right. exists []. rewrite app_nil_r. repeat split.
    - rewrite get_set_other in Hget by assumption. now left. }
  destruct (decide (x ∈ snd st)); [injection Hrun as <-; now left |].
  assert (Hfold : forall peers st0,
             (forall p, p ∈ peers -> hop net x p) ->
             fold_left (visit net target fuel path q) peers (Some st0) = Some st' ->
             JsMap.get k (fst st0) = Some v
             \/ exists hops,
                  walk net x hops /\ last (x :: hops) = Some target
                  /\ k = join (path ++ hops) /\ v = strength_along net q hops).
  { induction peers as [| p peers IHp]; intros st0 Hpeers Hf; simpl in Hf.
    - injection Hf as <-. now left.
    - destruct (traverse net target fuel p (path ++ [p]) (q * strengthOf net p)%Q st0)
        as [st2 |] eqn:Hp; [| now rewrite fold_visit_None in Hf].
      destruct (IHp st2 ltac:(intros; apply Hpeers; now right) Hf)
        as [Hget2 | Hfound]; [| now right].
      destruct (IHf _ _ _ _ _ Hp Hget2) as [Hget0 | (hops & Hw & Hl & -> & ->)];
        [now left | right].
      exists (p :: hops). repeat split.
      + apply Hpeers. left.
      + exact Hw.
      + exact Hl.
      + now rewrite <- app_assoc.  }
  apply Hfold in Hrun; [| auto]. destruct Hrun as [Hget0 | Hfound]; auto.
Qed.

(** What a traversal leaves behind: every node it newly visited has each
    of its peers either visited as well, or the target, and then a path
    is recorded. *)
Lemma traverse_explores fuel x path q st st' :
  traverse net target fuel x path q st = Some st' ->
  (fst st <> [] -> fst st' <> [])
  /\ (x = target -> fst st' <> [])
  /\ (forall y z, y ∈ snd st' -> y ∉ snd st -> hop net y z ->
        (z = target /\ fst st' <> []) \/ (z <> target /\ z ∈ snd st')).
Proof.
  revert x path q st st'. induction fuel as [| fuel IHf];
    intros x path q st st' Hrun; [discriminate |].
  rewrite traverse_unfold in Hrun.
  destruct (String.eqb_spec x target) as [-> | Hne].
  { injection Hrun as <-. cbn [fst snd].
    repeat split; try (intros; apply set_nonempty). intros; contradiction. }
  destruct (decide (x ∈ snd st)) as [Hin | Hnin].
  { injection Hrun as <-. repeat split; [auto | contradiction | intros; contradiction]. }
  assert (Hfold : forall peers st0 st1,
             fold_left (visit net target fuel path q) peers (Some st0) = Some st1 ->
             (fst st0 <> [] -> fst st1 <> [])
             /\ snd st0 ⊆ snd st1
             /\ (forall p, p ∈ peers ->
                   (p = target /\ fst st1 <> []) \/ (p <> target /\ p ∈ snd st1))
             /\ (forall y z, y ∈ snd st1 -> y ∉ snd st0 -> hop net y z ->
                   (z = target /\ fst st1 <> []) \/ (z <> target /\ z ∈ snd st1))).
  { induction peers as [| p peers IHp]; intros st0 st1 Hf; simpl in Hf.
    - injection Hf as <-. repeat split; auto.
      + intros p Hp. now apply not_elem_of_nil in Hp.
      + intros; contradiction.
    - destruct (traverse net target fuel p (path ++ [p]) (q * strengthOf net p)%Q st0)
        as [st2 |] eqn:Hp; [| now rewrite fold_visit_None in Hf].
      destruct (IHf _ _ _ _ _ Hp) as (Hne2 & Htgt2 & Hnew2).
      destruct (traverse_visited_grows _ _ _ _ _ _ _ _ Hp) as [Hsub2 Hvis2].
      destruct (IHp _ _ Hf) as (Hne1 & Hsub1 & Hpeers1 & Hnew1).
      split; [auto |]. split; [set_solver |]. split.
      + intros p' Hp'. apply elem_of_cons in Hp' as [-> | Hp']; [| auto].
        destruct (decide (p = target)) as [-> | Hpt]; [left | right]; auto.
      + intros y z Hy Hy0 Hyz. destruct (decide (y ∈ snd st2)) as [Hy2 | Hy2].
        * destruct (Hnew2 y z Hy2 Hy0 Hyz) as [[-> Hp2] | [Hz Hz2]]; [left | right]; auto.
        * apply (Hnew1 y z); assumption. }
  apply Hfold in Hrun. cbn [fst snd] in Hrun.
  destruct Hrun as (Hne1 & Hsub1 & Hpeers1 & Hnew1).
  split; [assumption |]. split; [contradiction |].
  intros y z Hy Hy0 Hyz. destruct (decide (y = x)) as [-> | Hyx].
  - now apply Hpeers1.
  - apply (Hnew1 y z); [assumption | set_solver | assumption].
Qed.

(** X1.  Every entry of the map [findPath] returns is a walk of the routing
    table from the node itself to the target: its key is the hops joined
    by [->], its value the product of their entanglement strengths. *)
Theorem findPath_records_walks fuel (paths : list (string * Q)) (k : string) (v : Q) :
  findPath net fuel target = Some paths ->
  JsMap.get k paths = Some v ->
  exists hops,
    walk net (self_id net) hops
    /\ last (self_id net :: hops) = Some target
    /\ k = join hops
    /\ v = strength_along net 1 hops.
Proof.
  unfold findPath. intros Hrun Hget.
  destruct (traverse net target fuel (self_id net) [] 1%Q (JsMap.empty, ∅))
    as [st' |] eqn:Hst; [| discriminate].
  injection Hrun as <-.
  destruct (traverse_records_walks _ _ _ _ _ _ _ _ Hst Hget) as [Hempty | Hfound];
    [discriminate | exact Hfound].
Qed.

(** X2.  The map [findPath] returns is non-empty exactly when the target
    can be reached through the routing table. *)
Theorem findPath_finds_reachable fuel (paths : list (string * Q)) :
  findPath net fuel target = Some paths ->
  (paths <> [] <-> reachable net target).
Proof.
  unfold findPath. intros Hrun.
  destruct (traverse net target fuel (self_id net) [] 1%Q (JsMap.empty, ∅))
    as [st' |] eqn:Hst; [| discriminate].
  injection Hrun as <-. split.
  - destruct (fst st') as [| [k v] rest] eqn:Hpaths; [congruence | intros _].
    assert (Hget : JsMap.get k (fst st') = Some v)
      by (rewrite Hpaths; simpl; now rewrite String.eqb_refl).
    destruct (traverse_records_walks _ _ _ _ _ _ _ _ Hst Hget)
      as [Hempty | (hops & Hw & Hl & _)]; [discriminate |].
    now apply (walk_rtc _ hops).
  - intros Hreach.
    destruct (traverse_explores _ _ _ _ _ _ Hst) as (_ & Htgt & Hnew).
    destruct (traverse_visited_grows _ _ _ _ _ _ _ _ Hst) as [_ Hself].
    assert (Hinv : forall y, rtc (hop net) (self_id net) y ->
                     fst st' <> [] \/ (y <> target /\ y ∈ snd st')).
    { apply (rtc_ind_r (fun y => fst st' <> [] \/ (y <> target /\ y ∈ snd st'))).
      - destruct (decide (self_id net = target)); auto.
      - intros y z Hy Hyz IHy. destruct IHy as [Hdone | [_ Hvis]]; [now left |].
        destruct (Hnew y z Hvis ltac:(set_solver) Hyz) as [[_ Hdone] | Hz]; auto. }
    destruct (Hinv target Hreach) as [Hdone | [Habs _]]; [assumption | congruence].
Qed.
End FindPathMore.

Section FindPathMoreExamples.
Import PeerNetwork.

Lemma findPath_records_walks_witness :
  exists hops,
    walk diamond (self_id diamond) hops
    /\ last (self_id diamond :: hops) = Some "T"
    /\ "A->C->T" = join hops
    /\ 0.45%Q = strength_along diamond 1 hops.
Proof.
  apply (findPath_records_walks diamond "T" 6 [("A->C->T", 0.45%Q)]);
    vm_compute; reflexivity.
Defined.

Lemma findPath_finds_reachable_witness :
  [("A->C->T", 0.45%Q)] <> [] <-> reachable diamond "T".
Proof.
  apply (findPath_finds_reachable diamond "T" 6). vm_compute. reflexivity.
Defined.
End FindPathMoreExamples.

(** ** [optimizeRoutes]: what the ranking keeps *)
Section OptimizeMore.
Import PeerNetwork.
Context {engine : Engine}.
Local Open Scope Q_scope.

Lemma map_route_metric_of (L : string -> Q) (net : Network) (rs : list string) :
  map route (map (metric_of L net) rs) = rs.
Proof. induction rs as [| r rs IH]; simpl; [| rewrite IH]; reflexivity. Qed.

Lemma optimizeRoutes_hop (L : string -> Q) (net : Network) (x y : string) :
  hop (optimizeRoutes L net) x y <-> hop net x y.
Proof.
  unfold hop, neighbours. rewrite optimizeRoutes_lookup.
  destruct (routes net !! x) as [rs |]; simpl; [| reflexivity].
  now rewrite Array_sort_permutation, map_route_metric_of.
Qed.

(** X3.  [optimizeRoutes] only reorders: the node and the strengths are
    as before, every peer keeps its routes, each as often as before, a
    peer without an entry gets none, and the same targets are reachable. *)
Theorem optimizeRoutes_only_reorders (_calculateQuantumLatency : string -> Q)
    (net : Network) :
  let net' := optimizeRoutes _calculateQuantumLatency net in
  self_id net' = self_id net
  /\ entanglementStrength net' = entanglementStrength net
  /\ (forall peerId,
        match routes net !! peerId with
        | Some rs => exists rs', routes net' !! peerId = Some rs' /\ rs' ≡ₚ rs
        | None => routes net' !! peerId = None
        end)
  /\ (forall target, reachable net' target <-> reachable net target).
Proof.
  intros net'. repeat split; try reflexivity.
  - intros peerId. subst net'. rewrite optimizeRoutes_lookup.
    destruct (routes net !! peerId) as [rs |]; simpl; [| reflexivity].
    eexists. split; [reflexivity |].
    now rewrite Array_sort_permutation, map_route_metric_of.
  - unfold reachable. subst net'. cbn [self_id optimizeRoutes].
    intros Hr. induction Hr as [| x y z Hxy _ IH]; [apply rtc_refl |].
    eapply rtc_l; [| exact IH]. now apply optimizeRoutes_hop in Hxy.
  - unfold reachable. subst net'. cbn [self_id optimizeRoutes].
    intros Hr. induction Hr as [| x y z Hxy _ IH]; [apply rtc_refl |].
    eapply rtc_l; [| exact IH]. now apply optimizeRoutes_hop.
Qed.

Lemma consistent_permutation {A : Type} (compare : A -> A -> Q) (l l' : list A) :
  l' ≡ₚ l -> consistent compare l -> consistent compare l'.
Proof.
  intros Hperm (Hrefl & Hsym & Heq & Hlt & Hgt).
  unfold consistent. setoid_rewrite Hperm. repeat split; assumption.
Qed.

Lemma rank_ranked (L : string -> Q) (net : Network) (rs : list string) :
  consistent compareRoutes (map (metric_of L net) rs) ->
  StronglySorted (may_precede compareRoutes) (map (metric_of L net) rs) ->
  map route (Array_sort compareRoutes (map (metric_of L net) rs)) = rs.
Proof.
  intros Hc Hs.
  now rewrite Array_sort_consistent, stable_sort_ranked, map_route_metric_of.
Qed.

Lemma map_metric_of_route (L : string -> Q) (net : Network) (l : list Metric) :
  (forall m, m ∈ l -> metric_of L net (route m) = m) ->
  map (metric_of L net) (map route l) = l.
Proof.
  induction l as [| m l IH]; intros Hl; simpl; [reflexivity |].
  rewrite Hl by left. rewrite IH; [reflexivity |].
  intros m' Hm'. apply Hl. now right.
Qed.

Lemma ranked_routes_fixed (L : string -> Q) (net : Network) :
  (forall peerId rs, routes net !! peerId = Some rs ->
     consistent compareRoutes (map (metric_of L net) rs)
     /\ StronglySorted (may_precede compareRoutes) (map (metric_of L net) rs)) ->
  optimizeRoutes L net = net.
Proof.
  intros Hranked. destruct net as [self rts strengths].
  unfold optimizeRoutes. cbn [self_id routes entanglementStrength]. f_equal.
  apply map_eq. intros peerId. rewrite lookup_fmap.
  destruct (rts !! peerId) as [rs |] eqn:Hrs; simpl; [| reflexivity].
  f_equal. destruct (Hranked peerId rs Hrs) as [Hc Hs].
  now apply (rank_ranked _ _ rs).
Qed.

(** X4.  Routes that are ranked already are left exactly as they are:
    each peer's list such that the comparison, on doubles, is consistent
    on it and no route has to come before one that precedes it. *)
Theorem optimizeRoutes_keeps_ranked (_calculateQuantumLatency : string -> Q)
    (net : Network) :
  (forall peerId rs, routes net !! peerId = Some rs ->
     consistent compareRoutes (map (metric_of _calculateQuantumLatency net) rs)
     /\ StronglySorted (may_precede compareRoutes)
          (map (metric_of _calculateQuantumLatency net) rs)) ->
  optimizeRoutes _calculateQuantumLatency net = net.
Proof. apply ranked_routes_fixed. Qed.

(** X5.  When the comparison is consistent on the routes of every peer,
    optimizing a second time changes nothing. *)
Theorem optimizeRoutes_idempotent (_calculateQuantumLatency : string -> Q)
    (net : Network) :
  (forall peerId rs, routes net !! peerId = Some rs ->
     consistent compareRoutes (map (metric_of _calculateQuantumLatency net) rs)) ->
  optimizeRoutes _calculateQuantumLatency
    (optimizeRoutes _calculateQuantumLatency net)
  = optimizeRoutes _calculateQuantumLatency net.
Proof.
  intros Hcons. apply ranked_routes_fixed. intros peerId rs' Hrs'.
  rewrite optimizeRoutes_lookup in Hrs'.
  destruct (routes net !! peerId) as [rs |] eqn:Hrs; [| discriminate].
  injection Hrs' as <-. specialize (Hcons peerId rs Hrs).
  set (metrics := map (metric_of _calculateQuantumLatency net) rs) in *.
  rewrite (Array_sort_consistent _ _ _ Hcons).
  change (consistent compareRoutes
            (map (metric_of _calculateQuantumLatency net)
               (map route (stable_sort compareRoutes metrics)))
          /\ StronglySorted (may_precede compareRoutes)
               (map (metric_of _calculateQuantumLatency net)
                  (map route (stable_sort compareRoutes metrics)))).
  rewrite map_metric_of_route.
  - split; [| now apply stable_sort_sorted].
    eapply consistent_permutation; [apply stable_sort_permutation | exact Hcons].
  - intros m Hm. rewrite stable_sort_permutation in Hm.
    apply list_elem_of_fmap in Hm as (r & -> & _). reflexivity.
Qed.
End OptimizeMore.

Section OptimizeMoreExamples.
Import PeerNetwork.
Local Open Scope Q_scope.

Lemma optimizeRoutes_keeps_ranked_witness :
  optimizeRoutes (engine := insertion) latencies ranked_routes = ranked_routes.
Proof.
  apply optimizeRoutes_keeps_ranked. intros peerId rs Hrs.
  unfold ranked_routes in Hrs. cbn [routes] in Hrs.
  apply lookup_singleton_Some in Hrs as [_ <-]. split.
  - apply consistent_pair, compareRoutes_opp.
  - repeat constructor. vm_compute. discriminate.
Defined.

Lemma optimizeRoutes_idempotent_witness :
  optimizeRoutes (engine := insertion) latencies
    (optimizeRoutes (engine := insertion) latencies two_routes)
  = optimizeRoutes (engine := insertion) latencies two_routes.
Proof.
  apply optimizeRoutes_idempotent. intros peerId rs Hrs.
  unfold two_routes in Hrs. cbn [routes] in Hrs.
  apply lookup_singleton_Some in Hrs as [_ <-].
  apply consistent_pair, compareRoutes_opp.
Defined.
End OptimizeMoreExamples.

(** ** The peer-message check of [ghost_net.js], in full *)
Section VerifyMore.
Import GhostNet.

Lemma byte_of_ascii_eqb (a b : ascii) :
  Byte.eqb (byte_of_ascii a) (byte_of_ascii b) = Ascii.eqb a b.
Proof.
  destruct (Ascii.eqb_spec a b) as [-> | Hne].
  - now apply Byte.byte_dec_lb.
  - destruct (Byte.eqb (byte_of_ascii a) (byte_of_ascii b)) eqn:Heq; [| reflexivity].
    apply Byte.byte_dec_bl in Heq. exfalso. apply Hne.
    rewrite <- (ascii_of_byte_of_ascii a), <- (ascii_of_byte_of_ascii b).
    now rewrite Heq.
Qed.

Lemma buffer_eqb_strings (a b : string) :
  buffer_eqb (Buffer_from_string a) (Buffer_from_string b) = String.eqb a b.
Proof.
  unfold Buffer_from_string, list_byte_of_string.
  revert b. induction a as [| x a IH]; intros [| y b]; simpl; try reflexivity.
  rewrite byte_of_ascii_eqb, IH. now destruct (Ascii.eqb x y).
Qed.

(** X6.  Within the replay window, a message with a peer identifier and a
    tag of sixty-four characters is accepted exactly when the tag is the
    hex HMAC-SHA256 of the decimal timestamp keyed by the peer identifier
    the message itself carries. *)
Theorem verify_accepts_exactly_the_timestamp_tag (cfg : Config) (now ts : Z)
    (key sig : string) :
  ts <> 0 -> Z.abs (now - ts) <= maxTimeDelta cfg ->
  String.length sig = 64%nat ->
  _verifyQuantumSignature cfg now
    {| signature := Some sig; timestamp := Some ts; peerId := Some key |}
  = Returns (String.eqb sig
               (createHmac_sha256_hex key (Buffer_from_string (pretty ts)))).
Proof.
  intros Hts Hwin Hlen. unfold _verifyQuantumSignature.
  cbn [signature timestamp peerId].
  rewrite string_eqb_empty_length by (rewrite Hlen; discriminate).
  destruct (Z.eqb_spec ts 0) as [| _]; [contradiction |]. cbn [orb].
  destruct (Z.gtb_spec (Z.abs (now - ts)) (maxTimeDelta cfg)); [lia |].
  unfold timingSafeEqual.
  rewrite !Buffer_from_string_length, Hlen, createHmac_sha256_hex_length.
  cbn [Nat.eqb]. now rewrite buffer_eqb_strings.
Qed.

Lemma verify_accepts_exactly_the_timestamp_tag_witness :
  _verifyQuantumSignature default_config 1700000000000
    {| signature :=
         Some "0000000000000000000000000000000000000000000000000000000000000000";
       timestamp := Some 1699999999000; peerId := Some "peer" |}
  = Returns (String.eqb
               "0000000000000000000000000000000000000000000000000000000000000000"
               (createHmac_sha256_hex "peer"
                  (Buffer_from_string (pretty 1699999999000)))).
Proof.
  apply verify_accepts_exactly_the_timestamp_tag;
    [discriminate | simpl; lia | reflexivity].
Defined.
End VerifyMore.

(** ** The transmission handler: cipher, creation, processing, sweep *)
Section CipherMore.
Import TransmissionHandler.

Lemma bytes_of_hex_pair (b : byte) (r : string) :
  bytes_of_hex (String (hex_digit (byte_to_Z b / 16))
                  (String (hex_digit (byte_to_Z b mod 16)) r))
  = b :: bytes_of_hex r.
Proof. destruct b; reflexivity. Qed.

(** [Buffer.from(buf.toString('hex'), 'hex')] is [buf]. *)
Lemma bytes_of_hex_of_bytes (b : Buffer) : bytes_of_hex (hex_of_bytes b) = b.
Proof.
  induction b as [| x b IH]; [reflexivity |].
  cbn [hex_of_bytes]. now rewrite bytes_of_hex_pair, IH.
Qed.

Lemma createHmac_sha512_length (key b : Buffer) :
  length (createHmac_sha512 key b) = 64%nat.
Proof. unfold createHmac_sha512, Sha2.hmac. now rewrite digest_length. Qed.

(** X7.  What [encrypt] returns is a keyed hash of sixty-four bytes,
    whatever the length of the data, and [decrypt] hashes once more: given
    the data and the [iv] that [encrypt] returned it yields the HMAC of
    that hash, sixty-four bytes again, which is never data of another
    length. *)
Theorem decrypt_never_restores (iv data key key' : Buffer) :
  let encrypted := encrypt iv data key in
  let decrypted := decrypt (fst encrypted) key' (snd encrypted) in
  length (fst encrypted) = 64%nat
  /\ decrypted
     = createHmac_sha512 key' (iv ++ createHmac_sha512 key (iv ++ data))
  /\ (length data <> 64%nat -> decrypted <> data).
Proof.
  intros encrypted decrypted. subst encrypted decrypted.
  unfold encrypt, decrypt. cbn [fst snd]. rewrite bytes_of_hex_of_bytes.
  split; [apply createHmac_sha512_length |]. split; [reflexivity |].
  intros Hlen Heq. apply Hlen. rewrite <- Heq. apply createHmac_sha512_length.
Qed.
End CipherMore.

Section HandlerMore.
Import TransmissionHandler.
Context `{Host} (_storeTransmission : Packet -> Handler -> Handler).
Implicit Types (h : Handler).

Lemma createHash_sha256_length (b : Buffer) :
  length (createHash_sha256 b) = 32%nat.
Proof. unfold createHash_sha256. now rewrite digest_length. Qed.

(** X8.  A creation always returns.  The identifier is sixty-four hex
    characters and the signature a hundred and twenty-eight; what is put
    in the pending map, under that identifier, is a digest of sixty-four
    bytes with the hex of the [iv] and the level, not the content. *)
Theorem createTransmission_stores_a_digest h (d : CreateDraws)
    (content : Content) (sender : Identity) (cs : ConsciousnessState) :
  exists t enc,
    fst (createTransmission h d content sender cs) = Returns t
    /\ String.length (t_id t) = 64%nat
    /\ String.length (t_signature t) = 128%nat
    /\ t_content t = _compressTransmission content
    /\ JsMap.get (t_id t)
         (pending (transmissionBuffers
                     (snd (createTransmission h d content sender cs))))
       = Some enc
    /\ length (e_data enc) = 64%nat
    /\ e_iv enc = hex_of_bytes (c_iv d)
    /\ e_consciousness enc = level cs.
Proof.
  unfold createTransmission, _generateQuantumSignature.
  cbn [fst snd transmissionBuffers with_buffers pending].
  eexists _, _. split; [reflexivity |].
  cbn [t_id t_signature t_content].
  split; [unfold _generateTransmissionId;
          now rewrite hex_of_bytes_length, createHash_sha256_length |].
  split; [apply createHmac_sha512_hex_length |].
  split; [reflexivity |].
  split; [apply get_set_same |].
  unfold _encryptTransmission, encrypt.
  cbn [e_data e_iv e_consciousness t_consciousness].
  split; [apply createHmac_sha512_length |]. split; reflexivity.
Qed.

(** X9.  What [createTransmission] returns cannot be processed: given to
    [processTransmission], on this node or another, the signature check
    throws a [TypeError] before anything is decrypted, and nothing is
    stored. *)
Theorem created_transmission_is_not_processable h (d : CreateDraws)
    (content : Content) (sender : Identity) (cs : ConsciousnessState) :
  exists t,
    fst (createTransmission h d content sender cs) = Returns t
    /\ forall h' (d' : ProcessDraws) (data : Buffer) (iv : string),
         processTransmission _storeTransmission h' d' (as_incoming t data iv)
         = (Throws TypeError, h').
Proof.
  destruct (createTransmission_effect h d content sender cs)
    as (t & enc & Hrun & _).
  exists t. split; [now rewrite Hrun |].
  intros h' d' data iv. unfold processTransmission.
  now rewrite (verify_throws_on_number_field _ _ _ (t_consciousness t)).
Qed.

(** X10.  Whenever [processTransmission] throws, the handler is as it was:
    every throw comes before the store. *)
Theorem processTransmission_throw_changes_nothing h (d : ProcessDraws)
    (t : Incoming) (e : JsError) :
  fst (processTransmission _storeTransmission h d t) = Throws e ->
  snd (processTransmission _storeTransmission h d t) = h.
Proof.
  unfold processTransmission.
  destruct (_verifyQuantumSignature _ _ _) as [[|] |]; try reflexivity.
  destruct (_decryptTransmission _ _); reflexivity.
Qed.
End HandlerMore.

Section HandlerMoreExamples.
Import TransmissionHandler.

Lemma processTransmission_throw_changes_nothing_witness :
  snd (processTransmission (H := TestHost.yielding echo) store_verified
         (new_handler default_config alice) other_draws signed_hi)
  = new_handler default_config alice.
Proof.
  apply (processTransmission_throw_changes_nothing (H := TestHost.yielding echo)
           store_verified _ _ _ (Error "Invalid quantum signature")).
  rewrite processTransmission_rejects; [reflexivity |].
  vm_compute. reflexivity.
Defined.
End HandlerMoreExamples.

Section SweepMore.
Import TransmissionHandler.
Implicit Types (h : Handler) (l ver arch : list (string * Packet)).

(** X11.  With a negative [maxArchiveSize] the sweep never returns,
    whatever the buffers hold: the [while] loop finds even the empty
    archive too large. *)
Theorem archive_sweep_never_ends_below_zero (fuel : nat) (now : Z) h :
  maxArchiveSize (config h) < 0 ->
  _archiveOldTransmissions fuel now h = None.
Proof.
  intros Hneg. unfold _archiveOldTransmissions.
  destruct (fold_left _ _ _) as [ver arch].
  now rewrite limit_archive_diverges.
Qed.

Lemma archive_sweep_never_ends_below_zero_witness :
  _archiveOldTransmissions 1000 1700000000000 (new_handler negative_config alice)
  = None.
Proof.
  apply archive_sweep_never_ends_below_zero. simpl. lia.
Defined.

(** When the loop ends, it has deleted the excess, oldest first. *)
Lemma limit_archive_result (fuel : nat) (maxSize : Z) arch arch' :
  JsMap.uniq arch -> 0 <= maxSize ->
  limit_archive fuel maxSize arch = Some arch' ->
  arch' = drop (length arch - Z.to_nat maxSize) arch.
Proof.
  revert arch. induction fuel as [| f IH]; intros arch Hu Hmax Hrun;
    cbn [limit_archive] in Hrun; unfold JsMap.size in Hrun;
    destruct (Z.gtb_spec (Z.of_nat (length arch)) maxSize) as [Hgt | Hle];
    try discriminate.
  - injection Hrun as <-.
    replace (length arch - Z.to_nat maxSize)%nat with 0%nat by lia. reflexivity.
  - destruct arch as [| e arch]; [simpl in Hgt; lia |].
    rewrite delete_oldest_head in Hrun by assumption.
    apply IH in Hrun; [| now apply uniq_tail in Hu | assumption].
    rewrite Hrun. simpl length in *.
    replace (S (length arch) - Z.to_nat maxSize)%nat
      with (S (length arch - Z.to_nat maxSize)) by lia.
    reflexivity.
  - injection Hrun as <-.
    replace (length arch - Z.to_nat maxSize)%nat with 0%nat by lia. reflexivity.
Qed.

Lemma filter_recent_twice th l :
  filter (fun e => ~ is_old th e) (filter (fun e => ~ is_old th e) l)
  = filter (fun e => ~ is_old th e) l.
Proof.
  induction l as [| e l IH]; [reflexivity |].
  destruct (decide (is_old th e)) as [Hold | Hrecent].
  - now rewrite filter_cons_False by tauto.
  - rewrite filter_cons_True by assumption.
    rewrite filter_cons_True by assumption. now rewrite IH.
Qed.

Lemma filter_old_of_recent th l :
  filter (is_old th) (filter (fun e => ~ is_old th e) l) = [].
Proof.
  induction l as [| e l IH]; [reflexivity |].
  destruct (decide (is_old th e)) as [Hold | Hrecent].
  - now rewrite filter_cons_False by tauto.
  - rewrite filter_cons_True by assumption.
    now rewrite filter_cons_False by assumption.
Qed.

(** X12.  A sweep that has returned leaves nothing for a second sweep at
    the same time: the second returns at once, with any fuel, and changes
    nothing. *)
Theorem archive_sweep_idempotent (fuel fuel' : nat) (now : Z) h h' :
  JsMap.uniq (verified (transmissionBuffers h)) ->
  JsMap.uniq (archived (transmissionBuffers h)) ->
  0 <= maxArchiveSize (config h) ->
  _archiveOldTransmissions fuel now h = Some h' ->
  _archiveOldTransmissions fuel' now h' = Some h'.
Proof.
  intros Hver Harch Hmax Hrun.
  unfold _archiveOldTransmissions in Hrun.
  pose proof (fold_archive_entry (now - archiveAge (config h))
                (verified (transmissionBuffers h)) []
                (archived (transmissionBuffers h)) Hver) as Hfold.
  simpl app in Hfold. rewrite Hfold in Hrun. clear Hfold.
  set (th := now - archiveAge (config h)) in *.
  set (moved := archive_all _ _) in Hrun.
  destruct (limit_archive fuel (maxArchiveSize (config h)) moved)
    as [arch' |] eqn:Hlimit; [| discriminate].
  injection Hrun as <-.
  assert (Hmoved : JsMap.uniq moved) by now apply uniq_archive_all.
  apply limit_archive_result in Hlimit; [| assumption | assumption].
  assert (Hsize : Z.of_nat (length arch') <= maxArchiveSize (config h))
    by (rewrite Hlimit, length_drop; lia).
  unfold _archiveOldTransmissions.
  cbn [transmissionBuffers with_buffers config verified archived pending].
  fold th.
  assert (Hrecent : JsMap.uniq (filter (fun e => ~ is_old th e)
                                  (verified (transmissionBuffers h))))
    by (eapply uniq_sublist; [apply sublist_filter | exact Hver]).
  pose proof (fold_archive_entry th _ [] arch' Hrecent) as Hfold.
  simpl app in Hfold. rewrite Hfold. clear Hfold.
  rewrite filter_recent_twice, filter_old_of_recent. cbn [archive_all fold_left].
  assert (Hstop : limit_archive fuel' (maxArchiveSize (config h)) arch' = Some arch').
  { destruct fuel'; cbn [limit_archive]; unfold JsMap.size;
      destruct (Z.gtb_spec (Z.of_nat (length arch')) (maxArchiveSize (config h)));
      try lia; reflexivity. }
  rewrite Hstop. reflexivity.
Qed.

Lemma archive_sweep_idempotent_witness :
  _archiveOldTransmissions 0 10000 swept = Some swept.
Proof.
  apply (archive_sweep_idempotent 1 0 10000 crowded swept
           (proj1 crowded_uniq) (proj2 crowded_uniq) ltac:(simpl; lia)).
  vm_compute. reflexivity.
Defined.
End SweepMore.

(** ** Metrics of the transmission handler *)
Section SamplesFacts.
Import Samples.
Context {A : Type}.

Lemma copyWithin_1_0_length (samples : list A) :
  length (copyWithin_1_0 samples) = length samples.
Proof.
  destruct samples as [| x l]; [reflexivity |].
  unfold copyWithin_1_0. cbn [length]. f_equal.
  rewrite removelast_firstn_len, length_firstn. cbn [length]. lia.
Qed.

(** The shift and the write, together: the new sample goes first and the
    last one is lost. *)
Lemma set_first_copyWithin (x : A) (samples : list A) :
  set_first x (copyWithin_1_0 samples)
  = take (length samples) (x :: samples).
Proof.
  destruct samples as [| y l]; [reflexivity |].
  unfold copyWithin_1_0, set_first. cbn [length take]. f_equal.
  rewrite removelast_firstn_len. reflexivity.
Qed.
End SamplesFacts.

Section IntegrityFacts.
Import HandlerMetrics.
Local Open Scope R_scope.

(** A sum of terms, each in (0, 1]. *)
Lemma sum_of_fractions (f : nat -> R) (l : list nat) (a : R) :
  (forall i, 0 < f i <= 1) ->
  a <= fold_left (fun acc i => acc + f i) l a <= a + INR (length l)
  /\ (l <> [] -> a < fold_left (fun acc i => acc + f i) l a).
Proof.
  intros Hf. revert a. induction l as [| i l IH]; intros a.
  - simpl. split; [lra | congruence].
  - cbn [fold_left length]. destruct (IH (a + f i)) as [[Hlo Hhi] _].
    pose proof (Hf i) as Hi. rewrite S_INR. split; [lra |]. intros _. lra.
Qed.

Lemma decay_fraction (x : R) : 0 < exp (- Rabs x * 10) <= 1.
Proof.
  apply exp_nonpos_le_1. pose proof (Rabs_pos x). lra.
Qed.

(** The mean of the decayed differences of neighbouring samples. *)
Lemma decay_mean_bounds (samples : list Q) :
  (2 <= length samples)%nat ->
  0 < _calculateQuantumIntegrity samples <= 1
  /\ (forall c : Q, Forall (fun x => (x == c)%Q) samples ->
        _calculateQuantumIntegrity samples = 1).
Proof.
  intros Hlen. unfold _calculateQuantumIntegrity.
  set (f := fun i : nat =>
              exp (- Rabs (Q2R (nth i samples 0%Q) - Q2R (nth (i - 1) samples 0%Q)) * 10)).
  set (deltas := seq 1 (length samples - 1)).
  assert (Hn : INR (length samples) - 1 = INR (length deltas)).
  { unfold deltas. rewrite length_seq, minus_INR by lia. simpl. lra. }
  assert (Hpos : 0 < INR (length deltas)).
  { apply lt_0_INR. unfold deltas. rewrite length_seq. lia. }
  change (fold_left _ deltas 0) with (fold_left (fun acc i => acc + f i) deltas 0).
  rewrite Hn. split.
  - destruct (sum_of_fractions f deltas 0 (fun i => decay_fraction _))
      as [[_ Hhi] Hlo].
    assert (Hne : deltas <> []).
    { unfold deltas. destruct (length samples - 1)%nat eqn:E; [lia | discriminate]. }
    specialize (Hlo Hne). split.
    + apply Rdiv_lt_0_compat; assumption.
    + apply (Rmult_le_reg_r (INR (length deltas))); [assumption |].
      unfold Rdiv. rewrite Rmult_assoc, Rinv_l by lra. lra.
  - intros c Hc.
    assert (Hsame : forall i, Q2R (nth i samples 0%Q) - Q2R (nth (i - 1) samples 0%Q) = 0
                              \/ (length samples <= i)%nat).
    { intros i. destruct (Nat.le_gt_cases (length samples) i) as [Hi | Hi]; [now right | left].
      rewrite Forall_forall in Hc.
      assert (Hi1 : (nth i samples 0 == c)%Q)
        by (apply Hc, list_elem_of_In, nth_In; lia).
      assert (Hi0 : (nth (i - 1) samples 0 == c)%Q)
        by (apply Hc, list_elem_of_In, nth_In; lia).
      rewrite (Qreals.Qeq_eqR _ _ Hi1), (Qreals.Qeq_eqR _ _ Hi0). lra. }
    assert (Hsum : fold_left (fun acc i => acc + f i) deltas 0
                   = 0 + INR (length deltas)).
    { assert (Hgen : forall l a, (forall i, i ∈ l -> (i < length samples)%nat) ->
                       fold_left (fun acc i => acc + f i) l a = a + INR (length l)).
      { induction l as [| i l IH]; intros a Hl; [simpl; lra |].
        cbn [fold_left length]. rewrite IH by (intros; apply Hl; now right).
        rewrite S_INR. assert (Hfi : f i = 1).
        { unfold f. destruct (Hsame i) as [-> | Hi].
          - rewrite Rabs_R0. replace (- 0 * 10) with 0 by lra. apply exp_0.
          - specialize (Hl i ltac:(left)). lia. }
        rewrite Hfi. lra. }
      apply Hgen. intros i Hi. unfold deltas in Hi.
      apply elem_of_seq in Hi. lia. }
    rewrite Hsum. field. lra.
Qed.

(** X13.  On two samples or more the integrity of the handler and the
    harmonic convergence of the node, which are computed alike, are in
    (0, 1], and they are 1 when all samples are the same, as they are in
    the arrays of zeros the constructors allocate. *)
Theorem integrity_and_convergence_bounds (samples : list Q) :
  (2 <= length samples)%nat ->
  0 < _calculateQuantumIntegrity samples <= 1
  /\ 0 < Entanglements._calculateHarmonicConvergence samples <= 1
  /\ (forall c : Q, Forall (fun x => (x == c)%Q) samples ->
        _calculateQuantumIntegrity samples = 1
        /\ Entanglements._calculateHarmonicConvergence samples = 1).
Proof.
  intros Hlen. destruct (decay_mean_bounds samples Hlen) as [Hb Hc].
  change (Entanglements._calculateHarmonicConvergence samples)
    with (_calculateQuantumIntegrity samples).
  split; [exact Hb |]. split; [exact Hb |].
  intros c Hall. split; exact (Hc c Hall).
Qed.
End IntegrityFacts.

Section MetricsFacts.
Import TransmissionHandler HandlerMetrics.

Lemma integrity_and_convergence_bounds_witness :
  (0 < _calculateQuantumIntegrity (signalStrength new_metrics) <= 1)%R
  /\ (0 < Entanglements._calculateHarmonicConvergence (signalStrength new_metrics)
       <= 1)%R
  /\ (forall c : Q,
        Forall (fun x => (x == c)%Q) (signalStrength new_metrics) ->
        _calculateQuantumIntegrity (signalStrength new_metrics) = 1%R
        /\ Entanglements._calculateHarmonicConvergence (signalStrength new_metrics)
           = 1%R).
Proof.
  apply (integrity_and_convergence_bounds (signalStrength new_metrics)).
  cbn [signalStrength new_metrics]. rewrite repeat_length. lia.
Defined.

Lemma take_app_take {A : Type} (n m : nat) (l r : list A) :
  (n <= m)%nat -> take n (l ++ take m r) = take n (l ++ r).
Proof.
  revert n. induction l as [| x l IH]; intros n Hnm; simpl.
  - rewrite take_take. f_equal. lia.
  - destruct n as [| n]; [reflexivity |]. simpl. f_equal. apply IH. lia.
Qed.

(** X14.  After any number of creations the array of signal strengths has
    the length it had and holds the levels of the latest transmissions,
    each rounded to single precision, the newest first, followed by what
    is left of the older samples; the counter has gone up by one for each,
    and nothing else has changed. *)
Theorem signalStrength_holds_the_latest (ts : list Transmission)
    (verified : JsMap.t Packet) (m : Metrics) :
  let m' :=
    fold_left (fun m t => _updateMetrics (transmission_created t) verified m)
              ts m in
  signalStrength m'
  = take (length (signalStrength m))
         (rev (map (fun t => Number.fround (t_consciousness t)) ts)
            ++ signalStrength m)
  /\ totalTransmissions m' = totalTransmissions m + Z.of_nat (length ts)
  /\ averageLatency m' = averageLatency m
  /\ quantumIntegrity m' = quantumIntegrity m.
Proof.
  revert m. induction ts as [| t ts IH]; intros m; cbn zeta.
  - simpl. rewrite firstn_all. repeat split. lia.
  - cbn [fold_left]. destruct (IH (_updateMetrics (transmission_created t) verified m))
      as (Hs & Ht & Ha & Hq).
    cbn zeta in Hs, Ht, Ha, Hq. rewrite Hs, Ht, Ha, Hq.
    cbn [_updateMetrics signalStrength totalTransmissions averageLatency
         quantumIntegrity].
    rewrite set_first_copyWithin. repeat split; [| cbn [length]; lia].
    rewrite length_take.
    replace (length (signalStrength m)
             `min` length (Number.fround (t_consciousness t) :: signalStrength m))%nat
      with (length (signalStrength m)) by (cbn [length]; lia).
    rewrite take_app_take by lia. cbn [map rev]. now rewrite <- app_assoc.
Qed.
(** What a sweep that returns leaves in the verified map. *)
Lemma archive_sweep_verified (fuel : nat) (now : Z) (h h' : Handler) :
  JsMap.uniq (verified (transmissionBuffers h)) ->
  _archiveOldTransmissions fuel now h = Some h' ->
  verified (transmissionBuffers h')
  = filter (fun e => ~ is_old (now - archiveAge (config h)) e)
           (verified (transmissionBuffers h)).
Proof.
  intros Hver Hrun. unfold _archiveOldTransmissions in Hrun.
  pose proof (fold_archive_entry (now - archiveAge (config h))
                (verified (transmissionBuffers h)) []
                (archived (transmissionBuffers h)) Hver) as Hfold.
  simpl app in Hfold. rewrite Hfold in Hrun. clear Hfold.
  destruct (limit_archive _ _ _) as [arch' |]; [| discriminate].
  injection Hrun as <-. reflexivity.
Qed.

Lemma sum_bounded (bound : Z) (l : list Z) (a : Z) :
  Forall (fun x => x <= bound) l ->
  fold_left Z.add l a <= a + Z.of_nat (length l) * bound.
Proof.
  intros Hl. revert a. induction Hl as [| x l Hx _ IH]; intros a.
  - simpl. lia.
  - cbn [fold_left length]. specialize (IH (a + x)). lia.
Qed.

(** X15.  A turn of the maintenance loop sweeps before it measures: when
    no read of the clock during the turn is more than [delta] after the
    sweep's, the average latency it reports is at most [archiveAge +
    delta], and it is 0 when the verified map is left empty. *)
Theorem maintenance_latency_bounded (fuel : nat) (now delta : Z)
    (clock : nat -> Z) (h h' : Handler) (m m' : Metrics) :
  JsMap.uniq (verified (transmissionBuffers h)) ->
  (forall i, clock i <= now + delta) ->
  0 <= archiveAge (config h) + delta ->
  maintenance_turn fuel now clock (h, m) = Some (h', m') ->
  (averageLatency m' <= inject_Z (archiveAge (config h) + delta))%Q
  /\ (verified (transmissionBuffers h') = [] -> averageLatency m' = 0%Q).
Proof.
  intros Hver Hclock Hage Hrun. unfold maintenance_turn in Hrun.
  cbn [fst snd] in Hrun.
  destruct (_archiveOldTransmissions fuel now h) as [h1 |] eqn:Hsweep;
    [| discriminate].
  cbn in Hrun. injection Hrun as <- <-.
  pose proof (archive_sweep_verified _ _ _ _ Hver Hsweep) as Hleft.
  cbn [_updateMetrics averageLatency]. split.
  - set (latencies := imap _ _).
    destruct (Nat.eqb_spec (length latencies) 0) as [Hzero | Hsome].
    + rewrite Zle_Qle in Hage. exact Hage.
    + assert (Hall : Forall (fun x => x <= archiveAge (config h) + delta) latencies).
      { rewrite Forall_forall. intros x Hx. unfold latencies in Hx.
        apply elem_of_lookup_imap in Hx as (i & e & -> & He).
        apply list_elem_of_lookup_2 in He. rewrite Hleft in He.
        apply list_elem_of_filter in He as [Hrecent _].
        unfold is_old in Hrecent. specialize (Hclock i). lia. }
      apply (sum_bounded _ _ 0) in Hall.
      apply Qle_shift_div_r.
      * change 0%Q with (inject_Z 0). rewrite <- Zlt_Qlt. lia.
      * rewrite <- inject_Z_mult, <- Zle_Qle. lia.
  - intros Hempty. now rewrite Hempty.
Qed.
End MetricsFacts.

Section MetricsExamples.
Import TransmissionHandler HandlerMetrics.

Lemma maintenance_latency_bounded_witness :
  (averageLatency
     (_updateMetrics (maintenance_cycle steady_clock)
        (verified (transmissionBuffers swept)) new_metrics)
   <= inject_Z (archiveAge (config crowded) + 0))%Q
  /\ (verified (transmissionBuffers swept) = [] ->
      averageLatency
        (_updateMetrics (maintenance_cycle steady_clock)
           (verified (transmissionBuffers swept)) new_metrics)
      = 0%Q).
Proof.
  apply (maintenance_latency_bounded 1 10000 0 steady_clock crowded swept
           new_metrics _ (proj1 crowded_uniq)).
  - intros i. unfold steady_clock. lia.
  - simpl. lia.
  - unfold maintenance_turn. cbn [fst snd].
    assert (Hsweep : _archiveOldTransmissions 1 10000 crowded = Some swept)
      by (vm_compute; reflexivity).
    rewrite Hsweep. reflexivity.
Defined.
End MetricsExamples.

(** ** Entanglements and the metrics of the node ([ghost_net.js]) *)
Section EntanglementFacts.
Import Entanglements.
Local Open Scope R_scope.

Lemma sum_of_resonances (l : list (string * Entanglement)) (a : R) :
  Forall (fun e => 0 <= resonance (snd e) <= 1) l ->
  a <= fold_left (fun total e => total + resonance (snd e)) l a
    <= a + INR (length l).
Proof.
  intros Hl. revert a. induction Hl as [| e l He _ IH]; intros a.
  - simpl. lra.
  - cbn [fold_left length]. rewrite S_INR. specialize (IH (a + resonance (snd e))). lra.
Qed.

(** X16.  [_updateConsciousnessMetrics] leaves the entanglements and the
    counter alone; the average it stores is 0 when there is no
    entanglement and otherwise the mean of the resonances, in [0, 1] when
    they are; the current level, rounded to single precision, goes first
    in the array of fluctuations, whose length stays, and the convergence
    stored is in (0, 1]. *)
Theorem updateConsciousnessMetrics_bounds (currentLevel : Q) (node : Node) :
  Forall (fun e => 0 <= resonance (snd e) <= 1) (entanglements node) ->
  (2 <= length (quantumFluctuations (metrics node)))%nat ->
  let node' := _updateConsciousnessMetrics currentLevel node in
  entanglements node' = entanglements node
  /\ totalEntanglements (metrics node') = totalEntanglements (metrics node)
  /\ (entanglements node = [] -> averageResonance (metrics node') = 0)
  /\ 0 <= averageResonance (metrics node') <= 1
  /\ quantumFluctuations (metrics node')
     = take (length (quantumFluctuations (metrics node)))
            (Number.fround currentLevel :: quantumFluctuations (metrics node))
  /\ 0 < harmonicConvergence (metrics node') <= 1.
Proof.
  intros Hres Hlen node'. subst node'. unfold _updateConsciousnessMetrics.
  cbn [entanglements metrics totalEntanglements averageResonance
       quantumFluctuations harmonicConvergence].
  split; [reflexivity |]. split; [reflexivity |].
  split; [intros ->; reflexivity |]. split; [| split].
  - unfold JsMap.size.
    destruct (Nat.ltb_spec 0 (length (entanglements node))) as [Hsome | Hnone]; [| lra].
    pose proof (sum_of_resonances _ 0 Hres) as [Hlo Hhi].
    assert (Hn : 0 < INR (length (entanglements node))) by now apply lt_0_INR.
    split.
    + apply Rmult_le_pos; [lra |]. left. now apply Rinv_0_lt_compat.
    + apply (Rmult_le_reg_r (INR (length (entanglements node)))); [assumption |].
      unfold Rdiv. rewrite Rmult_assoc, Rinv_l by lra. lra.
  - apply set_first_copyWithin.
  - rewrite set_first_copyWithin.
    apply (decay_mean_bounds
             (take (length (quantumFluctuations (metrics node)))
                   (Number.fround currentLevel
                      :: quantumFluctuations (metrics node)))).
    rewrite length_take. cbn [length]. lia.
Qed.

Lemma updateConsciousnessMetrics_bounds_witness :
  entanglements (_updateConsciousnessMetrics 0.5%Q entangled)
  = entanglements entangled
  /\ totalEntanglements (metrics (_updateConsciousnessMetrics 0.5%Q entangled))
     = totalEntanglements (metrics entangled)
  /\ (entanglements entangled = [] ->
      averageResonance (metrics (_updateConsciousnessMetrics 0.5%Q entangled)) = 0)
  /\ 0 <= averageResonance (metrics (_updateConsciousnessMetrics 0.5%Q entangled))
     <= 1
  /\ quantumFluctuations (metrics (_updateConsciousnessMetrics 0.5%Q entangled))
     = take (length (quantumFluctuations (metrics entangled)))
            (Number.fround 0.5%Q :: quantumFluctuations (metrics entangled))
  /\ 0 < harmonicConvergence (metrics (_updateConsciousnessMetrics 0.5%Q entangled))
     <= 1.
Proof.
  apply (updateConsciousnessMetrics_bounds 0.5%Q entangled).
  - repeat constructor; simpl; lra.
  - cbn [entangled metrics new_node quantumFluctuations].
    rewrite repeat_length. lia.
Defined.
End EntanglementFacts.

Section ConnectionFacts.
Import Entanglements.
Variable _verifyPeerSignature : string -> bool.

Lemma handleQuantumTunnelConnection_step (now1 now2 : Z) (peerId : string)
    (accepted : Z) (node : Node) :
  connected _verifyPeerSignature accepted node ->
  connected _verifyPeerSignature
    (accepted + if _verifyPeerSignature peerId then 1 else 0)
    (_handleQuantumTunnelConnection _verifyPeerSignature now1 now2 peerId node).
Proof.
  intros (Hu & Hsize & Htotal & Hall). unfold _handleQuantumTunnelConnection.
  destruct (_verifyPeerSignature peerId) eqn:Hv; cbn [negb].
  - unfold connected. cbn [entanglements metrics totalEntanglements].
    split; [now apply uniq_set |]. split; [| split; [lia |]].
    + pose proof (size_set_bounds peerId
                    {| e_id := peerId; establishedAt := now1; resonance := 0;
                       lastPulse := now2 |} (entanglements node)) as Hb.
      lia.
    + intros k e. destruct (String.eqb_spec k peerId) as [-> | Hne].
      * rewrite get_set_same. intros [= <-]. auto.
      * rewrite get_set_other by assumption. apply Hall.
  - unfold connected. rewrite Z.add_0_r. auto.
Qed.

(** X17.  Whatever connections a fresh node has handled, every
    entanglement is that of a peer that passed the peer check, under its
    own identifier; [totalEntanglements] counts the connections that
    passed, a peer that connects again being counted again, so that it is
    at least the number of entanglements. *)
Theorem entanglements_after_connections (attempts : list Attempt) :
  let node := after_connections _verifyPeerSignature attempts new_node in
  JsMap.uniq (entanglements node)
  /\ totalEntanglements (metrics node)
     = Z.of_nat (length (filter (fun a => _verifyPeerSignature (at_peer a) = true)
                                attempts))
  /\ Z.of_nat (JsMap.size (entanglements node)) <= totalEntanglements (metrics node)
  /\ forall k e, JsMap.get k (entanglements node) = Some e ->
       _verifyPeerSignature k = true /\ e_id e = k.
Proof.
  assert (Hgen : forall attempts accepted node,
             connected _verifyPeerSignature accepted node ->
             connected _verifyPeerSignature
               (accepted
                + Z.of_nat (length (filter (fun a => _verifyPeerSignature (at_peer a) = true)
                                           attempts)))
               (after_connections _verifyPeerSignature attempts node)).
  { clear attempts. induction attempts as [| a attempts IH]; intros accepted node Hc.
    - simpl. now rewrite Z.add_0_r.
    - cbn [after_connections fold_left].
      apply (handleQuantumTunnelConnection_step (at_now1 a) (at_now2 a) (at_peer a))
        in Hc.
      apply IH in Hc. unfold after_connections in Hc.
      destruct (_verifyPeerSignature (at_peer a)) eqn:Hv.
      + rewrite filter_cons_True by assumption. cbn [length].
        replace (accepted + Z.of_nat (S (length (filter _ attempts))))
          with (accepted + 1 + Z.of_nat (length (filter (fun a => _verifyPeerSignature (at_peer a) = true) attempts)))
          by lia.
        exact Hc.
      + rewrite filter_cons_False by congruence.
        now rewrite Z.add_0_r in Hc. }
  intros node.
  destruct (Hgen attempts 0 new_node) as (Hu & Hsize & Htotal & Hall).
  { unfold connected, new_node. cbn. repeat split; [apply NoDup_nil_2 | lia | discriminate | discriminate]. }
  fold node in Hu, Hsize, Htotal, Hall. simpl in Htotal. auto.
Qed.
End ConnectionFacts.

(** ** The peers of the network ([peer.js]) *)
Section PeersFacts.
Import PeerNetwork Peers.

Lemma get_delete_same {V} (k : string) (m : list (string * V)) :
  JsMap.get k (JsMap.delete k m) = None.
Proof.
  unfold JsMap.delete. induction m as [| [k' v] m IH]; [reflexivity |].
  destruct (decide (k' = k)) as [-> | Hne].
  - now rewrite filter_cons_False by (simpl; tauto).
  - rewrite filter_cons_True by assumption. simpl.
    destruct (String.eqb_spec k k'); [congruence | assumption].
Qed.

Lemma get_delete_other {V} (k k' : string) (m : list (string * V)) :
  k <> k' -> JsMap.get k (JsMap.delete k' m) = JsMap.get k m.
Proof.
  intros Hne. unfold JsMap.delete. induction m as [| [k0 v] m IH]; [reflexivity |].
  destruct (decide (k0 = k')) as [-> | Hne0].
  - rewrite filter_cons_False by (simpl; tauto). simpl.
    destruct (String.eqb_spec k k'); [contradiction | assumption].
  - rewrite filter_cons_True by assumption. simpl.
    destruct (String.eqb_spec k k0); [reflexivity | assumption].
Qed.

Lemma get_Some_keys {V} (k : string) (v : V) (m : list (string * V)) :
  JsMap.get k m = Some v -> k ∈ JsMap.keys m.
Proof.
  unfold JsMap.keys. induction m as [| [k' v'] m IH]; simpl; [discriminate |].
  destruct (String.eqb_spec k k') as [-> | Hne]; intros Hget.
  - apply list_elem_of_here.
  - apply list_elem_of_further. auto.
Qed.

(** Deleting a key that is there takes exactly one entry away. *)
Lemma size_delete_present {V} (k : string) (m : list (string * V)) :
  JsMap.uniq m -> k ∈ JsMap.keys m ->
  S (JsMap.size (JsMap.delete k m)) = JsMap.size m.
Proof.
  unfold JsMap.size. induction m as [| [k' v] m IH]; intros Hu Hk.
  - now apply not_elem_of_nil in Hk.
  - unfold JsMap.uniq, JsMap.keys in Hu. rewrite fmap_cons, NoDup_cons in Hu.
    destruct Hu as [Hk' Hu']. destruct (decide (k' = k)) as [-> | Hne].
    + unfold JsMap.delete. rewrite filter_cons_False by (simpl; tauto).
      fold (JsMap.delete k m). now rewrite delete_absent.
    + unfold JsMap.delete. rewrite filter_cons_True by assumption.
      fold (JsMap.delete k m). cbn [length]. f_equal. apply IH; [assumption |].
      unfold JsMap.keys in Hk. rewrite fmap_cons in Hk.
      apply elem_of_cons in Hk as [-> | Hk]; [contradiction | assumption].
Qed.

Context {engine : Engine}.
Variable _removeDeadRoutes :
  string -> gmap string (list string) -> gmap string (list string).
Variable _calculateQuantumLatency : string -> Q.

(** X18.  Disconnection is idempotent: the second call for the same peer
    finds it gone from [this.peers] and returns at once; a peer that is
    not known is not counted out, nor marked dead. *)
Theorem handlePeerDisconnection_idempotent (peerId : string) (s : State) :
  let disconnect :=
    _handlePeerDisconnection _removeDeadRoutes _calculateQuantumLatency peerId in
  disconnect (disconnect s) = disconnect s
  /\ (JsMap.get peerId (peers s) = None -> disconnect s = s).
Proof.
  intros disconnect. subst disconnect. unfold _handlePeerDisconnection.
  destruct (JsMap.get peerId (peers s)) as [peer |] eqn:Hget.
  - cbn [peers]. rewrite get_delete_same. split; [reflexivity | discriminate].
  - rewrite Hget. split; reflexivity.
Qed.

(** X19.  The disconnection of a known peer takes it, and it alone, out of
    [this.peers], out of the active peers and out of the strengths, marks
    it dead, and counts one peer less for one entry less. *)
Theorem handlePeerDisconnection_effect (peerId : string) (peer : Peer) (s : State) :
  JsMap.uniq (peers s) ->
  JsMap.get peerId (peers s) = Some peer ->
  let s' :=
    _handlePeerDisconnection _removeDeadRoutes _calculateQuantumLatency peerId s in
  JsMap.get peerId (peers s') = None
  /\ (forall k, k <> peerId -> JsMap.get k (peers s') = JsMap.get k (peers s))
  /\ JsMap.uniq (peers s')
  /\ Z.of_nat (JsMap.size (peers s')) = Z.of_nat (JsMap.size (peers s)) - 1
  /\ connectedPeers s' = connectedPeers s - 1
  /\ activePeers s' = activePeers s ∖ {[peerId]}
  /\ peerId ∈ deadPeers s'
  /\ strengthOf (network s') peerId = 0%Q
  /\ (forall k, k <> peerId ->
        strengthOf (network s') k = strengthOf (network s) k).
Proof.
  intros Hu Hget s'. subst s'. unfold _handlePeerDisconnection. rewrite Hget.
  cbn [peers connectedPeers activePeers deadPeers network].
  split; [apply get_delete_same |].
  split; [intros k Hk; now apply get_delete_other |].
  split; [now apply uniq_delete |].
  split; [pose proof (size_delete_present peerId (peers s) Hu
                        (get_Some_keys _ _ _ Hget)); lia |].
  split; [reflexivity |]. split; [reflexivity |].
  split; [set_solver |].
  unfold strengthOf, optimizeRoutes. cbn [entanglementStrength].
  split; [now rewrite lookup_delete_eq |].
  intros k Hk. now rewrite lookup_delete_ne by congruence.
Qed.

Lemma peerStability_bounds (strength loss latency : Q) :
  (0 <= strength <= 1)%Q -> (0 <= loss <= 1)%Q -> (0 <= latency)%Q ->
  (0 <= Q2R strength * (1 - Q2R loss) * exp (- Q2R latency / 1000) <= 1)%R.
Proof.
  intros [Hs0 Hs1] [Hl0 Hl1] Hlat.
  apply Qreals.Qle_Rle in Hs0, Hs1, Hl0, Hl1, Hlat.
  rewrite RMicromega.Q2R_0 in *. rewrite RMicromega.Q2R_1 in *.
  assert (He : (0 < exp (- Q2R latency / 1000) <= 1)%R)
    by (apply exp_nonpos_le_1; lra).
  assert (Hp : (0 <= Q2R strength * (1 - Q2R loss) <= 1)%R) by nra.
  nra.
Qed.

(** X20.  The stability of the network is 1 when there is no peer, and
    otherwise the mean over the peers of strength, delivery rate and
    decayed latency, in [0, 1] when strengths and loss rates are and no
    latency is negative. *)
Theorem calculateQuantumStability_bounds (s : State) :
  Forall (fun e =>
            (0 <= strengthOf (network s) (fst e) <= 1)%Q
            /\ (0 <= packetLoss (snd e) <= 1)%Q
            /\ (0 <= averageLatency (snd e))%Q) (peers s) ->
  (0 <= _calculateQuantumStability s <= 1)%R
  /\ (peers s = [] -> _calculateQuantumStability s = 1%R).
Proof.
  intros Hpeers. unfold _calculateQuantumStability, JsMap.size.
  split; [| intros ->; reflexivity].
  destruct (Nat.eqb_spec (length (peers s)) 0) as [Hzero | Hsome]; [lra |].
  set (term := fun e : string * Peer =>
                 (Q2R (strengthOf (network s) (fst e)) * (1 - Q2R (packetLoss (snd e)))
                  * exp (- Q2R (averageLatency (snd e)) / 1000))%R).
  change (fold_left _ (peers s) 0%R)
    with (fold_left (fun total e => (total + term e)%R) (peers s) 0%R).
  assert (Hsum : forall l a,
             Forall (fun e => (0 <= term e <= 1)%R) l ->
             (a <= fold_left (fun total e => (total + term e)%R) l a
              <= a + INR (length l))%R).
  { induction l as [| e l IH]; intros a Hl.
    - simpl. lra.
    - apply Forall_cons in Hl as [He Hl]. cbn [fold_left length].
      rewrite S_INR. specialize (IH (a + term e)%R Hl). lra. }
  assert (Hterms : Forall (fun e => (0 <= term e <= 1)%R) (peers s)).
  { eapply Forall_impl; [exact Hpeers |]. intros e (Hs & Hl & Hlat).
    now apply peerStability_bounds. }
  destruct (Hsum _ 0%R Hterms) as [Hlo Hhi].
  assert (Hn : (0 < INR (length (peers s)))%R) by (apply lt_0_INR; lia).
  split.
  - apply Rmult_le_pos; [lra |]. left. now apply Rinv_0_lt_compat.
  - apply (Rmult_le_reg_r (INR (length (peers s)))); [assumption |].
    unfold Rdiv. rewrite Rmult_assoc, Rinv_l by lra. lra.
Qed.
End PeersFacts.

Section PeersExamples.
Import PeerNetwork Peers.

Lemma two_peers_uniq : JsMap.uniq (peers two_peers).
Proof. apply (bool_decide_unpack _). vm_compute. exact I. Qed.

Lemma handlePeerDisconnection_effect_witness :
  let s' :=
    _handlePeerDisconnection (engine := insertion) without_routes_of latencies
      "B" two_peers in
  JsMap.get "B" (peers s') = None
  /\ (forall k, k <> "B" -> JsMap.get k (peers s') = JsMap.get k (peers two_peers))
  /\ JsMap.uniq (peers s')
  /\ Z.of_nat (JsMap.size (peers s')) = Z.of_nat (JsMap.size (peers two_peers)) - 1
  /\ connectedPeers s' = connectedPeers two_peers - 1
  /\ activePeers s' = activePeers two_peers ∖ {[ "B" ]}
  /\ "B" ∈ deadPeers s'
  /\ strengthOf (network s') "B" = 0%Q
  /\ (forall k, k <> "B" ->
        strengthOf (network s') k = strengthOf (network two_peers) k).
Proof.
  exact (handlePeerDisconnection_effect (engine := insertion) without_routes_of
           latencies "B"
           {| packetLoss := 0.5; averageLatency := 250 |} two_peers
           two_peers_uniq eq_refl).
Defined.

Lemma calculateQuantumStability_bounds_witness :
  (0 <= _calculateQuantumStability two_peers <= 1)%R
  /\ (peers two_peers = [] -> _calculateQuantumStability two_peers = 1%R).
Proof.
  apply calculateQuantumStability_bounds.
  repeat constructor; vm_compute; discriminate.
Defined.
End PeersExamples.

(** ** The key of the cipher and the identifier of the node *)
Section KeyFacts.
Import TransmissionHandler.

Lemma lxor_byte_range (a b : Z) :
  0 <= a < 256 -> 0 <= b < 256 -> 0 <= Z.lxor a b < 256.
Proof.
  intros Ha Hb. assert (H0 : 0 <= Z.lxor a b) by (apply Z.lxor_nonneg; lia).
  split; [assumption |].
  destruct (Z.eq_dec (Z.lxor a b) 0) as [-> | Hne]; [lia |].
  change 256 with (2 ^ 8). apply Z.log2_lt_pow2; [lia |].
  pose proof (Z.log2_lxor a b ltac:(lia) ltac:(lia)) as Hlog.
  assert (Hla : Z.log2 a < 8).
  { destruct (Z.eq_dec a 0) as [-> | Hane]; [simpl; lia |].
    apply Z.log2_lt_pow2; simpl; lia. }
  assert (Hlb : Z.log2 b < 8).
  { destruct (Z.eq_dec b 0) as [-> | Hbne]; [simpl; lia |].
    apply Z.log2_lt_pow2; simpl; lia. }
  lia.
Qed.

Lemma byte_xor_cancel (c c' d : byte) :
  byte_of_Z
    (Z.lxor (byte_to_Z c')
       (byte_to_Z
          (byte_of_Z (Z.lxor (Z.lxor (byte_to_Z d) (byte_to_Z c)) (byte_to_Z c')))))
  = byte_of_Z (Z.lxor (byte_to_Z c) (byte_to_Z d)).
Proof.
  pose proof (byte_to_Z_range c). pose proof (byte_to_Z_range c').
  pose proof (byte_to_Z_range d).
  rewrite byte_to_of_Z by (apply lxor_byte_range; [apply lxor_byte_range |]; assumption).
  f_equal. rewrite (Z.lxor_comm (byte_to_Z c')), Z.lxor_assoc, Z.lxor_nilpotent,
    Z.lxor_0_r. apply Z.lxor_comm.
Qed.

Lemma nth_map_seq (f : nat -> byte) (n i : nat) :
  (i < n)%nat -> nth i (map f (seq 0 n)) x00 = f i.
Proof.
  intros Hi. rewrite (nth_indep _ x00 (f 0%nat))
    by (rewrite length_map, length_seq; lia).
  rewrite map_nth, seq_nth by lia. reflexivity.
Qed.

(** X21.  The key tells nothing of the consciousness it is derived from:
    whatever key thirty-two draws give for one value, thirty-two other
    draws give for any other value. *)
Theorem deriveKey_masks_consciousness (text text' : string) (draws : list byte) :
  length (matching_draws text text' draws) = 32%nat
  /\ deriveKey text' (matching_draws text text' draws) = deriveKey text draws.
Proof.
  split; [unfold matching_draws; now rewrite length_map, length_seq |].
  unfold deriveKey. f_equal. apply map_ext_in. intros i Hi.
  apply in_seq in Hi. unfold matching_draws.
  rewrite nth_map_seq by lia. apply byte_xor_cancel.
Qed.

Lemma substring_length (n : nat) (s : string) :
  String.length (substring 0 n s) = Nat.min n (String.length s).
Proof.
  revert s. induction n as [| n IH]; intros [| a s]; simpl; try reflexivity.
  now rewrite IH.
Qed.

(** X22.  The identifier the configuration falls back on is eight
    characters; with a source of entropy in the environment it is the
    same whatever the clock, and an empty source counts as none. *)
Theorem calculateQuantumEntropy_shape (source : option string) (now now' : Z) :
  String.length (QuantumConfig.calculateQuantumEntropy source now) = 8%nat
  /\ (forall s, source = Some s -> s <> "" ->
        QuantumConfig.calculateQuantumEntropy source now
        = QuantumConfig.calculateQuantumEntropy source now')
  /\ QuantumConfig.calculateQuantumEntropy (Some "") now
     = QuantumConfig.calculateQuantumEntropy None now.
Proof.
  split; [| split; [| reflexivity]].
  - unfold QuantumConfig.calculateQuantumEntropy.
    rewrite substring_length, hex_of_bytes_length.
    unfold createHash_sha256. now rewrite digest_length.
  - intros s -> Hs. unfold QuantumConfig.calculateQuantumEntropy.
    now destruct (String.eqb_spec s "").
Qed.
End KeyFacts.

(** ** The validation of the configuration ([config.js]) *)
Section ConfigFacts.
Import QuantumConfig.
Context `{Host}.


End ConfigFacts.

(** ** The metrics of a peer ([peer.js]) *)
Section PeerMetricsFacts.
Import PeerNetwork Peers.
Variable _calculateRoutingEfficiency : State -> Q.

Lemma keys_set_present {V} (k : string) (v v' : V) (m : list (string * V)) :
  JsMap.get k m = Some v -> JsMap.keys (JsMap.set k v' m) = JsMap.keys m.
Proof.
  unfold JsMap.keys. induction m as [| [k0 v0] m IH]; simpl; [discriminate |].
  destruct (String.eqb_spec k k0) as [-> | Hne]; intros Hget; simpl.
  - reflexivity.
  - f_equal. auto.
Qed.

Lemma double_nonneg (q : Q) : (0 <= q)%Q -> (0 <= Number.double q)%Q.
Proof. apply round_nonneg. Qed.

Lemma mul_nonneg (x y : Q) : (0 <= x)%Q -> (0 <= y)%Q -> (0 <= Number.mul x y)%Q.
Proof.
  intros Hx Hy. apply round_nonneg.
  apply Qmult_le_0_compat; now apply double_nonneg.
Qed.

Lemma add_nonneg (x y : Q) : (0 <= x)%Q -> (0 <= y)%Q -> (0 <= Number.add x y)%Q.
Proof.
  intros Hx Hy. apply round_nonneg.
  pose proof (double_nonneg x Hx). pose proof (double_nonneg y Hy). Lqa.lra.
Qed.

(** X24.  A message of a peer that is not in [this.peers] changes no
    metric.  For a known peer the rolling average becomes the sum, on
    doubles, of nine tenths of what it was and a tenth of the latency of
    the message, which is not negative when neither of the two is; the
    loss rate of the peer, the other peers and the order of the map are as
    before, the length of the message, rounded to single precision, goes
    first in the array of bandwidth samples, whose length stays, and the
    stability stored is that of the network with the new average. *)
Theorem updatePeerMetrics_effect (now : Z) (peerId : string)
    (timestamp bytes : Z) (s : State) (m : Health) :
  let latency := inject_Z (now - timestamp) in
  let after :=
    _updatePeerMetrics _calculateRoutingEfficiency now peerId timestamp bytes
      (s, m) in
  (JsMap.get peerId (peers s) = None -> after = (s, m))
  /\ (forall peer, JsMap.get peerId (peers s) = Some peer ->
        exists peer',
          JsMap.get peerId (peers (fst after)) = Some peer'
          /\ packetLoss peer' = packetLoss peer
          /\ averageLatency peer'
             = Number.add (Number.mul (averageLatency peer) 0.9)
                          (Number.mul latency 0.1)
          /\ ((0 <= averageLatency peer)%Q -> (0 <= latency)%Q ->
              (0 <= averageLatency peer')%Q)
          /\ (forall k, k <> peerId ->
                JsMap.get k (peers (fst after)) = JsMap.get k (peers s))
          /\ JsMap.keys (peers (fst after)) = JsMap.keys (peers s)
          /\ bandwidthUsage (snd after)
             = take (length (bandwidthUsage m))
                    (Number.fround (inject_Z bytes) :: bandwidthUsage m)
          /\ quantumStability (snd after)
             = _calculateQuantumStability (fst after)).
Proof.
  intros latency after. subst after. unfold _updatePeerMetrics. split.
  - intros ->. reflexivity.
  - intros peer Hget. rewrite Hget. cbn [fst snd peers bandwidthUsage quantumStability].
    eexists. split; [apply get_set_same |]. cbn [packetLoss averageLatency].
    fold latency. split; [reflexivity |]. split; [reflexivity |].
    split; [intros Havg Hlat; apply add_nonneg; apply mul_nonneg;
            try assumption; discriminate |].
    split; [intros k Hk; now apply get_set_other |].
    split; [eapply keys_set_present; exact Hget |].
    split; [apply set_first_copyWithin | reflexivity].
Qed.
End PeerMetricsFacts.
